(** * Entry curation of the union English-Japanese Kindle dictionary

    A shallow embedding of [generate_union_kindle_enja.py]: the admission
    filter [IsGoodEntry], the inflection pre-pass and the per-key loop of
    [MakeMain], the label ranking, item selection and attachment steps of
    [MakeMainEntry], [MakeMainEntryParentItem] and [MergeShownItems].

    Conventions of the embedding.
    - A Python [str] is a list of Unicode code points ([N]).
    - The numeric fields of a stored entry ("probability", "share") are
      decimal strings in the store (the code reads them with
      [float(entry.get("probability") or "0")]); they are represented by
      the rational number they spell, [None] standing for a field that is
      absent or empty.
    - The costs of the label ranking use [math.log]; they are computed
      over the real numbers.
    - The [regex] character properties, the tokenizer, the n-gram
      precision, the word normaliser and the iteration order of Python
      sets are interfaces of the run-time environment. *)

From Stdlib Require Import String Ascii List Bool Arith ZArith NArith QArith.
From Stdlib Require Import Reals Lra Lia Permutation.
From stdpp Require Import gmap strings list fin_maps.
Import ListNotations.

Set Default Proof Using "Type".

(** ** Python strings *)

Definition char := N.
Definition str := list N.

(** An ASCII literal as a Python string. *)
Definition u (s : string) : str :=
  map N_of_ascii (list_ascii_of_string s).

Definition str_eqb (a b : str) : bool := bool_decide (a = b).

Definition inb (x : str) (l : list str) : bool := existsb (str_eqb x) l.

Definition between (lo hi c : N) : bool := ((lo <=? c) && (c <=? hi))%N.

Definition nonempty {A} (l : list A) : bool :=
  match l with [] => false | _ => true end.

(** [s.startswith(p)] *)
Fixpoint startswith (p s : str) : bool :=
  match p, s with
  | [], _ => true
  | _ :: _, [] => false
  | a :: p', b :: s' => (a =? b)%N && startswith p' s'
  end.

(** [s.count(c)] for a one-character [c] *)
Definition count_char (c : char) (s : str) : nat :=
  length (List.filter (N.eqb c) s).

(** [s.find(c) >= 0] for a one-character [c] *)
Definition has_char (c : char) (s : str) : bool := existsb (N.eqb c) s.

(** [s.split(c)] for a one-character separator: always at least one piece. *)
Fixpoint split_on (c : char) (s : str) : list str :=
  match s with
  | [] => [[]]
  | x :: r =>
      if (x =? c)%N then [] :: split_on c r
      else match split_on c r with
           | p :: ps => (x :: p) :: ps
           | [] => [[x]]
           end
  end.

(** [sep.join(l)] *)
Fixpoint join (sep : str) (l : list str) : str :=
  match l with
  | [] => []
  | [a] => a
  | a :: r => a ++ sep ++ join sep r
  end.

(** ** Character properties of the [regex] module

    The Unicode tables behind [\p{Latin}], [\p{Lu}], [\p{P}], [\p{S}],
    [\d], [\w], [\p{Han}], [\p{Hiragana}], [\p{Katakana}] and behind
    [str.strip] ([str.isspace]) are data of the run-time environment. *)

Class Unicode := {
  uni_Latin : char -> bool;
  uni_Lu : char -> bool;
  uni_P : char -> bool;
  uni_S : char -> bool;
  uni_digit : char -> bool;
  uni_word : char -> bool;
  uni_Han : char -> bool;
  uni_Hiragana : char -> bool;
  uni_Katakana : char -> bool;
  uni_space : char -> bool
}.

Section Text.
Context {U : Unicode}.

(** [s.strip()] *)
Fixpoint lstrip (s : str) : str :=
  match s with
  | c :: r => if uni_space c then lstrip r else s
  | [] => []
  end.

Definition strip (s : str) : str := rev (lstrip (rev (lstrip s))).

Definition is_AZ (c : char) : bool := between 65 90 c.
Definition is_az (c : char) : bool := between 97 122 c.

(** [regex.search(r"[^\x20-\x7F\p{Latin}]", word)] *)
Definition search_outside_latin (word : str) : bool :=
  existsb (fun c => negb (between 32 127 c || uni_Latin c)) word.

(** [regex.fullmatch(r"\d+(th)?", word)] *)
Fixpoint drop_digits (s : str) : str :=
  match s with
  | c :: r => if uni_digit c then drop_digits r else s
  | [] => []
  end.

Definition fullmatch_ordinal (word : str) : bool :=
  match word with
  | c :: _ =>
      uni_digit c &&
      (let rest := drop_digits word in
       str_eqb rest [] || str_eqb rest (u "th"))
  | [] => false
  end.

(** [regex.search(r"[A-Z]", word)] *)
Definition search_AZ (word : str) : bool := existsb is_AZ word.

(** [regex.fullmatch(r"[a-z ]+", word)] *)
Definition fullmatch_az_space (word : str) : bool :=
  nonempty word && forallb (fun c => is_az c || (c =? 32)%N) word.

(** [regex.fullmatch("[a-z]+", word)] *)
Definition fullmatch_az (word : str) : bool :=
  nonempty word && forallb is_az word.

(** [regex.search(r"(^| )[\p{Lu}\p{P}\p{S}\d]", word)] *)
Definition is_head_symbol (c : char) : bool :=
  uni_Lu c || uni_P c || uni_S c || uni_digit c.

Fixpoint search_head_symbol_from (at_head : bool) (s : str) : bool :=
  match s with
  | [] => false
  | c :: r =>
      (at_head && is_head_symbol c) || search_head_symbol_from (c =? 32)%N r
  end.

Definition search_head_symbol (word : str) : bool :=
  search_head_symbol_from true word.

(** [regex.search(r"[A-Z].*[A-Z]", word)]: two capitals on one line
    ([.] does not match a line feed). *)
Fixpoint search_two_AZ_from (seen : bool) (s : str) : bool :=
  match s with
  | [] => false
  | c :: r =>
      if is_AZ c then seen || search_two_AZ_from true r
      else if (c =? 10)%N then search_two_AZ_from false r
      else search_two_AZ_from seen r
  end.

Definition search_two_AZ (word : str) : bool := search_two_AZ_from false word.

(** [regex.search(r"\w{20,}", text)]: a run of twenty word characters. *)
Fixpoint search_word_run (need : nat) (run : nat) (s : str) : bool :=
  match s with
  | [] => false
  | c :: r =>
      if uni_word c then
        (need <=? S run) || search_word_run need (S run) r
      else search_word_run need 0 r
  end.

Definition search_long_word (text : str) : bool := search_word_run 20 0 text.

(** [regex.sub(r" \[-+\] .*", "", text)]: from a separator [" [--] "] to
    the end of the line. *)
Fixpoint drop_dashes (s : str) : str :=
  match s with
  | c :: r => if (c =? 45)%N then drop_dashes r else s
  | [] => []
  end.

Definition at_note_mark (s : str) : bool :=
  match s with
  | 32%N :: 91%N :: 45%N :: r => startswith (u "] ") (drop_dashes r)
  | _ => false
  end.

Fixpoint sub_note_from (skipping : bool) (s : str) : str :=
  match s with
  | [] => []
  | c :: r =>
      if skipping then
        if (c =? 10)%N then c :: sub_note_from false r
        else sub_note_from true r
      else if at_note_mark s then sub_note_from true r
      else c :: sub_note_from false r
  end.

Definition sub_note (text : str) : str := sub_note_from false text.

(** [regex.sub(r" \[-+\] .*", "", text).strip()] *)
Definition clean_text (text : str) : str := strip (sub_note text).

(** [regex.sub(r"\(.*?\)", "", text)] and [regex.sub(r"\[.*?\]", "", text)]:
    from an opening bracket to the first closing one on the same line. *)
Fixpoint closes_on_line (close : char) (s : str) : bool :=
  match s with
  | [] => false
  | c :: r =>
      if (c =? close)%N then true
      else if (c =? 10)%N then false
      else closes_on_line close r
  end.

Fixpoint sub_bracket_from (open close : char) (inside : bool) (s : str) : str :=
  match s with
  | [] => []
  | c :: r =>
      if inside then sub_bracket_from open close (negb (c =? close)%N) r
      else if (c =? open)%N && closes_on_line close r
           then sub_bracket_from open close true r
      else c :: sub_bracket_from open close false r
  end.

Definition sub_bracket (open close : char) (text : str) : str :=
  sub_bracket_from open close false text.

(** [regex.sub(r"[^-_\p{Latin}\d']+", rep, text)] with [rep] one space or
    the empty string. *)
Definition is_token_char (c : char) : bool :=
  (c =? 45)%N || (c =? 95)%N || uni_Latin c || uni_digit c || (c =? 39)%N.

Fixpoint sub_nontoken_from (rep : str) (in_run : bool) (s : str) : str :=
  match s with
  | [] => []
  | c :: r =>
      if is_token_char c then c :: sub_nontoken_from rep false r
      else if in_run then sub_nontoken_from rep true r
      else rep ++ sub_nontoken_from rep true r
  end.

Definition sub_nontoken (rep : str) (text : str) : str :=
  sub_nontoken_from rep false text.

(** The non-safe text classes of [CheckSafeText]. *)
Definition is_safe_char (c : char) : bool :=
  between 32 127 c || uni_Han c || uni_Hiragana c || uni_Katakana c ||
  (c =? 12540)%N || (c =? 12539)%N || (c =? 12289)%N || (c =? 12290)%N ||
  (c =? 12293)%N.

Definition is_nonsafe_ascii_symbol (c : char) : bool :=
  (c =? 92)%N || (c =? 123)%N || (c =? 125)%N || (c =? 96)%N.

Definition CheckSafeText (text : str) : bool :=
  if existsb (fun c => negb (is_safe_char c)) text then false
  else if existsb is_nonsafe_ascii_symbol text then false
  else true.

End Text.

(** ** Data model *)

(** One definition item of an entry ([entry["item"][i]]). *)
Record item := {
  i_pos : str;
  i_label : str;
  i_text : str;
  i_is_aux : bool
}.

(** One phrase of an entry ([entry["phrase"][i]]). *)
Record phrase := {
  ph_i : option str;
  ph_w : str;
  ph_x : list str
}.

(** The inflection attributes, in the order of [INFLECTIONS]. *)
Inductive infl_name :=
| noun_plural
| verb_singular
| verb_present_participle
| verb_past
| verb_past_participle
| adjective_comparative
| adjective_superlative
| adverb_comparative
| adverb_superlative.

Definition INFLECTIONS : list (list infl_name) :=
  [ [noun_plural];
    [verb_singular; verb_present_participle; verb_past; verb_past_participle];
    [adjective_comparative; adjective_superlative];
    [adverb_comparative; adverb_superlative] ].

Definition infl_key (n : infl_name) : str :=
  match n with
  | noun_plural => u "noun_plural"
  | verb_singular => u "verb_singular"
  | verb_present_participle => u "verb_present_participle"
  | verb_past => u "verb_past"
  | verb_past_participle => u "verb_past_participle"
  | adjective_comparative => u "adjective_comparative"
  | adjective_superlative => u "adjective_superlative"
  | adverb_comparative => u "adverb_comparative"
  | adverb_superlative => u "adverb_superlative"
  end.

(** A raw entry of the store.  Optional list fields ("translation",
    "alternative", "parent", "phrase") are empty when absent: the code
    only tests them for truth. *)
Record entry := {
  e_word : str;
  e_probability : option Q;
  e_share : option Q;
  e_pronunciation : option str;
  e_translation : list str;
  e_item : list item;
  e_alternative : list str;
  e_parent : list str;
  e_phrase : list phrase;
  e_infl : infl_name -> option str
}.

(** The store: [input_dbm.Get(key)] followed by [json.loads]. *)
Abbreviation dbm := (gmap str (list entry)).

(** The command-line configuration held by [GenerateUnionEPUBBatch]. *)
Record config := {
  best_labels : list str;
  vetted_labels : list str;
  preferable_labels : list str;
  trustable_labels : list str;
  supplement_labels : list str;
  min_prob_normal : Q;
  min_prob_capital : Q;
  min_prob_multi : Q;
  sufficient_prob : Q;
  shrink : bool
}.

Definition ARTICLES : list str := map u ["a"; "the"; "an"]%string.

Definition PARTICLES : list str := map u [
  "aback"; "about"; "above"; "abroad"; "across"; "after"; "against"; "ahead"; "along";
  "amid"; "among"; "apart"; "around"; "as"; "at"; "away"; "back"; "before"; "behind";
  "below"; "beneath"; "between"; "beside"; "beyond"; "by"; "despite"; "during"; "down";
  "except"; "for"; "forth"; "from"; "in"; "inside"; "into"; "near"; "of"; "off"; "on";
  "onto"; "out"; "outside"; "over"; "per"; "re"; "since"; "than"; "through"; "throughout";
  "till"; "to"; "together"; "toward"; "under"; "until"; "up"; "upon"; "with"; "within";
  "without"; "via"]%string.

(** Comparison of floats read from decimal strings. *)
Definition Qltb (a b : Q) : bool := negb (Qle_bool b a).
Definition Qleb (a b : Q) : bool := Qle_bool a b.

(** [float(entry.get("probability") or "0")] *)
Definition prob_of (e : entry) : Q :=
  match e_probability e with Some p => p | None => 0 end.

(** [text.startswith("[translation]:")] *)
Definition is_translation (text : str) : bool :=
  startswith (u "[translation]:") text.

(** [entry.get(name)] is true and equal to [word]. *)
Definition infl_is (e : entry) (n : infl_name) (word : str) : bool :=
  match e_infl e n with
  | Some value => nonempty value && str_eqb value word
  | None => false
  end.

(** The value returned by a Python function that ends in [return True],
    [return False] or a bare [return]. *)
Inductive pybool := PyTrue | PyFalse | PyNone.

(** Truth of a returned value, as in [if not self.IsGoodEntry(...)]. *)
Definition truthy (r : pybool) : bool :=
  match r with PyTrue => true | _ => false end.

(** ** Admission: [IsGoodEntry] *)

Section Admission.
Context {U : Unicode}.
Variable cfg : config.

(** The labels of the items that are no translation markers, and the
    parts of speech of all items. *)
Definition entry_poses (e : entry) : list str := map i_pos (e_item e).

Definition entry_labels (e : entry) : list str :=
  map i_label (List.filter (fun it => negb (is_translation (i_text it))) (e_item e)).

(** Lines 383-392: the phrasal-verb rule. *)
Definition phrasal_verb (word : str) (poses : list str) (keywords : list str) : bool :=
  if inb (u "verb") poses && fullmatch_az_space word then
    match split_on 32%N word with
    | head :: token :: tokens =>
        inb head keywords &&
        forallb (fun token => inb token PARTICLES) (token :: tokens)
    | _ => false
    end
  else false.

(** Lines 406-415: the entries of one parent; [true] when the loop
    reaches [return True]. *)
Definition parent_admits (word : str) (parent_entries : list entry) : bool :=
  existsb
    (fun pe =>
       negb (Qltb (prob_of pe) (5 # 100000)) &&
       negb (existsb (fun n => infl_is pe n word) (concat INFLECTIONS)))
    parent_entries.

(** Lines 401-415: the loop over the parents.  [Some r] when the loop
    returns [r], [None] when it runs to its end. *)
Fixpoint parents_rule (input_dbm : dbm) (word : str) (parents : list str)
  : option pybool :=
  match parents with
  | [] => None
  | parent :: rest =>
      match input_dbm !! parent with
      | None => Some PyNone
      | Some parent_entries =>
          if parent_admits word parent_entries then Some PyTrue
          else parents_rule input_dbm word rest
      end
  end.

(** Lines 416-422: the closing rules. *)
Definition final_rules (word : str) (labels : list str) : pybool :=
  if search_head_symbol word && negb (inb (u "we") labels) then PyFalse
  else if has_char 32%N word then PyFalse
  else if length (remove_dups labels) =? 1 then PyFalse
  else PyTrue.

(** Lines 359-382: the rules that look at the word, the keyword list,
    the labels and the probability.  [None] when none of them returns. *)
Definition first_rules (e : entry) (keywords : list str) : option pybool :=
  let word := e_word e in
  if search_outside_latin word then Some PyFalse
  else if fullmatch_ordinal word then Some PyFalse
  else
    let prob := prob_of e in
    let labels := entry_labels e in
    if inb word keywords then Some PyTrue
    else if existsb (fun label => inb label (trustable_labels cfg)) labels then Some PyTrue
    else if search_AZ word && Qltb prob (min_prob_capital cfg) then Some PyFalse
    else if has_char 32%N word && Qltb prob (min_prob_multi cfg) then Some PyFalse
    else if Qltb prob (min_prob_normal cfg) then Some PyFalse
    else if Qleb (sufficient_prob cfg) prob then Some PyTrue
    else None.

(** Lines 393-398: the rule on translated entries. *)
Definition translated_rule (e : entry) : bool :=
  let poses := entry_poses e in
  nonempty (e_translation e) &&
  ((inb (u "verb") poses || inb (u "adjective") poses || inb (u "adverb") poses) ||
   (fullmatch_az (e_word e) && inb (u "we") (entry_labels e))).

(** [IsGoodEntry] (lines 357-422) *)
Definition IsGoodEntry (e : entry) (input_dbm : dbm) (keywords : list str) : pybool :=
  match first_rules e keywords with
  | Some r => r
  | None =>
      if phrasal_verb (e_word e) (entry_poses e) keywords then PyTrue
      else if translated_rule e then PyTrue
      else
        match parents_rule input_dbm (e_word e) (e_parent e) with
        | Some r => r
        | None => final_rules (e_word e) (entry_labels e)
        end
  end.

(** [ListUpWords], lines 348-349: the entries of one record that pass. *)
Definition admitted (input_dbm : dbm) (keywords : list str) (entries : list entry)
  : list entry :=
  List.filter (fun e => truthy (IsGoodEntry e input_dbm keywords)) entries.

End Admission.

(** ** The run-time environment of the main pass *)

(** [tkrzw_tokenizer.Tokenizer.Tokenize], [tkrzw_dict.ComputeNGramPresision]
    and [tkrzw_dict.NormalizeWord] are called, not defined, by the
    script.  [set_iter l] is the order in which Python iterates over the
    set obtained by adding the elements of [l] one after the other: the
    elements of the set, each once, in an order the language leaves to
    the interpreter (it follows the string hashes of the process). *)
Class Runtime := {
  Tokenize : str -> str -> bool -> bool -> list str;
  ComputeNGramPresision : list str -> list (list str) -> nat -> Q;
  NormalizeWord : str -> str;
  set_iter : list str -> list str;
  set_iter_perm : forall l, Permutation (set_iter l) (remove_dups l)
}.

(** Exceptions that end the run. *)
Inductive exn := IndexError | KeyError.

Inductive outcome (A : Type) :=
| Ok (a : A)
| Raise (x : exn).
Arguments Ok {A} a.
Arguments Raise {A} x.

Definition bind {A B} (m : outcome A) (f : A -> outcome B) : outcome B :=
  match m with
  | Ok a => f a
  | Raise x => Raise x
  end.

Notation "'let!' x ':=' m 'in' k" := (bind m (fun x => k))
  (at level 10, x name, m at level 200, k at level 200).

(** The counters of [GenerateUnionEPUBBatch]. *)
Record counters := {
  num_words : nat;
  num_trans : nat;
  num_items : nat;
  num_aux_items : nat;
  label_counters : gmap (option str) nat
}.

Definition count_label (best_label : option str) (st : counters) : counters :=
  {| num_words := num_words st;
     num_trans := num_trans st;
     num_items := num_items st;
     num_aux_items := num_aux_items st;
     label_counters :=
       <[best_label := S (default 0 (label_counters st !! best_label))]>
         (label_counters st) |}.

(** ** Inflection pre-pass of [MakeMain] (lines 425-445) *)

Section Inflections.
Context {U : Unicode}.

(** The pieces of a comma-separated value that are not blank. *)
Definition infl_values (value : str) : list str :=
  List.filter nonempty (map strip (split_on 44%N value)).

(** Lines 437-442, for one attribute value of one entry. *)
Definition record_infl (prob : Q) (word : str)
    (infl_probs : gmap str (Q * str)) (infl : str) : gmap str (Q * str) :=
  match infl_probs !! infl with
  | None => <[infl := (prob, word)]> infl_probs
  | Some old_rec =>
      if Qltb (fst old_rec) prob then <[infl := (prob, word)]> infl_probs
      else infl_probs
  end.

(** The inflection strings of an entry, in the order the loops of lines
    433-439 meet them. *)
Definition entry_infls (e : entry) : list str :=
  flat_map
    (fun name =>
       match e_infl e name with
       | Some value => infl_values value
       | None => []
       end)
    (concat INFLECTIONS).

(** Lines 431-442, for one entry; [float(entry["probability"])] raises
    when the field is missing. *)
Definition record_entry (infl_probs : gmap str (Q * str)) (e : entry)
  : outcome (gmap str (Q * str)) :=
  match e_probability e with
  | None => Raise KeyError
  | Some prob => Ok (fold_left (record_infl prob (e_word e)) (entry_infls e) infl_probs)
  end.

Fixpoint record_entries (infl_probs : gmap str (Q * str)) (entries : list entry)
  : outcome (gmap str (Q * str)) :=
  match entries with
  | [] => Ok infl_probs
  | e :: rest =>
      let! infl_probs' := record_entry infl_probs e in
      record_entries infl_probs' rest
  end.

(** The entries the passes of [MakeMain] read: those stored under the
    keys of the index, in key order ([if not serialized: continue]). *)
Definition stored (input_dbm : dbm) (key : str) : list entry :=
  default [] (input_dbm !! key).

Definition prepass_entries (input_dbm : dbm) (keys : list str) : list entry :=
  flat_map (stored input_dbm) keys.

(** Lines 425-445: the map from an inflection to its word. *)
Definition make_inflections (input_dbm : dbm) (keys : list str)
  : outcome (gmap str str) :=
  let! infl_probs := record_entries ∅ (prepass_entries input_dbm keys) in
  Ok (snd <$> infl_probs).

End Inflections.

(** ** The main entry: [MakeMainEntry] *)

Definition infl_pos (n : infl_name) : str :=
  match n with
  | noun_plural => u "noun"
  | verb_singular | verb_present_participle | verb_past | verb_past_participle => u "verb"
  | adjective_comparative | adjective_superlative => u "adjective"
  | adverb_comparative | adverb_superlative => u "adverb"
  end.

(** The kind shown for an attribute (lines 497-502). *)
Definition infl_kind (n : infl_name) : str :=
  match n with
  | noun_plural => u "plural"
  | verb_singular => u "present 3ps"
  | verb_present_participle => u "present participle"
  | verb_past => u "past"
  | verb_past_participle => u "past participle"
  | adjective_comparative | adverb_comparative => u "comparative"
  | adjective_superlative | adverb_superlative => u "superlative"
  end.

(** The label of an attribute in [INFLECTIONS]. *)
Definition infl_label (n : infl_name) : str :=
  match n with
  | noun_plural => [35079; 25968]
  | verb_singular => [19977; 21336]
  | verb_present_participle => [29694; 20998]
  | verb_past => [36942; 21435]
  | verb_past_participle => [36942; 20998]
  | adjective_comparative => [24418; 27604]
  | adjective_superlative => [24418; 26368]
  | adverb_comparative => [21103; 27604]
  | adverb_superlative => [21103; 26368]
  end%N.

(** [groups[key].append(v)] on a [collections.defaultdict(list)], whose
    keys keep the order of their first use. *)
Fixpoint group_add {V} (key : str) (v : V) (groups : list (str * list V))
  : list (str * list V) :=
  match groups with
  | [] => [(key, [v])]
  | (k, vs) :: rest =>
      if str_eqb k key then (k, vs ++ [v]) :: rest
      else (k, vs) :: group_add key v rest
  end.

(** What the renderer receives for one entry, in the order of the
    [P(...)] calls of lines 570-624. *)
Record rendered := {
  r_word : str;
  r_infl : list (str * list (str * str));
  r_alternatives : list str;
  r_pronunciation : option str;
  r_translations : list str;
  r_items : list item;
  r_phrases : list (str * str);
  r_parents : list (str * str);
  r_infl_lines : list (list (str * str))
}.

(** An item object of [entry["item"]]: its position in the list stands
    for its identity, so that a list may hold the same object twice. *)
Definition obj := (nat * item)%type.

Section MainEntry.
Context {U : Unicode} {RT : Runtime}.
Variable cfg : config.

(** Line 483 *)
Definition is_major_word (e : entry) : bool :=
  Qleb (1 # 100000) (prob_of e) && negb (search_AZ (e_word e)).

(** Lines 484-492 *)
Definition shown_poses (e : entry) : list str :=
  let head := firstn 10 (e_item e) in
  let in_sub := fun it => inb (i_label it) (supplement_labels cfg) in
  let poses := map i_pos (List.filter (fun it => negb (in_sub it)) head) in
  let sub_poses := map i_pos (List.filter in_sub head) in
  if nonempty poses then poses else sub_poses.

(** Lines 497-505: one attribute of [INFLECTIONS]. *)
Definition add_infl_group (e : entry) (groups : list (str * list (str * str * str)))
    (name : infl_name) : list (str * list (str * str * str)) :=
  if negb (inb (infl_pos name) (shown_poses e)) then groups
  else match e_infl e name with
       | Some value =>
           if nonempty value
           then group_add (infl_pos name) (infl_kind name, value, infl_label name) groups
           else groups
       | None => groups
       end.

(** Lines 493-505 *)
Definition infl_groups (e : entry) : list (str * list (str * str * str)) :=
  if search_two_AZ (e_word e) then []
  else fold_left (add_infl_group e) (concat INFLECTIONS) [].

(** Lines 506-512: the labels added to [main_labels], in the order of
    the items, and [label_items[label]]. *)
Definition main_labels_seq (e : entry) : list str :=
  List.filter (fun label => inb label (preferable_labels cfg)) (map i_label (e_item e)).

Definition label_items (e : entry) (label : str) : list item :=
  List.filter (fun it => str_eqb (i_label it) label) (e_item e).

(** Lines 530-531 *)
Definition count_words (text : str) : nat :=
  count_char 32%N (strip (sub_nontoken (u " ") text)) + 1.

(** Lines 522-532: one pass over the items of a label. *)
Fixpoint scan_label_items (penalise : bool) (its : list item)
    (num_items : nat) (length_cost : R) : nat * R :=
  match its with
  | [] => (num_items, length_cost)
  | it :: rest =>
      let text := i_text it in
      let length_cost :=
        if penalise && negb (CheckSafeText text) then (length_cost + 10)%R
        else length_cost in
      if is_translation text then scan_label_items penalise rest num_items length_cost
      else
        let text := clean_text text in
        if negb (nonempty text) then scan_label_items penalise rest num_items length_cost
        else
          let num_words := count_words text in
          scan_label_items penalise rest (S num_items)
            (length_cost + Rabs (ln 9 - ln (INR num_words)))%R
  end.

(** Line 514 *)
Definition is_stop (word : str) : bool := inb word ARTICLES || inb word PARTICLES.

Definition label_is_best (label : str) : bool := inb label (best_labels cfg).

Definition label_is_vetted (word label : str) : bool :=
  negb (is_stop word) && inb label (vetted_labels cfg).

(** Lines 536-541 *)
Definition quality_cost (is_best is_vetted : bool) : R :=
  if is_best then 0.8%R else if is_vetted then 1.0%R else 1.25%R.

(** Lines 518-542: the cost of a label; [None] stands for [continue]. *)
Definition label_cost (e : entry) (label : str) : option R :=
  let is_best := label_is_best label in
  let is_vetted := label_is_vetted (e_word e) label in
  let '(num_items, length_cost) :=
    scan_label_items (negb is_best && negb is_vetted) (label_items e label) 0 0%R in
  if num_items =? 0 then None
  else
    let item_cost := Rabs (ln 5 - ln (INR num_items)) in
    let length_cost := (length_cost / INR num_items)%R in
    Some ((item_cost + 0.5) * (length_cost + 1.0) * quality_cost is_best is_vetted)%R.

(** Line 543: [not min_cost or cost < min_cost] *)
Definition improves (cost : R) (min_cost : option R) : bool :=
  match min_cost with
  | None => true
  | Some m =>
      if Req_dec_T m 0%R then true
      else if Rlt_dec cost m then true else false
  end.

(** Lines 517-545: the loop over the main labels. *)
Fixpoint rank_labels (e : entry) (labels : list str)
    (best_label : option str) (min_cost : option R) : option str :=
  match labels with
  | [] => best_label
  | label :: rest =>
      match label_cost e label with
      | None => rank_labels e rest best_label min_cost
      | Some cost =>
          if improves cost min_cost
          then rank_labels e rest (Some label) (Some cost)
          else rank_labels e rest best_label min_cost
      end
  end.

(** Lines 513-549: the chosen label. *)
Definition choose_best_label (e : entry) : outcome (option str) :=
  let main_labels := main_labels_seq e in
  let n := length (remove_dups main_labels) in
  if 2 <=? n then Ok (rank_labels e (set_iter main_labels) None None)
  else if 1 <=? n then
    match set_iter main_labels with
    | label :: _ => Ok (Some label)
    | [] => Raise IndexError
    end
  else
    match e_item e with
    | it :: _ => Ok (Some (i_label it))
    | [] => Raise IndexError
    end.

End MainEntry.

(** ** Item selection and merging *)

Section Merge.
Context {U : Unicode} {RT : Runtime}.
Variable cfg : config.

(** [TokenizeForDupCheck] (lines 731-737) *)
Definition TokenizeForDupCheck (text : str) : list str :=
  List.filter
    (fun token => nonempty token && negb (inb token ARTICLES))
    (map (fun token => strip (sub_nontoken [] token))
         (Tokenize (u "en") text true true)).

(** Lines 756-760 and 768-771: the tokens compared for duplication. *)
Definition dup_tokens (text : str) : list str :=
  let text := clean_text text in
  let text := strip (sub_bracket 40%N 41%N text) in
  let text := strip (sub_bracket 91%N 93%N text) in
  TokenizeForDupCheck text.

(** Lines 740-747: the bands (min, mid, max). *)
Definition min_shown_items : nat := if shrink cfg then 3 else 5.
Definition mid_shown_items : nat := if shrink cfg then 5 else 6.
Definition max_shown_items : nat := if shrink cfg then 8 else 10.
Definition max_dup_score : Q := 3 # 10.

(** Lines 750-752 *)
Fixpoint merge_primary (items : list obj) (merged_items : list obj) : list obj :=
  match items with
  | [] => merged_items
  | item :: rest =>
      if max_shown_items <=? length merged_items then merged_items
      else merge_primary rest (merged_items ++ [item])
  end.

(** Lines 754-762 *)
Definition make_references (merged_items : list obj) : list (list str) :=
  List.filter nonempty (map (fun item => dup_tokens (i_text (snd item))) merged_items).

(** Lines 765-774: [true] when the item is passed over ([continue]). *)
Definition skip_sub_item (references : list (list str)) (item : obj) : bool :=
  let text := i_text (snd item) in
  if negb (CheckSafeText text) then true
  else if nonempty references then
    let candidate := dup_tokens text in
    if negb (nonempty candidate) then true
    else Qleb max_dup_score (ComputeNGramPresision candidate references 3)
  else false.

(** Lines 763-776: the appended items; [marked] collects the objects on
    which [item["is_aux"] = True] was executed. *)
Fixpoint merge_sub (references : list (list str)) (sub_items : list obj)
    (merged_items : list obj) (marked : list nat) : list obj * list nat :=
  match sub_items with
  | [] => (merged_items, marked)
  | item :: rest =>
      if mid_shown_items <=? length merged_items then (merged_items, marked)
      else if skip_sub_item references item
      then merge_sub references rest merged_items marked
      else merge_sub references rest (merged_items ++ [item]) (fst item :: marked)
  end.

(** The merged objects and the marked ones. *)
Definition merge_objects (items sub_items : list obj) : list obj * list nat :=
  let merged_items := merge_primary items [] in
  if (length merged_items <? min_shown_items) && nonempty sub_items then
    merge_sub (make_references merged_items) sub_items merged_items []
  else (merged_items, []).

(** The fields of an object as the renderer reads them, after every
    mark has been set. *)
Definition read_item (marked : list nat) (o : obj) : item :=
  {| i_pos := i_pos (snd o);
     i_label := i_label (snd o);
     i_text := i_text (snd o);
     i_is_aux := i_is_aux (snd o) || bool_decide (fst o ∈ marked) |}.

(** [MergeShownItems] (lines 739-777) *)
Definition MergeShownItems (items sub_items : list obj) : list item :=
  let '(merged_items, marked) := merge_objects items sub_items in
  map (read_item marked) merged_items.

(** Lines 551-562: the three lists of items of an entry. *)
Definition objects (e : entry) : list obj := imap (fun i it => (i, it)) (e_item e).

Definition tran_items (e : entry) : list obj :=
  List.filter (fun item => is_translation (i_text (snd item))) (objects e).

Definition primary_items (e : entry) (best_label : option str) : list obj :=
  List.filter
    (fun item =>
       negb (is_translation (i_text (snd item))) &&
       bool_decide (Some (i_label (snd item)) = best_label))
    (objects e).

Definition sub_items (e : entry) (best_label : option str) : list obj :=
  List.filter
    (fun item =>
       negb (is_translation (i_text (snd item))) &&
       negb (bool_decide (Some (i_label (snd item)) = best_label)) &&
       (inb (i_label (snd item)) (main_labels_seq cfg e) &&
        is_major_word e &&
        negb (search_long_word (i_text (snd item)))))
    (objects e).

(** Lines 563-566: the list handed to [MergeShownItems]. *)
Definition chosen_items (e : entry) (best_label : option str) : list obj :=
  let items := primary_items e best_label in
  let items := if nonempty items then items else sub_items e best_label in
  let items := if nonempty items then items else tran_items e in
  items.

End Merge.

(** ** Attachments and the main pass *)

Section MainPass.
Context {U : Unicode} {RT : Runtime}.
Variable cfg : config.

(** [share and float(share) < min_share] *)
Definition share_below (e : entry) (min_share : Q) : bool :=
  match e_share e with
  | Some share => Qltb share min_share
  | None => false
  end.

(** Line 673 *)
Definition parent_min_share (word : str) : Q :=
  if search_AZ word then 5 # 10 else 25 # 100.

(** Lines 675-680: the text of a gloss. *)
Definition gloss_text (e : entry) : outcome str :=
  if nonempty (e_translation e)
  then Ok (join (u ", ") (firstn 4 (e_translation e)))
  else match e_item e with
       | it :: _ => Ok (clean_text (i_text it))
       | [] => Raise IndexError
       end.

(** Lines 670-685: the loop over the entries of a parent. *)
Fixpoint parent_glosses (entries : list entry) : outcome (list (str * str)) :=
  match entries with
  | [] => Ok []
  | e :: rest =>
      if share_below e (parent_min_share (e_word e)) then Ok []
      else
        let! text := gloss_text e in
        let! glosses := parent_glosses rest in
        Ok (if nonempty text then (e_word e, text) :: glosses else glosses)
  end.

(** [MakeMainEntryParentItem] (lines 666-685) *)
Definition MakeMainEntryParentItem (parent : str) (input_dbm : dbm)
  : outcome (list (str * str)) :=
  match input_dbm !! parent with
  | None => Ok []
  | Some entries => parent_glosses entries
  end.

(** Lines 614-617 *)
Fixpoint all_parent_glosses (input_dbm : dbm) (parents : list str)
  : outcome (list (str * str)) :=
  match parents with
  | [] => Ok []
  | parent :: rest =>
      let! glosses := MakeMainEntryParentItem parent input_dbm in
      let! more := all_parent_glosses input_dbm rest in
      Ok (glosses ++ more)
  end.

(** Lines 576-581: the inflections of one group that are attached. *)
Definition attached_values (inflections : gmap str str) (word : str)
    (values : list (str * str * str)) : list (str * str) :=
  flat_map
    (fun v =>
       let '(kind, value, _) := v in
       map (fun infl => (kind, infl))
           (List.filter (fun infl => bool_decide (inflections !! infl = Some word))
                        (infl_values value)))
    values.

(** Lines 574-586 *)
Definition attached_infl (inflections : gmap str str) (e : entry)
  : list (str * list (str * str)) :=
  List.filter
    (fun g => nonempty (snd g))
    (map (fun g => (fst g, attached_values inflections (e_word e) (snd g)))
         (infl_groups cfg e)).

(** Lines 587-594 *)
Definition alt_words (e : entry) (keys : list str) (inflections : gmap str str)
  : list str :=
  List.filter
    (fun alternative =>
       let alt_norm := NormalizeWord alternative in
       negb (negb (nonempty alt_norm) || inb alt_norm keys ||
             bool_decide (is_Some (inflections !! alt_norm))))
    (e_alternative e).

(** [MakeMainEntryPhraseItem] (lines 659-664) *)
Definition shown_phrases (e : entry) : list (str * str) :=
  map (fun p => (ph_w p, join (u ", ") (ph_x p)))
      (List.filter (fun p => bool_decide (ph_i p = Some (u "1"))) (e_phrase e)).

(** Lines 618-622 *)
Definition infl_lines (e : entry) : list (list (str * str)) :=
  map (fun g => map (fun v => let '(_, value, label) := v in (label, value)) (snd g))
      (infl_groups cfg e).

Definition count_rendered (r : rendered) (st : counters) : counters :=
  {| num_words := S (num_words st);
     num_trans := if nonempty (r_translations r) then S (num_trans st) else num_trans st;
     num_items := num_items st + length (r_items r);
     num_aux_items := num_aux_items st + length (List.filter i_is_aux (r_items r));
     label_counters := label_counters st |}.

(** [MakeMainEntry] (lines 471-624): [None] when the entry is left out
    by [if not items: return]. *)
Definition MakeMainEntry (st : counters) (e : entry) (input_dbm : dbm)
    (keys : list str) (inflections : gmap str str)
  : outcome (option rendered * counters) :=
  let! best_label := choose_best_label cfg e in
  let st := count_label best_label st in
  let items := chosen_items cfg e best_label in
  if negb (nonempty items) then Ok (None, st)
  else
    let items := MergeShownItems cfg items (sub_items cfg e best_label) in
    let! glosses := all_parent_glosses input_dbm (e_parent e) in
    let r :=
      {| r_word := e_word e;
         r_infl := attached_infl inflections e;
         r_alternatives := alt_words e keys inflections;
         r_pronunciation := e_pronunciation e;
         r_translations := firstn 6 (e_translation e);
         r_items := items;
         r_phrases := shown_phrases e;
         r_parents := glosses;
         r_infl_lines := infl_lines e |} in
    Ok (Some r, count_rendered r st).

(** Line 464 *)
Definition main_min_share (word : str) : Q :=
  if search_AZ word then 3 # 10 else 2 # 10.

(** Lines 461-466: the entries of one key handed to [MakeMainEntry]. *)
Fixpoint shown_entries (entries : list entry) : list entry :=
  match entries with
  | [] => []
  | e :: rest =>
      if share_below e (main_min_share (e_word e)) then []
      else e :: shown_entries rest
  end.

Fixpoint make_entries (st : counters) (entries : list entry) (input_dbm : dbm)
    (keys : list str) (inflections : gmap str str)
  : outcome (list rendered * counters) :=
  match entries with
  | [] => Ok ([], st)
  | e :: rest =>
      let! r := MakeMainEntry st e input_dbm keys inflections in
      let! rs := make_entries (snd r) rest input_dbm keys inflections in
      Ok (match fst r with Some x => x :: fst rs | None => fst rs end, snd rs)
  end.

(** [GetKeyPrefix] (lines 251-255) *)
Definition GetKeyPrefix (key : str) : outcome str :=
  match key with
  | c :: _ => Ok (if is_az c then [c] else u "_")
  | [] => Raise IndexError
  end.

(** Lines 447-466: what is written for the keys, in order; every key
    gives its file prefix and its rendered entries. *)
Fixpoint make_keys (st : counters) (todo : list str) (input_dbm : dbm)
    (keys : list str) (inflections : gmap str str)
  : outcome (list (str * list rendered) * counters) :=
  match todo with
  | [] => Ok ([], st)
  | key :: rest =>
      let! key_prefix := GetKeyPrefix key in
      let! rs := make_entries st (shown_entries (stored input_dbm key))
                   input_dbm keys inflections in
      let! more := make_keys (snd rs) rest input_dbm keys inflections in
      Ok ((key_prefix, fst rs) :: fst more, snd more)
  end.

(** [MakeMain] (lines 424-469) *)
Definition MakeMain (st : counters) (input_dbm : dbm) (keys : list str)
  : outcome (list (str * list rendered) * counters) :=
  let! inflections := make_inflections input_dbm keys in
  make_keys st keys input_dbm keys inflections.

End MainPass.

(** ** An environment for worked examples

    The character tables below are the Unicode properties of the ASCII
    characters; every other character is given no property, so they are
    to be used on ASCII texts only. *)

Definition in_codes (codes : list N) (c : char) : bool := existsb (N.eqb c) codes.

Definition ascii_tables : Unicode :=
  {| uni_Latin := fun c => between 65 90 c || between 97 122 c;
     uni_Lu := between 65 90;
     uni_P := in_codes [33; 34; 35; 37; 38; 39; 40; 41; 42; 44; 45; 46; 47; 58;
                        59; 63; 64; 91; 92; 93; 95; 123; 125]%N;
     uni_S := in_codes [36; 43; 60; 61; 62; 94; 96; 124; 126]%N;
     uni_digit := between 48 57;
     uni_word := fun c => between 65 90 c || between 97 122 c || between 48 57 c
                          || (c =? 95)%N;
     uni_Han := fun _ => false;
     uni_Hiragana := fun _ => false;
     uni_Katakana := fun _ => false;
     uni_space := fun c => between 9 13 c || between 28 32 c |}.

Definition ascii_lower (c : char) : char :=
  if between 65 90 c then (c + 32)%N else c.

(** A tokenizer for the examples: lower-case words between spaces. *)
Definition words_tokenizer (lang text : str) (normalize drop_punct : bool) : list str :=
  List.filter nonempty (split_on 32%N (map ascii_lower text)).

Fixpoint ngrams (n : nat) (tokens : list str) : list (list str) :=
  match tokens with
  | [] => []
  | _ :: rest =>
      if n <=? length tokens then firstn n tokens :: ngrams n rest else []
  end.

(** Modelled from the spec: [tkrzw_dict.ComputeNGramPresision] is not part
    of the script; the glossary describes it as the fraction of a
    candidate's token n-grams found in a reference token n-gram set, with
    n degrading to shorter n for short candidates. *)
Definition ngram_precision (candidate : list str) (references : list (list str))
    (n : nat) : Q :=
  let n := Nat.min n (length candidate) in
  let grams := ngrams n candidate in
  let known := flat_map (ngrams n) references in
  match grams with
  | [] => 0
  | _ =>
      Z.of_nat (length (List.filter (fun g => bool_decide (g ∈ known)) grams))
      # Pos.of_nat (length grams)
  end.

(** Two interpreters that differ only in the order in which they iterate
    over a set of strings. *)
Definition first_seen_runtime : Runtime :=
  {| Tokenize := words_tokenizer;
     ComputeNGramPresision := ngram_precision;
     NormalizeWord := map ascii_lower;
     set_iter := remove_dups;
     set_iter_perm := fun l => Permutation_refl (remove_dups l) |}.


(** The default configuration of [main] (lines 785-797). *)
Definition default_config (shrink : bool) : config :=
  {| best_labels := [u "xa"];
     vetted_labels := [u "wn"];
     preferable_labels := map u ["xa"; "wn"; "ox"; "we"]%string;
     trustable_labels := [u "xa"];
     supplement_labels := [u "xs"];
     min_prob_normal := 1 # 10000000;
     min_prob_capital := 1 # 1000000;
     min_prob_multi := 1 # 1000000;
     sufficient_prob := 1 # 100000;
     shrink := shrink |}.

Definition mk_item (pos label text : string) : item :=
  {| i_pos := u pos; i_label := u label; i_text := u text; i_is_aux := false |}.

Definition no_infl : infl_name -> option str := fun _ => None.

Definition mk_entry (word : string) (probability : Q) (items : list item) : entry :=
  {| e_word := u word;
     e_probability := Some probability;
     e_share := None;
     e_pronunciation := None;
     e_translation := [];
     e_item := items;
     e_alternative := [];
     e_parent := [];
     e_phrase := [];
     e_infl := no_infl |}.

Definition no_counters : counters :=
  {| num_words := 0; num_trans := 0; num_items := 0; num_aux_items := 0;
     label_counters := ∅ |}.

(** Entries used in the examples of the admission rules. *)
Definition look_up_noun : entry :=
  mk_entry "look up" (5 # 1000000) [mk_item "noun" "ox" "an act of searching"].

Definition look_up_verb : entry :=
  mk_entry "look up" (5 # 1000000) [mk_item "verb" "ox" "to search for"].

Definition orphan_entry : entry :=
  {| e_word := u "runs";
     e_probability := Some (5 # 1000000);
     e_share := None;
     e_pronunciation := None;
     e_translation := [];
     e_item := [mk_item "noun" "ox" "plural of run"; mk_item "noun" "we" "streams"];
     e_alternative := [];
     e_parent := [u "run"; u "runner"];
     e_phrase := [];
     e_infl := no_infl |}.


(** An entry carries a share value below the bound. *)
Definition low_share (bound : entry -> Q) (e : entry) : Prop :=
  exists share, e_share e = Some share /\ (share < bound e)%Q.




(** The updates of the inflection pre-pass, one per inflection string
    met, in the order of the loops. *)
Definition infl_records {U : Unicode} (entries : list entry) : list (str * (Q * str)) :=
  flat_map
    (fun e =>
       match e_probability e with
       | Some prob => map (fun infl => (infl, (prob, e_word e))) (entry_infls e)
       | None => []
       end)
    entries.

(** [infl_probs] holds, for every inflection string met so far, a
    recorded pair of highest probability. *)
Definition holds_maxima (records : list (str * (Q * str)))
    (infl_probs : gmap str (Q * str)) : Prop :=
  forall infl,
    match infl_probs !! infl with
    | Some pw =>
        In (infl, pw) records /\
        forall pw', In (infl, pw') records -> (fst pw' <= fst pw)%Q
    | None => forall pw', ~ In (infl, pw') records
    end.

(** Entries used in the example of the inflection map. *)
Definition run_entry : entry :=
  {| e_word := u "run";
     e_probability := Some (1 # 100);
     e_share := None;
     e_pronunciation := None;
     e_translation := [];
     e_item := [mk_item "verb" "wn" "move fast by using one's feet"];
     e_alternative := [];
     e_parent := [];
     e_phrase := [];
     e_infl := fun n => match n with
                        | verb_past => Some (u "ran")
                        | verb_singular => Some (u "runs")
                        | _ => None
                        end |}.

Definition ran2_entry : entry :=
  {| e_word := u "ran2";
     e_probability := Some (1 # 1000);
     e_share := None;
     e_pronunciation := None;
     e_translation := [];
     e_item := [mk_item "verb" "wn" "a second head word"];
     e_alternative := [];
     e_parent := [];
     e_phrase := [];
     e_infl := fun n => match n with
                        | verb_past_participle => Some (u "ran, ran2ed")
                        | _ => None
                        end |}.

Definition ran_store : dbm :=
  <[u "run" := [run_entry]]> (<[u "ran2" := [ran2_entry]]> ∅).

(** ** The cost of a label in closed form *)

Section StatedCost.
Context {U : Unicode}.

(** The items that count for a label: no translation marker and a
    cleaned text that is not empty. *)
Definition qualifying (its : list item) : list item :=
  List.filter
    (fun it => negb (is_translation (i_text it)) && nonempty (clean_text (i_text it)))
    its.

(** Their numbers of words. *)
Definition word_counts (its : list item) : list nat :=
  map (fun it => count_words (clean_text (i_text it))) (qualifying its).

(** The items whose text fails the safe-character check. *)
Definition unsafe_count (its : list item) : nat :=
  length (List.filter (fun it => negb (CheckSafeText (i_text it))) its).

Definition sum_word_costs (counts : list nat) : R :=
  fold_right (fun n acc => (Rabs (ln 9 - ln (INR n)) + acc)%R) 0%R counts.

(** [(itemCost + 0.5) * (lengthCost + 1) * qualityCost] for [n] counted
    items with the given word counts and [penalties] unsafe items. *)
Definition stated_cost (n : nat) (counts : list nat) (penalties : nat) (quality : R) : R :=
  ((Rabs (ln 5 - ln (INR n)) + 0.5) *
   ((sum_word_costs counts + 10 * INR penalties) / INR n + 1) *
   quality)%R.

(** The chosen label has a cost, and no label has a lower one. *)
Definition is_min_label (cost : str -> option R) (labels : list str)
    (best_label : option str) : Prop :=
  match best_label with
  | None => forall label, In label labels -> cost label = None
  | Some best =>
      In best labels /\
      exists m, cost best = Some m /\
        forall label c, In label labels -> cost label = Some c -> (m <= c)%R
  end.

End StatedCost.

(** Entries used in the examples of the label ranking. *)
Definition about_entry : entry :=
  mk_entry "about" (1 # 100)
    [mk_item "adverb" "wn" "nearly {approx}"; mk_item "adverb" "we" "around"].



Definition nine_words : string := "one two three four five six seven eight nine".
Definition twenty_words : string :=
  "a b c d e f g h i j k l m n o p q r s t".

Definition scenario_entry : entry :=
  mk_entry "sample" (1 # 100)
    [mk_item "noun" "xa" nine_words; mk_item "noun" "xa" nine_words;
     mk_item "noun" "xa" nine_words; mk_item "noun" "xa" nine_words;
     mk_item "noun" "xa" nine_words;
     mk_item "noun" "wn" twenty_words; mk_item "noun" "wn" twenty_words;
     mk_item "noun" "wn" twenty_words].

Definition dog_items : list obj := [(0, mk_item "noun" "wn" "a big brown dog")].

Definition dog_sub_items : list obj :=
  [(1, mk_item "noun" "we" "a big brown dog indeed");
   (2, mk_item "noun" "we" "small furry pet")].

(** ** Text shown for an item: [CutTextByWidth] and [SanitizeText] *)

(** The tables behind [\s], [\p{C}] and the scripts that
    [_regex_invalid_scripts] lets through. *)
Class UnicodeScripts := {
  uni_s : char -> bool;
  uni_C : char -> bool;
  uni_Common : char -> bool;
  uni_Cyrillic : char -> bool;
  uni_Greek : char -> bool;
  uni_Runic : char -> bool;
  uni_Hangul : char -> bool
}.

(** [2 if ord(c) > 256 else 1] *)
Definition char_width (c : char) : Z := if (256 <? c)%N then 2%Z else 1%Z.

Definition total_width (s : str) : Z :=
  fold_right (fun c acc => (char_width c + acc)%Z) 0%Z s.

(** The [while i >= word_head_min] loops of lines 223-228 and 232-236:
    from index [i] downwards, [n] indices, the first one whose
    character satisfies [p]. *)
Fixpoint scan_down (p : char -> bool) (result : str) (i n : nat) {struct n}
  : option nat :=
  match n with
  | 0 => None
  | S n' =>
      match nth_error result i with
      | Some c =>
          if p c then Some i
          else match i with
               | 0 => None
               | S i' => scan_down p result i' n'
               end
      | None => None
      end
  end.

Section ShownText.
Context {U : Unicode} {US : UnicodeScripts}.

(** [regex.search(r"[-_\p{Latin}]", c)] *)
Definition is_word_letter (c : char) : bool :=
  (c =? 45)%N || (c =? 95)%N || uni_Latin c.

(** Lines 220-237: the text is too wide; [result] holds what was read. *)
Definition cut_result (result : str) : str :=
  match length result with
  | 0 => result ++ u "..."
  | S i =>
      match scan_down (N.eqb 59) result i (S i - Nat.max (i - 40) 20) with
      | Some j => strip (firstn j result)
      | None =>
          match scan_down (fun c => negb (is_word_letter c)) result i
                  (S i - Nat.max (i - 20) 20) with
          | Some j => strip (firstn j result) ++ u "..."
          | None => result ++ u "..."
          end
      end
  end.

(** Lines 218-240: the loop over the characters. *)
Fixpoint cut_loop (text : str) (result : str) (width : Z) : str :=
  match text with
  | [] => result
  | c :: rest =>
      if (width <? 0)%Z then cut_result result
      else cut_loop rest (result ++ [c]) (width - char_width c)
  end.

(** [CutTextByWidth] (lines 216-241) *)
Definition CutTextByWidth (text : str) (width : Z) : str := cut_loop text [] width.

(** [regex.sub(_regex_invalid_scripts, "□", text)] *)
Definition is_valid_script (c : char) : bool :=
  uni_s c || uni_Common c || uni_Latin c || uni_Cyrillic c || uni_Greek c ||
  uni_Runic c || uni_Han c || uni_Hangul c || uni_Hiragana c || uni_Katakana c ||
  (c =? 12540)%N.

Definition sub_invalid_scripts (text : str) : str :=
  map (fun c => if is_valid_script c then c else 9633%N) text.

(** [regex.sub(_regex_nonbasic_scripts, "□", text)] *)
Definition sub_nonbasic (text : str) : str :=
  map (fun c => if (c <=? 65535)%N then c else 9633%N) text.

(** [regex.sub(_regex_space_scripts, " ", text)] *)
Definition is_space_script (c : char) : bool := uni_s c || uni_C c.

Fixpoint sub_spaces_from (in_run : bool) (s : str) : str :=
  match s with
  | [] => []
  | c :: r =>
      if is_space_script c then
        if in_run then sub_spaces_from true r else 32%N :: sub_spaces_from true r
      else c :: sub_spaces_from false r
  end.

Definition sub_spaces (text : str) : str := sub_spaces_from false text.

(** [SanitizeText] (lines 274-278) *)
Definition SanitizeText (text : str) : str :=
  strip (sub_spaces (sub_nonbasic (sub_invalid_scripts text))).

End ShownText.

(** ** The word list: [ListUpWords] *)

(** [max(a, b)] on floats: the first of the largest. *)
Definition py_max (a b : Q) : Q := if Qltb a b then b else a.

Section WordList.
Context {U : Unicode}.
Variable cfg : config.

(** Lines 336-340: the keyword file, line by line. *)
Definition load_keywords (lines : list str) : list str :=
  List.filter nonempty (map strip lines).

(** Lines 349-352, for one entry.  [words.get(word) or 0.0] is [0.0] for
    a word that is absent or recorded with [0.0]; the maximum with a
    recorded [0.0] is then the same as with the value itself. *)
Definition list_up_entry (input_dbm : dbm) (keywords : list str)
    (words : gmap str Q) (e : entry) : gmap str Q :=
  if negb (truthy (IsGoodEntry cfg e input_dbm keywords)) then words
  else <[e_word e := py_max (default 0%Q (words !! e_word e)) (prob_of e)]> words.

(** [ListUpWords] (lines 332-355): [records] are the records of the
    store in the order the iterator yields them. *)
Definition ListUpWords (input_dbm : dbm) (records : list (str * list entry))
    (keywords : list str) : gmap str Q :=
  fold_left
    (fun words rec => fold_left (list_up_entry input_dbm keywords) (snd rec) words)
    records ∅.

End WordList.

(** ** One shown item: [MakeMainEntryItem] *)

(** [POSES] *)
Definition POSES : list (str * str) :=
  [ (u "noun", [21517]); (u "verb", [21205]); (u "adjective", [24418]);
    (u "adverb", [21103]); (u "pronoun", [20195; 21517]);
    (u "auxverb", [21161; 21205]); (u "preposition", [21069; 32622]);
    (u "determiner", [38480; 23450]); (u "article", [20896]);
    (u "interjection", [38291; 25237]); (u "conjunction", [25509; 32154]);
    (u "prefix", [25509; 38957]); (u "suffix", [25509; 23614]);
    (u "abbreviation", [30465; 30053]); (u "misc", [20182]) ]%N.

(** [TEXT_ATTRS] *)
Definition TEXT_ATTRS : list (str * str) :=
  [ ([21487; 31639]%N, u "c"); ([19981; 21487; 31639]%N, u "u");
    ([33258; 21205; 35422]%N, u "vi"); ([20182; 21205; 35422]%N, u "vt");
    (u "countable", u "c"); (u "uncountable", u "u");
    (u "intransitive", u "vi"); (u "transitive", u "vt") ].

(** [table.get(key)] on a dictionary literal. *)
Fixpoint dict_get (table : list (str * str)) (key : str) : option str :=
  match table with
  | [] => None
  | (k, v) :: rest => if str_eqb k key then Some v else dict_get rest key
  end.

(** [regex.split(r"[ ,、]", s)] *)
Definition is_attr_sep (c : char) : bool :=
  (c =? 32)%N || (c =? 44)%N || (c =? 12289)%N.

Fixpoint split_attr (s : str) : list str :=
  match s with
  | [] => [[]]
  | x :: r =>
      if is_attr_sep x then [] :: split_attr r
      else match split_attr r with
           | p :: ps => (x :: p) :: ps
           | [] => [[x]]
           end
  end.

Fixpoint take_while (p : char -> bool) (s : str) : str :=
  match s with
  | c :: r => if p c then c :: take_while p r else []
  | [] => []
  end.

Fixpoint drop_while (p : char -> bool) (s : str) : str :=
  match s with
  | c :: r => if p c then drop_while p r else s
  | [] => []
  end.

(** [regex.search(r"^\[([a-z]+)\]: ", text)]: the group and what
    follows the match. *)
Definition match_attr_head (text : str) : option (str * str) :=
  match text with
  | 91%N :: r =>
      let name := take_while (between 97 122) r in
      let rest := drop_while (between 97 122) r in
      if nonempty name && startswith (u "]: ") rest
      then Some (name, skipn 3 rest)
      else None
  | _ => None
  end.

(** [regex.search(r"^ *[,、]*[\(（〔]([^\)）〕]+)[\)）〕]", text)]: the
    group and what follows the match. *)
Definition is_open_paren (c : char) : bool :=
  (c =? 40)%N || (c =? 65288)%N || (c =? 12308)%N.

Definition is_close_paren (c : char) : bool :=
  (c =? 41)%N || (c =? 65289)%N || (c =? 12309)%N.

Definition match_attr_paren (text : str) : option (str * str) :=
  let s := drop_while (N.eqb 32) text in
  let s := drop_while (fun c => (c =? 44)%N || (c =? 12289)%N) s in
  match s with
  | c :: r =>
      if is_open_paren c then
        let group := take_while (fun c => negb (is_close_paren c)) r in
        match drop_while (fun c => negb (is_close_paren c)) r with
        | _ :: rest => if nonempty group then Some (group, rest) else None
        | [] => None
        end
      else None
  | [] => None
  end.

(** Lines 639-641: the first name of the group that [TEXT_ATTRS] knows. *)
Fixpoint first_attr (names : list str) : option str :=
  match names with
  | [] => None
  | name :: rest =>
      match dict_get TEXT_ATTRS name with
      | Some attr_label => if nonempty attr_label then Some attr_label else first_attr rest
      | None => first_attr rest
      end
  end.

(** What [MakeMainEntryItem] prints for an item. *)
Record shown_item := {
  s_leader : str;
  s_pos : str;
  s_annots : list str;
  s_text : str
}.

Section ShownItem.
Context {U : Unicode} {US : UnicodeScripts}.

(** Lines 635-644: the loop that turns leading bracketed attributes into
    annotations; [fuel] bounds the number of turns. *)
Fixpoint attr_loop (fuel : nat) (text : str) : list str * str :=
  match fuel with
  | 0 => ([], text)
  | S fuel' =>
      match match_attr_paren text with
      | None => ([], text)
      | Some (group, rest) =>
          match first_attr (split_attr group) with
          | None => ([], text)
          | Some attr_label =>
              let '(annots, text') := attr_loop fuel' (strip rest) in
              (attr_label :: annots, text')
          end
      end
  end.

(** [MakeMainEntryItem] (lines 626-657) *)
Definition MakeMainEntryItem (it : item) : shown_item :=
  let text := SanitizeText (i_text it) in
  let '(annots, text) :=
    match match_attr_head text with
    | Some (name, rest) =>
        (if str_eqb name (u "translation") then [[35379; 35486]%N] else [], strip rest)
    | None => ([], text)
    end in
  let '(more, text) := attr_loop (length text) text in
  let text := clean_text text in
  let text := CutTextByWidth text 160 in
  {| s_leader := if i_is_aux it then u "+ " else [];
     s_pos := match dict_get POSES (i_pos it) with
              | Some label => if nonempty label then label else i_pos it
              | None => i_pos it
              end;
     s_annots := annots ++ more;
     s_text := text |}.

End ShownItem.

(** ** Quantities read off a run of the main pass *)

(** The number of adoptions the label counters record: the sum of the
    counts logged at line 327. *)
Definition label_total (label_counters : gmap (option str) nat) : nat :=
  map_fold (fun _ count total => count + total) 0 label_counters.

(** [st'] is [st] after [n] calls of [MakeMainEntry] that rendered the
    entries [rs]. *)
Definition counted (st st' : counters) (rs : list rendered) (n : nat) : Prop :=
  num_words st' = num_words st + length rs /\
  num_trans st' =
    num_trans st + length (List.filter (fun r => nonempty (r_translations r)) rs) /\
  num_items st' = num_items st + list_sum (map (fun r => length (r_items r)) rs) /\
  num_aux_items st' =
    num_aux_items st +
    list_sum (map (fun r => length (List.filter i_is_aux (r_items r))) rs) /\
  label_total (label_counters st') = label_total (label_counters st) + n.

(** The record of a parent in which the loop of lines 670-685 reaches,
    before any entry with a low share, an entry that has neither
    translations nor items. *)
Definition gloss_fails (entries : list entry) : Prop :=
  exists before pe after,
    entries = before ++ pe :: after /\
    (forall b, In b before -> share_below b (parent_min_share (e_word b)) = false) /\
    share_below pe (parent_min_share (e_word pe)) = false /\
    e_translation pe = [] /\ e_item pe = [].

(** ** The command line: [main] (lines 780-805)

    [tkrzw_dict.GetCommandFlag] is called, not defined, by the script:
    [GetCommandFlag name] stands for the value it returns for the flag
    [name] with one argument when that value is a non-empty string, and
    is [None] when it returns a false value; [GetCommandSwitch name]
    is the truth of what it returns for a flag without argument.
    [float] is the conversion of a string to a number. *)

Section Main.
Variable GetCommandFlag : str -> option str.
Variable GetCommandSwitch : str -> bool.
Variable float : str -> Q.




End Main.



(** * Properties *)

(** ** Admission *)

Section AdmissionFacts.
Context {U : Unicode}.
Variable cfg : config.

Lemma inb_In x l : inb x l = true <-> In x l.
Proof.
  unfold inb. rewrite existsb_exists. split.
  - intros (y & Hy & Heq). unfold str_eqb in Heq.
    apply bool_decide_eq_true in Heq. now subst.
  - intros H. exists x. split; [assumption|].
    unfold str_eqb. now apply bool_decide_eq_true.
Qed.

Lemma final_rules_decides word labels : final_rules word labels <> PyNone.
Proof.
  unfold final_rules.
  repeat match goal with |- context [if ?b then _ else _] => destruct b end;
    discriminate.
Qed.

Lemma parents_rule_missing (input_dbm : dbm) word before parent after :
  (forall q, In q before ->
     exists entries, input_dbm !! q = Some entries /\ parent_admits word entries = false) ->
  input_dbm !! parent = None ->
  parents_rule input_dbm word (before ++ parent :: after) = Some PyNone.
Proof.
  intros Hbefore Hmissing. induction before as [|q before IH]; simpl.
  - now rewrite Hmissing.
  - destruct (Hbefore q (or_introl eq_refl)) as (entries & Hq & Hno).
    rewrite Hq, Hno. apply IH. intros q' Hq'. apply Hbefore. now right.
Qed.

(** C5: an entry that reaches the parent rule (no earlier rule returns)
    and whose parent loop comes to a key the store has no record for
    (the parents before it have records and admit nothing) gets the bare
    [return]: [IsGoodEntry] yields [None], which [ListUpWords] takes as a
    rejection, whatever parent keys follow and whatever the closing
    rules would say (they only ever answer [True] or [False]). *)
Theorem C5_missing_parent_rejects (e : entry) (input_dbm : dbm) (keywords : list str)
    (before : list str) (parent : str) (after : list str) :
  first_rules cfg e keywords = None ->
  phrasal_verb (e_word e) (entry_poses e) keywords = false ->
  translated_rule e = false ->
  e_parent e = before ++ parent :: after ->
  (forall q, In q before ->
     exists entries,
       input_dbm !! q = Some entries /\ parent_admits (e_word e) entries = false) ->
  input_dbm !! parent = None ->
  IsGoodEntry cfg e input_dbm keywords = PyNone /\
  truthy (IsGoodEntry cfg e input_dbm keywords) = false /\
  admitted cfg input_dbm keywords [e] = [] /\
  final_rules (e_word e) (entry_labels e) <> PyNone.
Proof.
  intros Hfirst Hphrasal Htrans Hparents Hbefore Hmissing.
  assert (Hres : IsGoodEntry cfg e input_dbm keywords = PyNone).
  { unfold IsGoodEntry. rewrite Hfirst, Hphrasal, Htrans, Hparents.
    now rewrite (parents_rule_missing _ _ _ _ _ Hbefore Hmissing). }
  repeat split.
  - exact Hres.
  - now rewrite Hres.
  - unfold admitted. simpl. now rewrite Hres.
  - apply final_rules_decides.
Qed.

(** C6, with the condition the code adds: an entry that no rule before
    the phrasal-verb rule decides, that has an item whose part of speech
    is "verb", whose word is made of lower-case letters and spaces, has
    at least two space-separated tokens, its first token in the keyword
    list and every later token in [PARTICLES], is admitted. *)
Theorem C6_phrasal_verb_admitted (e : entry) (input_dbm : dbm) (keywords : list str)
    (head : str) (tail : list str) :
  first_rules cfg e keywords = None ->
  In (u "verb") (entry_poses e) ->
  fullmatch_az_space (e_word e) = true ->
  split_on 32%N (e_word e) = head :: tail ->
  tail <> [] ->
  In head keywords ->
  (forall token, In token tail -> In token PARTICLES) ->
  IsGoodEntry cfg e input_dbm keywords = PyTrue.
Proof.
  intros Hfirst Hverb Hlower Hsplit Htail Hhead Hparticles.
  unfold IsGoodEntry. rewrite Hfirst.
  assert (Hp : phrasal_verb (e_word e) (entry_poses e) keywords = true).
  { destruct tail as [|token tokens]; [congruence|].
    unfold phrasal_verb.
    rewrite (proj2 (inb_In _ _) Hverb), Hlower, Hsplit.
    rewrite (proj2 (inb_In _ _) Hhead). cbn [andb].
    apply forallb_forall. intros t Ht. apply inb_In. now apply Hparticles. }
  now rewrite Hp.
Qed.

End AdmissionFacts.

Lemma C5_missing_parent_rejects_witness :
  IsGoodEntry (U := ascii_tables) (default_config false) orphan_entry
    (<[u "run" := [mk_entry "run" (1 # 1000000) [mk_item "verb" "ox" "to move fast"]]]> ∅) [] = PyNone.
Proof.
  refine (proj1 (C5_missing_parent_rejects (U := ascii_tables) (default_config false)
            orphan_entry
            (<[u "run" := [mk_entry "run" (1 # 1000000) [mk_item "verb" "ox" "to move fast"]]]> ∅)
            [] [u "run"] (u "runner") [] _ _ _ _ _ _)).
  - vm_compute. reflexivity.
  - vm_compute. reflexivity.
  - vm_compute. reflexivity.
  - reflexivity.
  - intros q [<-|[]]. eexists. split; vm_compute; reflexivity.
  - vm_compute. reflexivity.
Defined.

Lemma C6_phrasal_verb_admitted_witness :
  IsGoodEntry (U := ascii_tables) (default_config false) look_up_verb ∅ [u "look"] = PyTrue.
Proof.
  apply (C6_phrasal_verb_admitted (U := ascii_tables) (default_config false)
           look_up_verb ∅ [u "look"] (u "look") [u "up"]).
  - vm_compute. reflexivity.
  - vm_compute. left. reflexivity.
  - vm_compute. reflexivity.
  - vm_compute. reflexivity.
  - discriminate.
  - left. reflexivity.
  - intros token [<-|[]]. apply inb_In. vm_compute. reflexivity.
Defined.

(** C6 as stated fails: "look up" with the keyword "look" and the
    particle "up" meets every condition of the claim, but its only item
    is a noun; the phrasal-verb rule does not apply and the word, which
    contains a space, is rejected by the closing rules. *)
Lemma C6_counterexample :
  first_rules (U := ascii_tables) (default_config false) look_up_noun [u "look"] = None /\
  fullmatch_az_space (e_word look_up_noun) = true /\
  split_on 32%N (e_word look_up_noun) = [u "look"; u "up"] /\
  In (u "look") [u "look"] /\
  (forall token, In token [u "up"] -> In token PARTICLES) /\
  IsGoodEntry (U := ascii_tables) (default_config false) look_up_noun ∅ [u "look"] = PyFalse.
Proof.
  repeat split; try (vm_compute; reflexivity).
  - left. reflexivity.
  - intros token [<-|[]]. apply inb_In. vm_compute. reflexivity.
Qed.

(** ** The loops of the main pass *)

Lemma Qltb_lt a b : Qltb a b = true <-> (a < b)%Q.
Proof.
  unfold Qltb. rewrite negb_true_iff. split.
  - intros H. apply Qnot_le_lt. intros Hle.
    apply Qle_bool_iff in Hle. congruence.
  - intros H. destruct (Qle_bool b a) eqn:E; [|reflexivity].
    apply Qle_bool_iff in E. exfalso. now apply (Qlt_not_le a b).
Qed.

Lemma Qltb_ge a b : Qltb a b = false <-> (b <= a)%Q.
Proof.
  unfold Qltb. rewrite negb_false_iff. apply Qle_bool_iff.
Qed.

Section MainPassFacts.
Context {U : Unicode} {RT : Runtime}.
Variable cfg : config.

Lemma share_below_true e bound :
  share_below e bound = true <-> exists share, e_share e = Some share /\ (share < bound)%Q.
Proof.
  unfold share_below. destruct (e_share e) as [share|].
  - rewrite Qltb_lt. split.
    + intros H. now exists share.
    + intros (s & Hs & Hlt). now inversion Hs; subst.
  - split; [discriminate|]. now intros (s & Hs & _).
Qed.

Lemma share_below_false e bound :
  share_below e bound = false <-> ~ exists share, e_share e = Some share /\ (share < bound)%Q.
Proof.
  rewrite <- share_below_true. destruct (share_below e bound); split; intros; congruence.
Qed.


Lemma shown_entries_all entries :
  (forall x, In x entries -> ~ low_share (fun x => main_min_share (e_word x)) x) ->
  shown_entries entries = entries.
Proof.
  induction entries as [|x entries IH]; simpl; intros H; [reflexivity|].
  rewrite (proj2 (share_below_false _ _) (H x (or_introl eq_refl))).
  f_equal. apply IH. intros y Hy. apply H. now right.
Qed.

Lemma MakeMainEntry_word st e input_dbm keys inflections r st' :
  MakeMainEntry cfg st e input_dbm keys inflections = Ok (Some r, st') ->
  r_word r = e_word e.
Proof.
  unfold MakeMainEntry, bind.
  destruct (choose_best_label cfg e) as [best_label|]; [|discriminate].
  destruct (negb (nonempty (chosen_items cfg e best_label))); [discriminate|].
  destruct (all_parent_glosses input_dbm (e_parent e)); [|discriminate].
  intros H. inversion H. reflexivity.
Qed.

Lemma make_entries_words st entries input_dbm keys inflections rs st' :
  make_entries cfg st entries input_dbm keys inflections = Ok (rs, st') ->
  sublist (map r_word rs) (map e_word entries).
Proof.
  revert st rs st'. induction entries as [|e entries IH]; simpl; intros st rs st'.
  - intros H. inversion H. constructor.
  - unfold bind.
    destruct (MakeMainEntry cfg st e input_dbm keys inflections) as [[o st1]|] eqn:E;
      [|discriminate].
    simpl.
    destruct (make_entries cfg st1 entries input_dbm keys inflections)
      as [[rs1 st2]|] eqn:E1; [|discriminate].
    intros H. inversion H; subst. simpl.
    specialize (IH _ _ _ E1).
    destruct o as [r|]; simpl.
    + rewrite (MakeMainEntry_word _ _ _ _ _ _ _ E). now constructor.
    + now constructor.
Qed.




End MainPassFacts.






(** ** The inflection map *)

Section InflectionFacts.
Context {U : Unicode}.

Lemma record_infl_maxima records infl_probs prob word infl :
  holds_maxima records infl_probs ->
  holds_maxima (records ++ [(infl, (prob, word))])
               (record_infl prob word infl_probs infl).
Proof.
  intros Hinv infl'. unfold record_infl.
  pose proof (Hinv infl) as Hcur. pose proof (Hinv infl') as Hother.
  destruct (decide (infl = infl')) as [<-|Hne].
  - destruct (infl_probs !! infl) as [old_rec|] eqn:Eold.
    + destruct Hcur as [Hin Hmax].
      destruct (Qltb (fst old_rec) prob) eqn:Elt.
      * rewrite lookup_insert_eq. split.
        -- apply in_or_app. right. now left.
        -- intros pw' Hpw'. apply in_app_or in Hpw' as [Hpw'|[Hpw'|[]]].
           ++ apply Qltb_lt in Elt. simpl.
              apply Qle_trans with (fst old_rec); [now apply Hmax|].
              now apply Qlt_le_weak.
           ++ inversion Hpw'; subst. simpl. apply Qle_refl.
      * rewrite Eold. split.
        -- apply in_or_app. now left.
        -- intros pw' Hpw'. apply in_app_or in Hpw' as [Hpw'|[Hpw'|[]]].
           ++ now apply Hmax.
           ++ inversion Hpw'; subst. simpl. now apply Qltb_ge.
    + rewrite lookup_insert_eq. split.
      * apply in_or_app. right. now left.
      * intros pw' Hpw'. apply in_app_or in Hpw' as [Hpw'|[Hpw'|[]]].
        -- exfalso. now apply (Hcur pw').
        -- inversion Hpw'; subst. simpl. apply Qle_refl.
  - assert (Hsame : (match infl_probs !! infl with
                     | Some old_rec =>
                         if Qltb (fst old_rec) prob
                         then <[infl := (prob, word)]> infl_probs
                         else infl_probs
                     | None => <[infl := (prob, word)]> infl_probs
                     end) !! infl' = infl_probs !! infl').
    { destruct (infl_probs !! infl) as [old_rec|];
        [destruct (Qltb (fst old_rec) prob)|]; try reflexivity;
        now apply lookup_insert_ne. }
    rewrite Hsame.
    destruct (infl_probs !! infl') as [pw|].
    + destruct Hother as [Hin Hmax]. split.
      * apply in_or_app. now left.
      * intros pw' Hpw'. apply in_app_or in Hpw' as [Hpw'|[Hpw'|[]]].
        -- now apply Hmax.
        -- inversion Hpw'; congruence.
    + intros pw' Hpw'. apply in_app_or in Hpw' as [Hpw'|[Hpw'|[]]].
      * now apply (Hother pw').
      * inversion Hpw'; congruence.
Qed.

Lemma record_infls_maxima prob word infls : forall records infl_probs,
  holds_maxima records infl_probs ->
  holds_maxima (records ++ map (fun infl => (infl, (prob, word))) infls)
               (fold_left (record_infl prob word) infls infl_probs).
Proof.
  induction infls as [|infl infls IH]; intros records infl_probs Hinv; simpl.
  - now rewrite app_nil_r.
  - replace (records ++ (infl, (prob, word)) :: map (fun infl => (infl, (prob, word))) infls)
      with ((records ++ [(infl, (prob, word))])
              ++ map (fun infl => (infl, (prob, word))) infls)
      by (now rewrite <- app_assoc).
    apply IH. now apply record_infl_maxima.
Qed.

Lemma record_entries_maxima entries : forall records infl_probs result,
  holds_maxima records infl_probs ->
  record_entries infl_probs entries = Ok result ->
  holds_maxima (records ++ infl_records entries) result /\
  (forall e, In e entries -> e_probability e <> None).
Proof.
  induction entries as [|e entries IH]; intros records infl_probs result Hinv; simpl.
  - intros H. inversion H; subst. rewrite app_nil_r. split; [assumption|]. intros e [].
  - unfold record_entry. destruct (e_probability e) as [prob|] eqn:Eprob; [|discriminate].
    simpl. intros H.
    apply IH with (records := records ++ map (fun infl => (infl, (prob, e_word e))) (entry_infls e))
      in H.
    + destruct H as [H1 H2]. split.
      * now rewrite app_assoc.
      * intros e' [<-|He']; [congruence|now apply H2].
    + now apply record_infls_maxima.
Qed.

Lemma record_entries_total entries : forall infl_probs,
  (forall e, In e entries -> e_probability e <> None) ->
  exists result, record_entries infl_probs entries = Ok result.
Proof.
  induction entries as [|e entries IH]; intros infl_probs Hall; simpl.
  - now eexists.
  - unfold record_entry.
    destruct (e_probability e) as [prob|] eqn:Eprob.
    + simpl. apply IH. intros e' He'. apply Hall. now right.
    + exfalso. now apply (Hall e (or_introl eq_refl)).
Qed.

Lemma in_infl_records entries infl prob word :
  In (infl, (prob, word)) (infl_records entries) <->
  exists e, In e entries /\ e_probability e = Some prob /\ e_word e = word /\
            In infl (entry_infls e).
Proof.
  unfold infl_records. rewrite in_flat_map. split.
  - intros (e & He & Hin). exists e.
    destruct (e_probability e) as [p|]; [|destruct Hin].
    apply in_map_iff in Hin as (i & Heq & Hi). inversion Heq; subst. auto.
  - intros (e & He & Hp & Hw & Hi). exists e. split; [assumption|].
    rewrite Hp. apply in_map_iff. exists infl. now subst.
Qed.

(** What the pre-pass computes. *)
Lemma make_inflections_spec (input_dbm : dbm) (keys : list str) (inflections : gmap str str) :
  make_inflections input_dbm keys = Ok inflections ->
  forall infl,
    match inflections !! infl with
    | Some word =>
        exists e prob,
          In e (prepass_entries input_dbm keys) /\ e_word e = word /\
          e_probability e = Some prob /\ In infl (entry_infls e) /\
          forall e' prob',
            In e' (prepass_entries input_dbm keys) -> In infl (entry_infls e') ->
            e_probability e' = Some prob' -> (prob' <= prob)%Q
    | None =>
        forall e', In e' (prepass_entries input_dbm keys) -> ~ In infl (entry_infls e')
    end.
Proof.
  unfold make_inflections, bind.
  destruct (record_entries ∅ (prepass_entries input_dbm keys)) as [infl_probs|] eqn:E;
    [|discriminate].
  intros H infl. inversion H; subst. clear H.
  apply (record_entries_maxima _ []) in E as [Hinv Hprob].
  2:{ intros i. rewrite lookup_empty. intros pw' []. }
  simpl in Hinv. specialize (Hinv infl). rewrite lookup_fmap.
  destruct (infl_probs !! infl) as [[prob word]|]; simpl.
  - destruct Hinv as [Hin Hmax].
    apply in_infl_records in Hin as (e & He & Hp & Hw & Hi).
    exists e, prob. repeat split; try assumption.
    intros e' prob' He' Hi' Hp'.
    apply (Hmax (prob', e_word e')). apply in_infl_records. now exists e'.
  - intros e' He' Hi'.
    destruct (e_probability e') as [prob'|] eqn:Ep'.
    + apply (Hinv (prob', e_word e')). apply in_infl_records. now exists e'.
    + now apply (Hprob e' He').
Qed.

Lemma make_inflections_total (input_dbm : dbm) (keys : list str) :
  (forall e, In e (prepass_entries input_dbm keys) -> e_probability e <> None) ->
  exists inflections, make_inflections input_dbm keys = Ok inflections.
Proof.
  intros Hall. unfold make_inflections.
  destruct (record_entries_total _ ∅ Hall) as (infl_probs & ->). simpl. now eexists.
Qed.

End InflectionFacts.

Section AttachmentFacts.
Context {U : Unicode} {RT : Runtime}.
Variable cfg : config.









End AttachmentFacts.

(** ** Item merging *)

Section MergeFacts.
Context {U : Unicode} {RT : Runtime}.
Variable cfg : config.

Lemma bands_ordered :
  0 < min_shown_items cfg /\ min_shown_items cfg <= mid_shown_items cfg /\
  mid_shown_items cfg <= max_shown_items cfg /\
  max_shown_items cfg = (if shrink cfg then 8 else 10).
Proof.
  unfold min_shown_items, mid_shown_items, max_shown_items.
  destruct (shrink cfg); lia.
Qed.

Lemma merge_primary_take items : forall merged_items,
  merge_primary cfg items merged_items =
  merged_items ++ firstn (max_shown_items cfg - length merged_items) items.
Proof.
  induction items as [|o items IH]; intros merged_items; simpl.
  - rewrite firstn_nil. now rewrite app_nil_r.
  - destruct (max_shown_items cfg <=? length merged_items) eqn:E.
    + apply Nat.leb_le in E.
      replace (max_shown_items cfg - length merged_items) with 0 by lia.
      simpl. now rewrite app_nil_r.
    + apply Nat.leb_gt in E. rewrite IH. rewrite length_app. simpl.
      destruct (max_shown_items cfg - length merged_items) as [|k] eqn:Ek; [lia|].
      replace (max_shown_items cfg - (length merged_items + 1)) with k by lia.
      simpl. now rewrite <- app_assoc.
Qed.

Lemma merge_sub_appends references sub_items : forall merged_items marked,
  exists appended,
    fst (merge_sub cfg references sub_items merged_items marked) = merged_items ++ appended /\
    (forall o, In o appended -> In o sub_items /\ skip_sub_item references o = false) /\
    length (merged_items ++ appended) <= Nat.max (length merged_items) (mid_shown_items cfg).
Proof.
  induction sub_items as [|o sub_items IH]; intros merged_items marked; simpl.
  - exists []. rewrite app_nil_r. split; [reflexivity|]. split; [intros x []|lia].
  - destruct (mid_shown_items cfg <=? length merged_items) eqn:Emid.
    + exists []. rewrite app_nil_r. split; [reflexivity|]. split; [intros x []|lia].
    + apply Nat.leb_gt in Emid.
      destruct (skip_sub_item references o) eqn:Eskip.
      * destruct (IH merged_items marked) as (appended & Heq & Hin & Hlen).
        exists appended. split; [exact Heq|]. split; [|exact Hlen].
        intros x Hx. destruct (Hin x Hx) as [H1 H2]. split; [now right|assumption].
      * destruct (IH (merged_items ++ [o]) (fst o :: marked)) as (appended & Heq & Hin & Hlen).
        exists (o :: appended). rewrite Heq. rewrite <- app_assoc. simpl.
        split; [reflexivity|]. split.
        -- intros x [<-|Hx]; [split; [now left|assumption]|].
           destruct (Hin x Hx) as [H1 H2]. split; [now right|assumption].
        -- rewrite !length_app in Hlen. rewrite length_app. simpl in *. lia.
Qed.

(** The shape of the merged list: the first items of the primary list,
    then the appended supplementary items. *)
Lemma merge_objects_shape (items sub_items : list obj) :
  exists appended,
    fst (merge_objects cfg items sub_items) = firstn (max_shown_items cfg) items ++ appended /\
    (forall o, In o appended ->
       In o sub_items /\
       skip_sub_item (make_references (firstn (max_shown_items cfg) items)) o = false) /\
    length (firstn (max_shown_items cfg) items ++ appended) <= max_shown_items cfg.
Proof.
  unfold merge_objects. rewrite merge_primary_take. simpl.
  rewrite Nat.sub_0_r.
  pose proof bands_ordered as (Hmin & Hmid & Hmax & _).
  destruct ((length (firstn (max_shown_items cfg) items) <? min_shown_items cfg)
            && nonempty sub_items) eqn:E.
  - apply andb_true_iff in E as [E _]. apply Nat.ltb_lt in E.
    destruct (merge_sub_appends
                (make_references (firstn (max_shown_items cfg) items))
                sub_items (firstn (max_shown_items cfg) items) [])
      as (appended & Heq & Hin & Hlen).
    exists appended. split; [exact Heq|]. split; [exact Hin|]. lia.
  - exists []. simpl. rewrite app_nil_r. split; [reflexivity|].
    split; [intros x []|]. rewrite length_firstn. lia.
Qed.

Lemma MergeShownItems_length (items sub_items : list obj) :
  length (MergeShownItems cfg items sub_items) =
  length (fst (merge_objects cfg items sub_items)).
Proof.
  unfold MergeShownItems. destruct (merge_objects cfg items sub_items) as [merged marked].
  simpl. now rewrite length_map.
Qed.

Lemma MergeShownItems_bounds (items sub_items : list obj) :
  items <> [] ->
  1 <= length (MergeShownItems cfg items sub_items) <= max_shown_items cfg.
Proof.
  intros Hne. rewrite MergeShownItems_length.
  destruct (merge_objects_shape items sub_items) as (appended & Heq & _ & Hlen).
  rewrite Heq. split; [|assumption].
  pose proof bands_ordered as (Hmin & Hmid & Hmax & _).
  rewrite length_app. destruct items as [|o items]; [congruence|].
  destruct (max_shown_items cfg) as [|k] eqn:Ek; [lia|]. simpl. lia.
Qed.

(** C3: the merged list is the first items of the primary list followed
    by the items the supplementary pass appends; these come from the
    supplementary list, and whenever the already selected items give a
    reference (some of them has tokens), a supplementary item whose
    tokens have an n-gram precision of 0.3 or more against the
    references is not among the appended items, whatever room is left
    below the middle band; unless it already stands in the primary
    list, it is not in the merged list at all. *)
Theorem C3_near_duplicates_not_appended (items sub_items : list obj) :
  let references := make_references (firstn (max_shown_items cfg) items) in
  exists appended,
    fst (merge_objects cfg items sub_items) =
      firstn (max_shown_items cfg) items ++ appended /\
    (forall o, In o appended -> In o sub_items) /\
    (forall o,
       In o sub_items ->
       references <> [] ->
       (3 # 10 <= ComputeNGramPresision (dup_tokens (i_text (snd o))) references 3)%Q ->
       ~ In o appended /\
       (~ In o items -> ~ In o (fst (merge_objects cfg items sub_items)))).
Proof.
  intros references.
  destruct (merge_objects_shape items sub_items) as (appended & Heq & Hin & _).
  exists appended. split; [exact Heq|]. split.
  - intros o Ho. now apply Hin.
  - intros o _ Hrefs Hdup.
    assert (Hnot : ~ In o appended).
    { intros Ho. destruct (Hin o Ho) as [_ Hskip]. unfold skip_sub_item in Hskip.
      fold references in Hskip.
      destruct (negb (CheckSafeText (i_text (snd o)))); [discriminate|].
      destruct references as [|reference references']; [congruence|].
      cbn [nonempty] in Hskip.
      destruct (negb (nonempty (dup_tokens (i_text (snd o))))); [discriminate|].
      unfold Qleb, max_dup_score in Hskip.
      apply Qle_bool_iff in Hdup. congruence. }
    split; [exact Hnot|].
    intros Hitems Hmerged. rewrite Heq in Hmerged.
    apply in_app_or in Hmerged as [Hm|Hm]; [|contradiction].
    apply Hitems. revert Hm. generalize (max_shown_items cfg). clear.
    intros n. revert n. induction items as [|x items IH]; intros [|n]; simpl; try tauto.
    intros [->|H]; [now left|right; now apply (IH n)].
Qed.

End MergeFacts.

(** ** The items of a rendered entry *)

Section MainEntryFacts.
Context {U : Unicode} {RT : Runtime}.
Variable cfg : config.

Lemma nonempty_false {A} (l : list A) : nonempty l = false <-> l = [].
Proof. destruct l; simpl; split; congruence. Qed.

Lemma nonempty_true {A} (l : list A) : nonempty l = true <-> l <> [].
Proof. destruct l; simpl; split; congruence. Qed.

(** An entry without items ends the run at line 549. *)
Lemma choose_best_label_no_item (e : entry) :
  e_item e = [] -> choose_best_label cfg e = Raise IndexError.
Proof.
  intros He. unfold choose_best_label, main_labels_seq. rewrite He. reflexivity.
Qed.

Lemma choose_best_label_total (e : entry) :
  e_item e <> [] -> exists best_label, choose_best_label cfg e = Ok best_label.
Proof.
  intros He. unfold choose_best_label.
  destruct (2 <=? length (remove_dups (main_labels_seq cfg e))); [now eexists|].
  destruct (1 <=? length (remove_dups (main_labels_seq cfg e))) eqn:E1.
  - apply Nat.leb_le in E1.
    pose proof (set_iter_perm (main_labels_seq cfg e)) as Hperm.
    destruct (set_iter (main_labels_seq cfg e)) as [|label labels]; [|now eexists].
    apply Permutation_nil in Hperm. rewrite Hperm in E1. simpl in E1. lia.
  - destruct (e_item e); [congruence|now eexists].
Qed.

Lemma MakeMainEntry_chosen st e input_dbm keys inflections best_label :
  choose_best_label cfg e = Ok best_label ->
  MakeMainEntry cfg st e input_dbm keys inflections =
    if nonempty (chosen_items cfg e best_label) then
      let! glosses := all_parent_glosses input_dbm (e_parent e) in
      let r :=
        {| r_word := e_word e;
           r_infl := attached_infl cfg inflections e;
           r_alternatives := alt_words e keys inflections;
           r_pronunciation := e_pronunciation e;
           r_translations := firstn 6 (e_translation e);
           r_items := MergeShownItems cfg (chosen_items cfg e best_label)
                        (sub_items cfg e best_label);
           r_phrases := shown_phrases e;
           r_parents := glosses;
           r_infl_lines := infl_lines cfg e |} in
      Ok (Some r, count_rendered r (count_label best_label st))
    else Ok (None, count_label best_label st).
Proof.
  intros Hlabel. unfold MakeMainEntry. rewrite Hlabel. simpl.
  destruct (nonempty (chosen_items cfg e best_label)); reflexivity.
Qed.

Lemma MakeMainEntry_items st e input_dbm keys inflections r st' :
  MakeMainEntry cfg st e input_dbm keys inflections = Ok (Some r, st') ->
  exists best_label,
    choose_best_label cfg e = Ok best_label /\
    chosen_items cfg e best_label <> [] /\
    r_items r = MergeShownItems cfg (chosen_items cfg e best_label)
                  (sub_items cfg e best_label).
Proof.
  intros H.
  destruct (choose_best_label cfg e) as [best_label|x] eqn:Elabel.
  - rewrite (MakeMainEntry_chosen _ _ _ _ _ _ Elabel) in H.
    exists best_label. split; [reflexivity|].
    destruct (nonempty (chosen_items cfg e best_label)) eqn:Ene; [|discriminate].
    split; [now apply nonempty_true|].
    unfold bind in H. destruct (all_parent_glosses input_dbm (e_parent e)); [|discriminate].
    inversion H. reflexivity.
  - unfold MakeMainEntry in H. rewrite Elabel in H. discriminate.
Qed.



End MainEntryFacts.

(** ** The label ranking *)

Section RankingFacts.
Context {U : Unicode}.
Variable cfg : config.

Lemma scan_label_items_closed (penalise : bool) (its : list item) :
  forall num_items length_cost,
    scan_label_items penalise its num_items length_cost =
    (num_items + length (word_counts its),
     (length_cost + (sum_word_costs (word_counts its)
                     + 10 * INR (if penalise then unsafe_count its else 0)))%R).
Proof.
  induction its as [|it its IH]; intros num_items length_cost.
  - simpl. destruct penalise; simpl; f_equal; try lia; lra.
  - cbn [scan_label_items]. unfold word_counts, qualifying, unsafe_count in *.
    cbn [List.filter].
    destruct (is_translation (i_text it)) eqn:Etr; cbn [negb andb].
    + rewrite IH. destruct penalise; cbn [andb].
      * destruct (negb (CheckSafeText (i_text it))); cbn [length];
          f_equal; rewrite ?S_INR; lra.
      * f_equal.
    + destruct (nonempty (clean_text (i_text it))) eqn:Ene; cbn [negb].
      * rewrite IH. cbn [map length fold_right sum_word_costs].
        destruct penalise; cbn [andb].
        -- destruct (negb (CheckSafeText (i_text it))); cbn [length];
             f_equal; try lia; rewrite ?S_INR; unfold sum_word_costs; lra.
        -- f_equal; try lia. unfold sum_word_costs. lra.
      * rewrite IH. destruct penalise; cbn [andb].
        -- destruct (negb (CheckSafeText (i_text it))); cbn [length];
             f_equal; rewrite ?S_INR; lra.
        -- f_equal.
Qed.

(** The cost of a label, lines 518-542, in closed form. *)
Lemma label_cost_closed (e : entry) (label : str) :
  let its := label_items e label in
  let is_best := label_is_best cfg label in
  let is_vetted := label_is_vetted cfg (e_word e) label in
  let counts := word_counts its in
  label_cost cfg e label =
    if length counts =? 0 then None
    else Some (stated_cost (length counts) counts
                 (if negb is_best && negb is_vetted then unsafe_count its else 0)
                 (quality_cost is_best is_vetted)).
Proof.
  intros its is_best is_vetted counts. unfold label_cost.
  rewrite scan_label_items_closed. fold its is_best is_vetted counts.
  cbn [Nat.add]. destruct (length counts =? 0); [reflexivity|].
  f_equal. unfold stated_cost. replace 1.0%R with 1%R by lra.
  unfold Rdiv. ring.
Qed.

End RankingFacts.

Section RankingOrder.
Context {U : Unicode}.
Variable cfg : config.

Lemma sum_word_costs_nonneg counts : (0 <= sum_word_costs counts)%R.
Proof.
  induction counts as [|n counts IH]; simpl; [lra|].
  pose proof (Rabs_pos (ln 9 - ln (INR n))). lra.
Qed.

Lemma quality_cost_bounds is_best is_vetted :
  (0.8 <= quality_cost is_best is_vetted <= 1.25)%R.
Proof. unfold quality_cost. destruct is_best, is_vetted; lra. Qed.

Lemma stated_cost_pos n counts penalties quality :
  0 < n -> (0 < quality)%R -> (0 < stated_cost n counts penalties quality)%R.
Proof.
  intros Hn Hq. unfold stated_cost.
  assert (Hn' : (0 < INR n)%R) by (now apply lt_0_INR).
  pose proof (Rabs_pos (ln 5 - ln (INR n))) as Ha.
  pose proof (sum_word_costs_nonneg counts) as Hs.
  pose proof (pos_INR penalties) as Hp.
  assert (Hd : (0 <= (sum_word_costs counts + 10 * INR penalties) / INR n)%R).
  { apply Rmult_le_pos; [lra|]. left. now apply Rinv_0_lt_compat. }
  apply Rmult_lt_0_compat; [|assumption].
  apply Rmult_lt_0_compat; lra.
Qed.

Lemma label_cost_pos (e : entry) (label : str) (c : R) :
  label_cost cfg e label = Some c -> (0 < c)%R.
Proof.
  rewrite label_cost_closed. cbv zeta.
  destruct (length (word_counts (label_items e label)) =? 0) eqn:E; [discriminate|].
  intros H. inversion H; subst. apply Nat.eqb_neq in E.
  apply stated_cost_pos; [lia|].
  pose proof (quality_cost_bounds (label_is_best cfg label)
                (label_is_vetted cfg (e_word e) label)). lra.
Qed.

Lemma improves_lt (cost m : R) :
  (0 < m)%R -> improves cost (Some m) = true <-> (cost < m)%R.
Proof.
  intros Hm. unfold improves.
  destruct (Req_dec_T m 0) as [->|_]; [lra|].
  destruct (Rlt_dec cost m); split; intros; try assumption; try reflexivity;
    try discriminate; contradiction.
Qed.

Lemma rank_labels_min (e : entry) (labels : list str) :
  forall seen best_label min_cost,
    match best_label, min_cost with
    | None, None => forall label, In label seen -> label_cost cfg e label = None
    | Some best, Some m =>
        In best seen /\ label_cost cfg e best = Some m /\
        forall label c, In label seen -> label_cost cfg e label = Some c -> (m <= c)%R
    | _, _ => False
    end ->
    is_min_label (label_cost cfg e) (seen ++ labels)
                 (rank_labels cfg e labels best_label min_cost).
Proof.
  induction labels as [|label labels IH]; intros seen best_label min_cost Hinv.
  - rewrite app_nil_r. simpl. unfold is_min_label.
    destruct best_label as [best|], min_cost as [m|]; try contradiction.
    + destruct Hinv as (Hin & Hcost & Hmin). split; [assumption|]. now exists m.
    + assumption.
  - replace (seen ++ label :: labels) with ((seen ++ [label]) ++ labels)
      by (now rewrite <- app_assoc).
    cbn [rank_labels].
    destruct (label_cost cfg e label) as [cost|] eqn:Ecost.
    + destruct best_label as [best|], min_cost as [m|]; try contradiction.
      * destruct Hinv as (Hin & Hcost & Hmin).
        pose proof (label_cost_pos _ _ _ Hcost) as Hm.
        destruct (improves cost (Some m)) eqn:Eimp.
        -- apply improves_lt in Eimp; [|assumption].
           apply IH. split; [apply in_or_app; right; now left|].
           split; [assumption|].
           intros l c Hl Hc. apply in_app_or in Hl as [Hl|[<-|[]]].
           ++ specialize (Hmin l c Hl Hc). lra.
           ++ rewrite Ecost in Hc. inversion Hc. lra.
        -- assert (Hge : (m <= cost)%R).
           { destruct (Rle_or_lt m cost) as [H|H]; [assumption|].
             apply (improves_lt cost m Hm) in H. congruence. }
           apply IH. split; [apply in_or_app; now left|].
           split; [assumption|].
           intros l c Hl Hc. apply in_app_or in Hl as [Hl|[<-|[]]].
           ++ exact (Hmin l c Hl Hc).
           ++ rewrite Ecost in Hc. inversion Hc. lra.
      * cbn [improves]. apply IH.
        split; [apply in_or_app; right; now left|]. split; [assumption|].
        intros l c Hl Hc. apply in_app_or in Hl as [Hl|[<-|[]]].
        -- rewrite (Hinv l Hl) in Hc. discriminate.
        -- rewrite Ecost in Hc. inversion Hc. lra.
    + apply IH.
      destruct best_label as [best|], min_cost as [m|]; try contradiction.
      * destruct Hinv as (Hin & Hcost & Hmin).
        split; [apply in_or_app; now left|]. split; [assumption|].
        intros l c Hl Hc. apply in_app_or in Hl as [Hl|[<-|[]]].
        -- exact (Hmin l c Hl Hc).
        -- congruence.
      * intros l Hl. apply in_app_or in Hl as [Hl|[<-|[]]]; [now apply Hinv|assumption].
Qed.

Lemma rank_labels_is_min (e : entry) (labels : list str) :
  is_min_label (label_cost cfg e) labels (rank_labels cfg e labels None None).
Proof.
  apply (rank_labels_min e labels [] None None). intros label [].
Qed.


Lemma set_iter_In (RT : Runtime) (l : list str) (x : str) :
  In x (set_iter l) <-> In x l.
Proof.
  rewrite <- !list_elem_of_In. rewrite (set_iter_perm l).
  apply elem_of_remove_dups.
Qed.


End RankingOrder.

(** ** Bounds on logarithms *)

Section LogBounds.
Local Open Scope R_scope.
Lemma ln_le x y : 0 < x -> x <= y -> ln x <= ln y.
Proof.
  intros Hx [Hlt | ->]; [|lra]. left. now apply ln_increasing.
Qed.

Lemma ln_le_sub1 t : 0 < t -> ln t <= t - 1.
Proof.
  intros Ht. pose proof (exp_ineq1_le (t - 1)) as H.
  replace (1 + (t - 1)) with t in H by lra.
  apply (ln_le t (exp (t - 1)) Ht) in H. now rewrite ln_exp in H.
Qed.

(** [ln t <= X] from [t <= (1 + X/n)^n]. *)
Lemma ln_upper t X (n : nat) :
  0 < t -> 0 <= X -> (0 < n)%nat -> t <= (1 + X / INR n) ^ n -> ln t <= X.
Proof.
  intros Ht HX Hn Hle.
  assert (Hn' : 0 < INR n) by (now apply lt_0_INR).
  assert (Hb : 0 < 1 + X / INR n).
  { assert (0 <= X / INR n) by (apply Rmult_le_pos; [lra|left; now apply Rinv_0_lt_compat]). lra. }
  apply (ln_le _ _ Ht) in Hle. rewrite ln_pow in Hle by assumption.
  pose proof (ln_le_sub1 _ Hb) as H1.
  replace (1 + X / INR n - 1) with (X / INR n) in H1 by lra.
  apply Rle_trans with (INR n * ln (1 + X / INR n)); [assumption|].
  apply Rle_trans with (INR n * (X / INR n)).
  - apply Rmult_le_compat_l; lra.
  - right. field. lra.
Qed.

(** [n * (1 - 1/r) <= ln t] from [r^n <= t]. *)
Lemma ln_lower t r (n : nat) :
  0 < r -> r ^ n <= t -> INR n * (1 - / r) <= ln t.
Proof.
  intros Hr Hle.
  assert (Hp : 0 < r ^ n) by (now apply pow_lt).
  apply (ln_le _ _ Hp) in Hle. rewrite ln_pow in Hle by assumption.
  assert (Hi : 0 < / r) by (now apply Rinv_0_lt_compat).
  pose proof (ln_le_sub1 _ Hi) as H1. rewrite ln_Rinv in H1 by assumption.
  apply Rle_trans with (INR n * ln r); [|assumption].
  apply Rmult_le_compat_l; [apply pos_INR|lra].
Qed.

Lemma pow_frac_ge (p a b : Z) (n : nat) :
  (0 < b)%Z -> (p * b ^ Z.of_nat n <= a ^ Z.of_nat n)%Z ->
  IZR p <= (IZR a / IZR b) ^ n.
Proof.
  intros Hb Hle.
  assert (Hb' : 0 < IZR b) by (now apply IZR_lt).
  unfold Rdiv. rewrite Rpow_mult_distr, pow_inv, !pow_IZR.
  assert (Hbn : 0 < IZR (b ^ Z.of_nat n)).
  { apply IZR_lt. apply Z.pow_pos_nonneg; lia. }
  apply Rmult_le_reg_r with (IZR (b ^ Z.of_nat n)); [assumption|].
  rewrite Rmult_assoc, Rinv_l, Rmult_1_r by lra.
  rewrite <- mult_IZR. now apply IZR_le.
Qed.

Lemma pow_frac_le (p q a b : Z) (n : nat) :
  (0 < b)%Z -> (0 < q)%Z -> (q * a ^ Z.of_nat n <= p * b ^ Z.of_nat n)%Z ->
  (IZR a / IZR b) ^ n <= IZR p / IZR q.
Proof.
  intros Hb Hq Hle.
  assert (Hb' : 0 < IZR b) by (now apply IZR_lt).
  assert (Hq' : 0 < IZR q) by (now apply IZR_lt).
  unfold Rdiv at 1. rewrite Rpow_mult_distr, pow_inv, !pow_IZR.
  assert (Hbn : 0 < IZR (b ^ Z.of_nat n)).
  { apply IZR_lt. apply Z.pow_pos_nonneg; lia. }
  apply Rmult_le_reg_r with (IZR (b ^ Z.of_nat n)); [assumption|].
  rewrite Rmult_assoc, Rinv_l, Rmult_1_r by lra.
  apply Rmult_le_reg_l with (IZR q); [assumption|].
  replace (IZR q * (IZR p / IZR q * IZR (b ^ Z.of_nat n)))
    with (IZR p * IZR (b ^ Z.of_nat n)) by (field; lra).
  rewrite <- !mult_IZR. now apply IZR_le.
Qed.

Lemma ln3_upper : ln 3 <= 1.12.
Proof.
  apply (ln_upper 3 1.12 64); [lra|lra|lia|].
  replace (1 + 1.12 / INR 64) with (IZR 407 / IZR 400).
  - apply (pow_frac_ge 3 407 400 64); [lia|]. vm_compute. discriminate.
  - replace (INR 64) with 64 by (simpl; lra). lra.
Qed.

Lemma ln5_upper : ln 5 <= 1.63.
Proof.
  apply (ln_upper 5 1.63 128); [lra|lra|lia|].
  replace (1 + 1.63 / INR 128) with (IZR 12963 / IZR 12800).
  - apply (pow_frac_ge 5 12963 12800 128); [lia|]. vm_compute. discriminate.
  - replace (INR 128) with 128 by (simpl; lra). lra.
Qed.

Lemma ln_5_3_lower : 0.5 <= ln 5 - ln 3.
Proof.
  replace (ln 5 - ln 3) with (ln (5 / 3)).
  - pose proof (ln_lower (5 / 3) (IZR 64 / IZR 63) 32) as H.
    replace (INR 32 * (1 - / (IZR 64 / IZR 63))) with 0.5 in H.
    + apply H; [lra|].
      apply (pow_frac_le 5 3 64 63 32); [lia|lia|]. vm_compute. discriminate.
    + replace (INR 32) with 32 by (simpl; lra).
      replace (/ (IZR 64 / IZR 63)) with (63 / 64) by (field; lra). lra.
  - unfold Rdiv. rewrite ln_mult, ln_Rinv by lra. lra.
Qed.

Lemma ln_20_9_lower : 0.75 <= ln 20 - ln 9.
Proof.
  replace (ln 20 - ln 9) with (ln (20 / 9)).
  - pose proof (ln_lower (20 / 9) (IZR 128 / IZR 125) 32) as H.
    replace (INR 32 * (1 - / (IZR 128 / IZR 125))) with 0.75 in H.
    + apply H; [lra|].
      apply (pow_frac_le 20 9 128 125 32); [lia|lia|]. vm_compute. discriminate.
    + replace (INR 32) with 32 by (simpl; lra).
      replace (/ (IZR 128 / IZR 125)) with (125 / 128) by (field; lra). lra.
  - unfold Rdiv. rewrite ln_mult, ln_Rinv by lra. lra.
Qed.

End LogBounds.

(** ** The cost function *)

Section CostFacts.
Context {U : Unicode}.
Variable cfg : config.
Local Open Scope R_scope.

Lemma INR_ge (k n : nat) : (k <= n)%nat -> INR k <= INR n.
Proof. apply le_INR. Qed.

Lemma ln_INR_nonneg (n : nat) : (1 <= n)%nat -> 0 <= ln (INR n).
Proof.
  intros Hn. rewrite <- ln_1. apply ln_le; [lra|].
  apply INR_ge in Hn. simpl in Hn. lra.
Qed.

Lemma ln_9 : ln 9 = 2 * ln 3.
Proof. replace 9 with (3 * 3) by lra. rewrite ln_mult by lra. lra. Qed.

Lemma ln_45 : ln 45 = ln 9 + ln 5.
Proof. replace 45 with (9 * 5) by lra. now rewrite ln_mult by lra. Qed.

Lemma ln_81 : ln 81 = ln 9 + ln 9.
Proof. replace 81 with (9 * 9) by lra. now rewrite ln_mult by lra. Qed.

Lemma word_cost_small (n : nat) :
  (1 <= n <= 81)%nat -> Rabs (ln 9 - ln (INR n)) <= ln 9.
Proof.
  intros [H1 H81]. pose proof (ln_INR_nonneg n H1) as H0.
  assert (Hpos : 0 < INR n) by (apply lt_0_INR; lia).
  assert (Hle : ln (INR n) <= ln 81).
  { apply ln_le; [assumption|]. apply INR_ge in H81. simpl in H81. lra. }
  rewrite ln_81 in Hle. unfold Rabs. destruct (Rcase_abs _); lra.
Qed.

Lemma word_cost_middle (n : nat) :
  (9 <= n <= 45)%nat -> Rabs (ln 9 - ln (INR n)) <= ln 5.
Proof.
  intros [H9 H45].
  assert (Hpos : 0 < INR n) by (apply lt_0_INR; lia).
  assert (Hge : ln 9 <= ln (INR n)).
  { apply ln_le; [lra|]. apply INR_ge in H9. simpl in H9. lra. }
  assert (Hle : ln (INR n) <= ln 45).
  { apply ln_le; [assumption|]. apply INR_ge in H45. simpl in H45. lra. }
  rewrite ln_45 in Hle. unfold Rabs. destruct (Rcase_abs _); lra.
Qed.

Lemma word_cost_long (n : nat) :
  (20 <= n)%nat -> ln 20 - ln 9 <= Rabs (ln 9 - ln (INR n)).
Proof.
  intros H20.
  assert (Hge : ln 20 <= ln (INR n)).
  { apply ln_le; [lra|]. apply INR_ge in H20. simpl in H20. lra. }
  unfold Rabs. destruct (Rcase_abs _); lra.
Qed.

Lemma count_words_pos (text : str) : (1 <= count_words text)%nat.
Proof. unfold count_words. lia. Qed.

Lemma word_counts_pos (its : list item) (n : nat) :
  In n (word_counts its) -> (1 <= n)%nat.
Proof.
  unfold word_counts. intros H. apply in_map_iff in H as (it & <- & _).
  apply count_words_pos.
Qed.

(** Five items of nine words on average cost at most [4 ln 9 + ln 5]. *)
Lemma sum_word_costs_mean_9 (counts : list nat) :
  length counts = 5%nat -> list_sum counts = 45%nat ->
  (forall n, In n counts -> (1 <= n)%nat) ->
  sum_word_costs counts <= 4 * ln 9 + ln 5.
Proof.
  intros Hlen Hsum Hpos.
  destruct counts as [|a [|b [|c [|d [|f [|g counts]]]]]]; try discriminate.
  simpl in Hsum.
  assert (Ha : (1 <= a)%nat) by (apply Hpos; simpl; tauto).
  assert (Hb : (1 <= b)%nat) by (apply Hpos; simpl; tauto).
  assert (Hc : (1 <= c)%nat) by (apply Hpos; simpl; tauto).
  assert (Hd : (1 <= d)%nat) by (apply Hpos; simpl; tauto).
  assert (Hf : (1 <= f)%nat) by (apply Hpos; simpl; tauto).
  pose proof (word_cost_small a ltac:(lia)). pose proof (word_cost_small b ltac:(lia)).
  pose proof (word_cost_small c ltac:(lia)). pose proof (word_cost_small d ltac:(lia)).
  pose proof (word_cost_small f ltac:(lia)).
  cbn [sum_word_costs fold_right].
  assert (Hbig : (9 <= a \/ 9 <= b \/ 9 <= c \/ 9 <= d \/ 9 <= f)%nat) by lia.
  destruct Hbig as [Hbig|[Hbig|[Hbig|[Hbig|Hbig]]]].
  - pose proof (word_cost_middle a ltac:(lia)). lra.
  - pose proof (word_cost_middle b ltac:(lia)). lra.
  - pose proof (word_cost_middle c ltac:(lia)). lra.
  - pose proof (word_cost_middle d ltac:(lia)). lra.
  - pose proof (word_cost_middle f ltac:(lia)). lra.
Qed.

(** Three items of twenty words on average cost at least [ln 20 - ln 9]. *)
Lemma sum_word_costs_mean_20 (counts : list nat) :
  length counts = 3%nat -> list_sum counts = 60%nat ->
  ln 20 - ln 9 <= sum_word_costs counts.
Proof.
  intros Hlen Hsum.
  destruct counts as [|a [|b [|c [|d counts]]]]; try discriminate.
  simpl in Hsum. cbn [sum_word_costs fold_right].
  pose proof (Rabs_pos (ln 9 - ln (INR a))). pose proof (Rabs_pos (ln 9 - ln (INR b))).
  pose proof (Rabs_pos (ln 9 - ln (INR c))).
  assert (Hbig : (20 <= a \/ 20 <= b \/ 20 <= c)%nat) by lia.
  destruct Hbig as [Hbig|[Hbig|Hbig]].
  - pose proof (word_cost_long a Hbig). lra.
  - pose proof (word_cost_long b Hbig). lra.
  - pose proof (word_cost_long c Hbig). lra.
Qed.

(** The cost of the first candidate of the scenario stays below 1.25,
    that of the second one does not. *)
Lemma stated_cost_mean_9 (counts : list nat) :
  length counts = 5%nat -> list_sum counts = 45%nat ->
  (forall n, In n counts -> (1 <= n)%nat) ->
  stated_cost 5 counts 0 0.8 < 1.25.
Proof.
  intros Hlen Hsum Hpos.
  pose proof (sum_word_costs_mean_9 counts Hlen Hsum Hpos) as Hs.
  pose proof ln3_upper. pose proof ln5_upper. rewrite ln_9 in Hs.
  unfold stated_cost. replace (INR 5) with 5 by (simpl; lra). replace (INR 0) with 0 by reflexivity.
  replace (ln 5 - ln 5) with 0 by lra. rewrite Rabs_R0. lra.
Qed.

Lemma stated_cost_mean_20 (counts : list nat) (penalties : nat) (quality : R) :
  length counts = 3%nat -> list_sum counts = 60%nat -> 1 <= quality ->
  1.25 <= stated_cost 3 counts penalties quality.
Proof.
  intros Hlen Hsum Hq.
  pose proof (sum_word_costs_mean_20 counts Hlen Hsum) as Hs.
  pose proof ln_5_3_lower as H53. pose proof ln_20_9_lower as H209.
  pose proof (pos_INR penalties) as Hp.
  unfold stated_cost. replace (INR 3) with 3 by (simpl; lra).
  pose proof (Rle_abs (ln 5 - ln 3)) as Ha.
  assert (H1 : 1 <= Rabs (ln 5 - ln 3) + 0.5) by lra.
  assert (H2 : 1.25 <= (sum_word_costs counts + 10 * INR penalties) / 3 + 1) by lra.
  replace 1.25 with (1 * 1.25 * 1) by lra.
  apply Rmult_le_compat; try lra.
  apply Rmult_le_compat; lra.
Qed.

End CostFacts.

Section RankingClaims.
Context {U : Unicode} {RT : Runtime}.
Variable cfg : config.

Lemma is_min_label_ext (cost : str -> option R) (labels1 labels2 : list str) r :
  (forall label, In label labels1 <-> In label labels2) ->
  is_min_label cost labels1 r -> is_min_label cost labels2 r.
Proof.
  intros Hsame. unfold is_min_label. destruct r as [best|].
  - intros (Hin & m & Hc & Hmin). split; [now apply Hsame|].
    exists m. split; [assumption|]. intros label c Hl. apply Hmin. now apply Hsame.
  - intros H label Hl. apply H. now apply Hsame.
Qed.

Lemma choose_best_label_min (e : entry) :
  2 <= length (remove_dups (main_labels_seq cfg e)) ->
  exists best_label,
    choose_best_label cfg e = Ok best_label /\
    is_min_label (label_cost cfg e) (main_labels_seq cfg e) best_label.
Proof.
  intros H2. unfold choose_best_label. apply Nat.leb_le in H2. rewrite H2.
  eexists. split; [reflexivity|].
  apply (is_min_label_ext _ (set_iter (main_labels_seq cfg e))).
  - intros label. apply set_iter_In.
  - apply rank_labels_is_min.
Qed.

(** C2, with the reading of "vetted" the code has: a label counts as
    vetted when it is in the vetted set and the word is no article or
    particle.  The cost of a label with [n] counted items (no
    translation marker, cleaned text not empty) is
    [(|ln 5 - ln n| + 0.5) * (lengthCost + 1) * qualityCost], where
    [lengthCost] is the sum over these items of [|ln 9 - ln words|],
    plus 10 for every item of the label that fails the safe-character
    check when the label is neither best nor vetted in that sense, the
    whole divided by [n], and [qualityCost] is 0.8 for a best label, 1.0
    for a vetted one, 1.25 otherwise; a label without counted items has
    no cost.  With two main labels or more the chosen label has a cost
    that no main label undercuts.  When the main labels are A (best,
    five counted items, 45 words in all) and B (vetted, not best, three
    counted items, 60 words in all), A costs less than B and is chosen. *)
Theorem C2_label_cost (e : entry) :
  (forall label,
     let its := label_items e label in
     let counts := word_counts its in
     let is_best := inb label (best_labels cfg) in
     let is_vetted := negb (is_stop (e_word e)) && inb label (vetted_labels cfg) in
     label_cost cfg e label =
       if length counts =? 0 then None
       else Some (stated_cost (length counts) counts
                    (if negb is_best && negb is_vetted then unsafe_count its else 0)
                    (if is_best then 0.8 else if is_vetted then 1.0 else 1.25)%R)) /\
  (2 <= length (remove_dups (main_labels_seq cfg e)) ->
   exists best_label,
     choose_best_label cfg e = Ok best_label /\
     is_min_label (label_cost cfg e) (main_labels_seq cfg e) best_label) /\
  (forall A B,
     Permutation (remove_dups (main_labels_seq cfg e)) [A; B] ->
     inb A (best_labels cfg) = true ->
     inb B (best_labels cfg) = false -> inb B (vetted_labels cfg) = true ->
     length (word_counts (label_items e A)) = 5 ->
     list_sum (word_counts (label_items e A)) = 45 ->
     length (word_counts (label_items e B)) = 3 ->
     list_sum (word_counts (label_items e B)) = 60 ->
     exists cost_A cost_B,
       label_cost cfg e A = Some cost_A /\ label_cost cfg e B = Some cost_B /\
       (cost_A < cost_B)%R /\
       choose_best_label cfg e = Ok (Some A)).
Proof.
  split; [|split].
  - intros label. apply label_cost_closed.
  - apply choose_best_label_min.
  - intros A B Hperm HbestA HbestB HvetB HlenA HsumA HlenB HsumB.
    assert (HcA : label_cost cfg e A =
                  Some (stated_cost 5 (word_counts (label_items e A)) 0 0.8)).
    { rewrite label_cost_closed. cbv zeta. rewrite HlenA. unfold label_is_best.
      rewrite HbestA. reflexivity. }
    destruct (label_cost cfg e B) as [cost_B|] eqn:HcB.
    2:{ rewrite label_cost_closed in HcB. cbv zeta in HcB. rewrite HlenB in HcB.
        discriminate. }
    assert (HB : (1.25 <= cost_B)%R).
    { rewrite label_cost_closed in HcB. cbv zeta in HcB. rewrite HlenB in HcB.
      cbn [Nat.eqb] in HcB. inversion HcB. apply stated_cost_mean_20; try assumption.
      unfold label_is_best. rewrite HbestB. unfold quality_cost.
      destruct (label_is_vetted cfg (e_word e) B); lra. }
    assert (HA : (stated_cost 5 (word_counts (label_items e A)) 0 0.8 < 1.25)%R).
    { apply stated_cost_mean_9; try assumption. apply word_counts_pos. }
    eexists _, cost_B. split; [exact HcA|]. split; [reflexivity|]. split; [lra|].
    destruct (choose_best_label_min e) as (best_label & Hchoose & Hmin).
    { rewrite (Permutation_length Hperm). simpl. lia. }
    rewrite Hchoose. f_equal.
    assert (Hmem : forall label, In label (main_labels_seq cfg e) <-> label = A \/ label = B).
    { intros label. rewrite <- !list_elem_of_In. rewrite <- elem_of_remove_dups.
      rewrite Hperm. rewrite !list_elem_of_In. simpl. intuition congruence. }
    unfold is_min_label in Hmin. destruct best_label as [best|].
    + destruct Hmin as (Hin & m & Hm & Hall). apply Hmem in Hin as [->| ->]; [reflexivity|].
      exfalso. rewrite HcB in Hm. inversion Hm; subst.
      pose proof (Hall A _ (proj2 (Hmem A) (or_introl eq_refl)) HcA). lra.
    + rewrite (Hmin A (proj2 (Hmem A) (or_introl eq_refl))) in HcA. discriminate.
Qed.

End RankingClaims.

(** ** What the decisions depend on *)

Section Determinism.
Context {U : Unicode}.
Variable cfg : config.





End Determinism.


(** The costs of the two labels of [about_entry]. *)
Lemma about_entry_costs :
  label_cost (U := ascii_tables) (default_config false) about_entry (u "wn")
  = Some (stated_cost 1 [2] 1 1.25) /\
  label_cost (U := ascii_tables) (default_config false) about_entry (u "we")
  = Some (stated_cost 1 [1] 0 1.25).
Proof.
  split.
  - rewrite label_cost_closed. cbv zeta.
    replace (word_counts (U := ascii_tables) (label_items about_entry (u "wn"))) with [2]
      by (vm_compute; reflexivity).
    replace (label_is_best (default_config false) (u "wn")) with false
      by (vm_compute; reflexivity).
    replace (label_is_vetted (default_config false) (e_word about_entry) (u "wn")) with false
      by (vm_compute; reflexivity).
    replace (unsafe_count (U := ascii_tables) (label_items about_entry (u "wn"))) with 1
      by (vm_compute; reflexivity).
    reflexivity.
  - rewrite label_cost_closed. cbv zeta.
    replace (word_counts (U := ascii_tables) (label_items about_entry (u "we"))) with [1]
      by (vm_compute; reflexivity).
    replace (label_is_best (default_config false) (u "we")) with false
      by (vm_compute; reflexivity).
    replace (label_is_vetted (default_config false) (e_word about_entry) (u "we")) with false
      by (vm_compute; reflexivity).
    replace (unsafe_count (U := ascii_tables) (label_items about_entry (u "we"))) with 0
      by (vm_compute; reflexivity).
    reflexivity.
Qed.

Lemma penalised_cost_higher (counts : list nat) (quality : R) :
  (quality <= 1.25)%R -> (sum_word_costs counts < 10)%R ->
  (stated_cost 1 counts 0 quality < stated_cost 1 [2%nat] 1 1.25)%R.
Proof.
  intros Hq Hs. unfold stated_cost.
  replace (INR 1) with 1%R by reflexivity. replace (INR 0) with 0%R by reflexivity.
  pose proof (Rabs_pos (ln 5 - ln 1)) as Ha.
  pose proof (sum_word_costs_nonneg counts) as Hc.
  pose proof (sum_word_costs_nonneg [2%nat]) as H2.
  set (a := Rabs (ln 5 - ln 1)) in *.
  set (s := sum_word_costs counts) in *. set (t := sum_word_costs [2%nat]) in *.
  apply Rle_lt_trans with ((a + 0.5) * ((s + 10 * 0) / 1 + 1) * 1.25)%R.
  - apply Rmult_le_compat_l; [|assumption].
    apply Rmult_le_pos; lra.
  - apply Rmult_lt_compat_r; [lra|]. apply Rmult_lt_compat_l; lra.
Qed.

(** C2 as stated fails: "wn" is a vetted label, yet for the particle
    "about" the code does not count it as vetted; its item with a brace
    fails the safe-character check and is charged the penalty, so the
    cost is higher than the cost without penalty at any of the three
    quality factors. *)
Lemma C2_counterexample :
  inb (u "wn") (vetted_labels (default_config false)) = true /\
  inb (u "wn") (best_labels (default_config false)) = false /\
  is_stop (e_word about_entry) = true /\
  unsafe_count (U := ascii_tables) (label_items about_entry (u "wn")) = 1 /\
  word_counts (U := ascii_tables) (label_items about_entry (u "wn")) = [2] /\
  label_cost (U := ascii_tables) (default_config false) about_entry (u "wn")
  = Some (stated_cost 1 [2] 1 1.25) /\
  (forall quality,
     quality = 0.8%R \/ quality = 1.0%R \/ quality = 1.25%R ->
     (stated_cost 1 [2%nat] 0 quality < stated_cost 1 [2%nat] 1 1.25)%R).
Proof.
  repeat split; try (vm_compute; reflexivity).
  - apply about_entry_costs.
  - intros quality Hq. apply penalised_cost_higher; [lra|].
    cbn [sum_word_costs fold_right].
    pose proof (word_cost_small 2 ltac:(lia)) as H.
    pose proof ln3_upper. rewrite ln_9 in *. lra.
Qed.

Lemma C2_label_cost_witness :
  exists cost_A cost_B,
    label_cost (U := ascii_tables) (default_config false) scenario_entry (u "xa")
    = Some cost_A /\
    label_cost (U := ascii_tables) (default_config false) scenario_entry (u "wn")
    = Some cost_B /\
    (cost_A < cost_B)%R /\
    choose_best_label (U := ascii_tables) (RT := first_seen_runtime)
      (default_config false) scenario_entry = Ok (Some (u "xa")).
Proof.
  apply (proj2 (proj2 (C2_label_cost (U := ascii_tables) (RT := first_seen_runtime)
                         (default_config false) scenario_entry)) (u "xa") (u "wn")).
  - vm_compute. apply Permutation_refl.
  - vm_compute. reflexivity.
  - vm_compute. reflexivity.
  - vm_compute. reflexivity.
  - vm_compute. reflexivity.
  - vm_compute. reflexivity.
  - vm_compute. reflexivity.
  - vm_compute. reflexivity.
Defined.


(** ** Worked examples of the item and inflection steps *)




Lemma C3_near_duplicates_not_appended_witness :
  exists appended,
    fst (merge_objects (U := ascii_tables) (RT := first_seen_runtime)
           (default_config false) dog_items dog_sub_items)
    = firstn 10 dog_items ++ appended /\
    ~ In (1, mk_item "noun" "we" "a big brown dog indeed") appended.
Proof.
  destruct (C3_near_duplicates_not_appended (U := ascii_tables) (RT := first_seen_runtime)
              (default_config false) dog_items dog_sub_items)
    as (appended & Heq & _ & Hdup).
  exists appended. split; [exact Heq|].
  apply (fun a b c => proj1 (Hdup _ a b c)).
  - left. reflexivity.
  - vm_compute. discriminate.
  - apply Qle_bool_iff. vm_compute. reflexivity.
Defined.


(** * Further properties of the script *)

(** ** [str.strip] *)

Section StripFacts.
Context {U : Unicode}.

Lemma lstrip_suffix (s : str) : exists p, s = p ++ lstrip s.
Proof.
  induction s as [|c s IH]; simpl.
  - now exists [].
  - destruct (uni_space c).
    + destruct IH as (p & Hp). exists (c :: p). simpl. now f_equal.
    + now exists [].
Qed.

Lemma strip_infix (s : str) : exists p q, s = p ++ strip s ++ q.
Proof.
  unfold strip.
  destruct (lstrip_suffix s) as (p & Hp).
  destruct (lstrip_suffix (rev (lstrip s))) as (q & Hq).
  exists p, (rev q). rewrite <- rev_app_distr, <- Hq, rev_involutive. exact Hp.
Qed.

Lemma In_strip (s : str) (c : char) : In c (strip s) -> In c s.
Proof.
  destruct (strip_infix s) as (p & q & Hs). intros H. rewrite Hs.
  apply in_or_app. right. apply in_or_app. now left.
Qed.

Lemma length_strip (s : str) : length (strip s) <= length s.
Proof.
  destruct (strip_infix s) as (p & q & Hs). rewrite Hs at 2.
  rewrite !length_app. lia.
Qed.

Lemma lstrip_head (s : str) :
  match lstrip s with
  | c :: _ => uni_space c = false
  | [] => True
  end.
Proof.
  induction s as [|c s IH]; simpl; [exact I|].
  destruct (uni_space c) eqn:E; [exact IH|exact E].
Qed.

(** A stripped text neither starts nor ends with white space. *)
Lemma strip_trimmed (s : str) :
  match strip s with
  | c :: _ => uni_space c = false /\ uni_space (List.last (strip s) c) = false
  | [] => True
  end.
Proof.
  unfold strip.
  pose proof (lstrip_head (rev (lstrip s))) as Hend.
  pose proof (lstrip_head s) as Hstart.
  set (t := lstrip s) in *. set (r := lstrip (rev t)) in *.
  destruct (rev r) as [|c w] eqn:Er; [exact I|].
  split.
  - (* the first character of [rev r] is the last of [r], a character of
       the end of [t], which starts with no space *)
    destruct (lstrip_suffix (rev t)) as (p & Hp). fold r in Hp.
    assert (Ht : t = rev r ++ rev p).
    { rewrite <- rev_app_distr, <- Hp. now rewrite rev_involutive. }
    rewrite Er in Ht. rewrite Ht in Hstart. exact Hstart.
  - assert (Hr : r = rev (c :: w)) by (rewrite <- Er; now rewrite rev_involutive).
    destruct r as [|x r']; [destruct w; discriminate|].
    assert (Hlast : List.last (c :: w) c = x).
    { assert (Hrev : c :: w = rev (x :: r')) by (rewrite Hr; now rewrite rev_involutive).
      rewrite Hrev. simpl. now rewrite last_last. }
    rewrite Hlast. exact Hend.
Qed.

End StripFacts.

(** ** [CutTextByWidth] *)

Section CutFacts.
Context {U : Unicode}.
Local Open Scope Z_scope.

Lemma char_width_bounds (c : char) : 1 <= char_width c <= 2.
Proof. unfold char_width. destruct (256 <? c)%N; lia. Qed.

Lemma total_width_app (a b : str) :
  total_width (a ++ b) = total_width a + total_width b.
Proof. induction a as [|c a IH]; simpl; [reflexivity|]. unfold total_width in *. simpl. lia. Qed.

Lemma total_width_nonneg (s : str) : 0 <= total_width s.
Proof.
  induction s as [|c s IH]; simpl; [lia|].
  pose proof (char_width_bounds c). unfold total_width in *. simpl. lia.
Qed.

Lemma total_width_rev (s : str) : total_width (rev s) = total_width s.
Proof.
  induction s as [|c s IH]; simpl; [reflexivity|].
  rewrite total_width_app, IH. unfold total_width. simpl. lia.
Qed.

Lemma total_width_firstn (n : nat) (s : str) : total_width (firstn n s) <= total_width s.
Proof.
  rewrite <- (firstn_skipn n s) at 2. rewrite total_width_app.
  pose proof (total_width_nonneg (skipn n s)). lia.
Qed.

Lemma total_width_strip (s : str) : total_width (strip s) <= total_width s.
Proof.
  destruct (strip_infix s) as (p & q & Hs). rewrite Hs at 2.
  rewrite !total_width_app.
  pose proof (total_width_nonneg p). pose proof (total_width_nonneg q). lia.
Qed.

Lemma total_width_dots : total_width (u "...") = 3.
Proof. reflexivity. Qed.

Lemma cut_result_width (result : str) :
  total_width (cut_result result) <= total_width result + 3.
Proof.
  unfold cut_result. destruct (length result) as [|i].
  - rewrite total_width_app, total_width_dots. lia.
  - destruct (scan_down _ result i _) as [j|].
    + pose proof (total_width_strip (firstn j result)).
      pose proof (total_width_firstn j result). lia.
    + destruct (scan_down _ result i _) as [j|].
      * rewrite total_width_app, total_width_dots.
        pose proof (total_width_strip (firstn j result)).
        pose proof (total_width_firstn j result). lia.
      * rewrite total_width_app, total_width_dots. lia.
Qed.

Lemma cut_loop_width (limit : Z) (text : str) : forall result width,
  total_width result + width = limit ->
  total_width result <= limit + 2 ->
  total_width (cut_loop text result width) <= limit + 5.
Proof.
  induction text as [|c text IH]; intros result width Hsum Hres; simpl.
  - lia.
  - destruct (width <? 0) eqn:E.
    + pose proof (cut_result_width result). lia.
    + apply Z.ltb_ge in E. pose proof (char_width_bounds c).
      apply IH; rewrite total_width_app; unfold total_width at 2; simpl; lia.
Qed.

Lemma total_width_cons (c : char) (s : str) :
  total_width (c :: s) = char_width c + total_width s.
Proof. reflexivity. Qed.

Lemma cut_loop_fits (text : str) : forall result width,
  total_width (removelast text) <= width ->
  cut_loop text result width = result ++ text.
Proof.
  induction text as [|c text IH]; intros result width Hfit.
  - simpl. now rewrite app_nil_r.
  - cbn [cut_loop].
    assert (Hw : 0 <= width).
    { pose proof (total_width_nonneg (removelast (c :: text))). lia. }
    apply Z.ltb_ge in Hw. rewrite Hw.
    destruct text as [|d text]; [reflexivity|].
    rewrite IH; [now rewrite <- app_assoc|].
    change (removelast (c :: d :: text)) with (c :: removelast (d :: text)) in Hfit.
    rewrite total_width_cons in Hfit. lia.
Qed.

Lemma cut_loop_cuts (text : str) : forall result width,
  0 <= width ->
  width < total_width (removelast text) ->
  exists read later,
    text = read ++ later /\ read <> [] /\ later <> [] /\
    total_width (removelast read) <= width < total_width read /\
    cut_loop text result width = cut_result (result ++ read).
Proof.
  induction text as [|c text IH]; intros result width Hw Hwide.
  - simpl in Hwide. lia.
  - pose proof (char_width_bounds c) as Hc.
    destruct text as [|d text]; [simpl in Hwide; lia|].
    change (removelast (c :: d :: text)) with (c :: removelast (d :: text)) in Hwide.
    rewrite total_width_cons in Hwide.
    assert (Hw' := Hw). apply Z.ltb_ge in Hw'.
    change (cut_loop (c :: d :: text) result width)
      with (if width <? 0 then cut_result result
            else cut_loop (d :: text) (result ++ [c]) (width - char_width c)).
    rewrite Hw'.
    destruct (Z_lt_le_dec (width - char_width c) 0) as [Hneg|Hpos].
    + exists [c], (d :: text). split; [reflexivity|]. split; [discriminate|].
      split; [discriminate|]. split.
      * change (removelast [c]) with (@nil N).
        rewrite total_width_cons. change (total_width []) with 0. lia.
      * cbn [cut_loop]. apply Z.ltb_lt in Hneg. now rewrite Hneg.
    + destruct (IH (result ++ [c]) (width - char_width c) Hpos)
        as (read & later & Htext & Hne & Hlater & Hbounds & Hcut); [lia|].
      exists (c :: read), later. split; [simpl; now f_equal|].
      split; [discriminate|]. split; [assumption|]. split.
      * destruct read as [|x read]; [congruence|].
        change (removelast (c :: x :: read)) with (c :: removelast (x :: read)).
        rewrite !total_width_cons. rewrite total_width_cons in Hbounds. lia.
      * rewrite Hcut. now rewrite <- app_assoc.
Qed.

End CutFacts.

Section CutProperties.
Context {U : Unicode}.
Local Open Scope Z_scope.

(** X1: [CutTextByWidth] returns the text unchanged as soon as the text
    without its last character fits in the width (a narrow character
    counts 1, one above code point 256 counts 2): the width is tested
    before a character is read, so the last character never causes a
    cut. *)
Theorem CutTextByWidth_fits (text : str) (width : Z) :
  total_width (removelast text) <= width ->
  CutTextByWidth text width = text.
Proof.
  intros Hfit. unfold CutTextByWidth. now rewrite cut_loop_fits.
Qed.

(** X2: for a width that is not negative, the text returned by
    [CutTextByWidth] is at most [width + 5] wide: up to 2 for the
    character that crossed the limit and 3 for the dots. *)
Theorem CutTextByWidth_width (text : str) (width : Z) :
  0 <= width ->
  total_width (CutTextByWidth text width) <= width + 5.
Proof.
  intros Hw. unfold CutTextByWidth.
  apply cut_loop_width; simpl; lia.
Qed.

(** X3: when the text without its last character does not fit in a
    width that is not negative, the result is made from a proper prefix
    of the text, the shortest one wider than the limit: it is that
    prefix or a shorter one, stripped, followed by ["..."], or a
    stripped shorter prefix alone when the cut falls on a semicolon. *)
Theorem CutTextByWidth_cut (text : str) (width : Z) :
  0 <= width ->
  width < total_width (removelast text) ->
  exists n k,
    (k <= n < length text)%nat /\
    total_width (removelast (firstn n text)) <= width < total_width (firstn n text) /\
    (CutTextByWidth text width = firstn n text ++ u "..." \/
     CutTextByWidth text width = strip (firstn k text) ++ u "..." \/
     (CutTextByWidth text width = strip (firstn k text) /\
      nth_error text k = Some 59%N)).
Proof.
  intros Hw Hwide. unfold CutTextByWidth.
  destruct (cut_loop_cuts text [] width Hw Hwide)
    as (read & later & Htext & Hne & Hlater & Hbounds & Hcut).
  rewrite Hcut. cbn [app].
  assert (Hread : read = firstn (length read) text).
  { rewrite Htext. rewrite firstn_app, Nat.sub_diag, firstn_all. simpl.
    now rewrite app_nil_r. }
  assert (Hlen : (length read < length text)%nat).
  { rewrite Htext, length_app. destruct later; [congruence|simpl; lia]. }
  assert (Hscan : forall p i m j,
            scan_down p read i m = Some j ->
            (j <= i)%nat /\ exists c, nth_error read j = Some c /\ p c = true).
  { intros p i m. revert i. induction m as [|m IH]; intros i j; [intros H; simpl in H; discriminate H|].
    cbn [scan_down]. destruct (nth_error read i) as [c|] eqn:Ec; [|discriminate].
    destruct (p c) eqn:Ep.
    - intros H. inversion H; subst. split; [lia|]. now exists c.
    - destruct i as [|i]; [discriminate|]. intros H.
      destruct (IH i j H) as [Hle Hc]. split; [lia|assumption]. }
  assert (Hfirst : forall j, (j <= length read)%nat -> firstn j read = firstn j text).
  { intros j Hj. rewrite Htext. rewrite firstn_app.
    replace (j - length read)%nat with 0%nat by lia. simpl. now rewrite app_nil_r. }
  unfold cut_result. destruct (length read) as [|i] eqn:Elen.
  - destruct read; [congruence|discriminate].
  - destruct (scan_down (N.eqb 59) read i (S i - Nat.max (i - 40) 20)) as [j|] eqn:E1.
    + destruct (Hscan _ _ _ _ E1) as (Hj & c & Hc & Hp).
      apply N.eqb_eq in Hp. subst c.
      exists (S i), j. split; [lia|]. rewrite <- Hread. split; [exact Hbounds|].
      right. right. rewrite Hfirst by lia. split; [reflexivity|].
      rewrite Htext. rewrite nth_error_app1; [exact Hc|lia].
    + destruct (scan_down (fun c => negb (is_word_letter c)) read i
                  (S i - Nat.max (i - 20) 20)) as [j|] eqn:E2.
      * destruct (Hscan _ _ _ _ E2) as (Hj & _).
        exists (S i), j. split; [lia|]. rewrite <- Hread. split; [exact Hbounds|].
        right. left. now rewrite Hfirst by lia.
      * exists (S i), 0%nat. split; [lia|]. rewrite <- Hread. split; [exact Hbounds|].
        now left.
Qed.

End CutProperties.

Lemma CutTextByWidth_fits_witness :
  CutTextByWidth (U := ascii_tables) (u "hello") 4 = u "hello".
Proof.
  apply (CutTextByWidth_fits (U := ascii_tables) (u "hello") 4).
  vm_compute. discriminate.
Defined.

Lemma CutTextByWidth_width_witness :
  (total_width (CutTextByWidth (U := ascii_tables)
                  (u "one two; three four five six seven eight nine ten") 40)
   <= 40 + 5)%Z.
Proof.
  apply (CutTextByWidth_width (U := ascii_tables)). lia.
Defined.

Lemma CutTextByWidth_cut_witness :
  exists n k,
    (k <= n < length (u "abcdefghij"))%nat /\
    (total_width (removelast (firstn n (u "abcdefghij"))) <= 3
     < total_width (firstn n (u "abcdefghij")))%Z /\
    (CutTextByWidth (U := ascii_tables) (u "abcdefghij") 3
     = firstn n (u "abcdefghij") ++ u "..." \/
     CutTextByWidth (U := ascii_tables) (u "abcdefghij") 3
     = strip (U := ascii_tables) (firstn k (u "abcdefghij")) ++ u "..." \/
     (CutTextByWidth (U := ascii_tables) (u "abcdefghij") 3
      = strip (U := ascii_tables) (firstn k (u "abcdefghij")) /\
      nth_error (u "abcdefghij") k = Some 59%N)).
Proof.
  apply (CutTextByWidth_cut (U := ascii_tables) (u "abcdefghij") 3).
  - lia.
  - vm_compute. reflexivity.
Defined.

(** ** [SanitizeText] and [MakeMainEntryItem] *)

Section ShownItemFacts.
Context {U : Unicode} {US : UnicodeScripts}.

Lemma In_sub_spaces_from (in_run : bool) (s : str) (c : char) :
  In c (sub_spaces_from in_run s) ->
  (c = 32%N \/ In c s) /\ (c = 32%N \/ is_space_script c = false).
Proof.
  revert in_run. induction s as [|x s IH]; intros in_run; simpl; [intros []|].
  destruct (is_space_script x) eqn:Ex.
  - destruct in_run.
    + intros H. destruct (IH _ H) as [[H1|H1] H2]; split; auto.
    + intros [<-|H]; [split; now left|].
      destruct (IH _ H) as [[H1|H1] H2]; split; auto.
  - intros [<-|H]; [split; [right; now left|now right]|].
    destruct (IH _ H) as [[H1|H1] H2]; split; auto.
Qed.

(** X4: a sanitized text holds no character beyond the basic plane
    (code point 65535) and no white-space or control character other
    than the plain space, and it neither starts nor ends with white
    space. *)
Theorem SanitizeText_clean (text : str) :
  (forall c, In c (SanitizeText text) ->
     (c <= 65535)%N /\ (c = 32%N \/ is_space_script c = false)) /\
  match SanitizeText text with
  | c :: _ => uni_space c = false /\ uni_space (List.last (SanitizeText text) c) = false
  | [] => True
  end.
Proof.
  split.
  - intros c Hc. unfold SanitizeText in Hc. apply In_strip in Hc.
    unfold sub_spaces in Hc. apply In_sub_spaces_from in Hc as [Hin Hsp].
    split; [|exact Hsp].
    destruct Hin as [->|Hin]; [discriminate|].
    unfold sub_nonbasic in Hin. apply in_map_iff in Hin as (x & <- & _).
    destruct (x <=? 65535)%N eqn:E; [now apply N.leb_le|discriminate].
  - unfold SanitizeText. apply strip_trimmed.
Qed.

Lemma take_drop_while (p : char -> bool) (s : str) :
  take_while p s ++ drop_while p s = s.
Proof.
  induction s as [|c s IH]; simpl; [reflexivity|].
  destruct (p c); simpl; [now f_equal|reflexivity].
Qed.

Lemma length_drop_while (p : char -> bool) (s : str) :
  length (drop_while p s) <= length s.
Proof.
  rewrite <- (take_drop_while p s) at 2. rewrite length_app. lia.
Qed.

Lemma match_attr_paren_length (text group rest : str) :
  match_attr_paren text = Some (group, rest) ->
  length rest + 3 <= length text.
Proof.
  unfold match_attr_paren.
  pose proof (length_drop_while (N.eqb 32) text) as H1.
  pose proof (length_drop_while (fun c => (c =? 44)%N || (c =? 12289)%N)
                (drop_while (N.eqb 32) text)) as H2.
  destruct (drop_while _ (drop_while (N.eqb 32) text)) as [|c r]; [discriminate|].
  destruct (is_open_paren c); [|discriminate].
  pose proof (take_drop_while (fun c => negb (is_close_paren c)) r) as Hr.
  destruct (drop_while (fun c => negb (is_close_paren c)) r) as [|x rest']; [discriminate|].
  destruct (take_while (fun c => negb (is_close_paren c)) r) as [|g group'] eqn:Eg;
    [discriminate|].
  cbn [nonempty]. intros H. inversion H; subst rest'. clear H.
  rewrite <- Hr in H2. simpl in H2. rewrite length_app in H2. simpl in H2. lia.
Qed.

Lemma attr_loop_fuel (fuel1 : nat) : forall fuel2 text,
  length text <= fuel1 -> length text <= fuel2 ->
  attr_loop fuel1 text = attr_loop fuel2 text.
Proof.
  induction fuel1 as [|fuel1 IH]; intros fuel2 text H1 H2.
  - destruct text; [|simpl in H1; lia]. destruct fuel2; reflexivity.
  - destruct fuel2 as [|fuel2].
    + destruct text; [reflexivity|simpl in H2; lia].
    + cbn [attr_loop].
      destruct (match_attr_paren text) as [[group rest]|] eqn:E; [|reflexivity].
      destruct (first_attr (split_attr group)); [|reflexivity].
      pose proof (match_attr_paren_length _ _ _ E) as Hlen.
      pose proof (length_strip rest) as Hs.
      rewrite (IH fuel2 (strip rest)) by lia. reflexivity.
Qed.

Lemma attr_loop_turns (fuel : nat) : forall text,
  3 * length (fst (attr_loop fuel text)) + length (snd (attr_loop fuel text))
  <= length text.
Proof.
  induction fuel as [|fuel IH]; intros text; [simpl; lia|].
  cbn [attr_loop].
  destruct (match_attr_paren text) as [[group rest]|] eqn:E; [|simpl; lia].
  destruct (first_attr (split_attr group)); [|simpl; lia].
  pose proof (match_attr_paren_length _ _ _ E) as Hlen.
  pose proof (length_strip rest) as Hs.
  specialize (IH (strip rest)).
  destruct (attr_loop fuel (strip rest)) as [annots text']. simpl in *. lia.
Qed.

Lemma dict_get_TEXT_ATTRS (name attr_label : str) :
  dict_get TEXT_ATTRS name = Some attr_label ->
  In attr_label [u "c"; u "u"; u "vi"; u "vt"].
Proof.
  unfold TEXT_ATTRS. cbn [dict_get].
  repeat match goal with
         | |- context [str_eqb ?k name] => destruct (str_eqb k name)
         end;
    intros H; inversion H; simpl; tauto.
Qed.

Lemma first_attr_known (names : list str) (attr_label : str) :
  first_attr names = Some attr_label ->
  In attr_label [u "c"; u "u"; u "vi"; u "vt"].
Proof.
  induction names as [|name names IH]; [discriminate|]. cbn [first_attr].
  destruct (dict_get TEXT_ATTRS name) as [v|] eqn:E; [|exact IH].
  destruct (nonempty v); [|exact IH].
  intros H. inversion H; subst. now apply (dict_get_TEXT_ATTRS name).
Qed.

Lemma attr_loop_known (fuel : nat) : forall text a,
  In a (fst (attr_loop fuel text)) -> In a [u "c"; u "u"; u "vi"; u "vt"].
Proof.
  induction fuel as [|fuel IH]; intros text a; [intros []|].
  cbn [attr_loop].
  destruct (match_attr_paren text) as [[group rest]|]; [|intros []].
  destruct (first_attr (split_attr group)) as [attr_label|] eqn:E; [|intros []].
  specialize (IH (strip rest) a).
  destruct (attr_loop fuel (strip rest)) as [annots text']. simpl in *.
  intros [<-|H]; [now apply (first_attr_known _ _ E)|now apply IH].
Qed.

Lemma startswith_app (p s : str) :
  startswith p s = true -> s = p ++ skipn (length p) s.
Proof.
  revert s. induction p as [|a p IH]; intros s; [reflexivity|].
  destruct s as [|b s]; [discriminate|]. simpl.
  intros H. apply andb_true_iff in H as [Hab H]. apply N.eqb_eq in Hab. subst b.
  f_equal. now apply IH.
Qed.

Lemma match_attr_head_shape (text name rest : str) :
  match_attr_head text = Some (name, rest) ->
  text = 91%N :: name ++ u "]: " ++ rest.
Proof.
  unfold match_attr_head. destruct text as [|c r]; [discriminate|].
  destruct (N.eq_dec c 91%N) as [->|Hc].
  - cbv zeta.
    destruct (nonempty (take_while (between 97 122) r)
              && startswith (u "]: ") (drop_while (between 97 122) r)) eqn:E;
      [|discriminate].
    apply andb_true_iff in E as [_ E]. intros H. inversion H; subst. clear H.
    f_equal. rewrite <- (take_drop_while (between 97 122) r) at 1. f_equal.
    now apply (startswith_app (u "]: ")).
  - intros H. exfalso.
    destruct c as [|c]; [discriminate|].
    repeat (destruct c as [c|c|]; try discriminate). congruence.
Qed.

(** X5: the text [MakeMainEntryItem] prints for an item is at most 165
    columns wide (160 for the limit passed to [CutTextByWidth], 2 for a
    wide character that crosses it, 3 for the dots). *)
Theorem MakeMainEntryItem_width (it : item) :
  (total_width (s_text (MakeMainEntryItem it)) <= 165)%Z.
Proof.
  unfold MakeMainEntryItem.
  destruct (match match_attr_head (SanitizeText (i_text it)) with
            | Some (name, rest) => _
            | None => _
            end) as [annots text].
  destruct (attr_loop (length text) text) as [more text']. simpl.
  pose proof (CutTextByWidth_width (clean_text text') 160 ltac:(lia)). lia.
Qed.

(** X6: every annotation [MakeMainEntryItem] prints is one of the codes
    [c], [u], [vi], [vt] of [TEXT_ATTRS] or the translation mark; the
    mark is printed only at the head, and only when the sanitized text
    starts with ["[translation]: "]. *)
Theorem MakeMainEntryItem_annots (it : item) :
  (forall a, In a (s_annots (MakeMainEntryItem it)) ->
     In a [[35379; 35486]%N; u "c"; u "u"; u "vi"; u "vt"]) /\
  (forall a, In a (tl (s_annots (MakeMainEntryItem it))) ->
     In a [u "c"; u "u"; u "vi"; u "vt"]) /\
  (hd [] (s_annots (MakeMainEntryItem it)) = [35379; 35486]%N ->
   startswith (u "[translation]: ") (SanitizeText (i_text it)) = true).
Proof.
  unfold MakeMainEntryItem.
  destruct (match_attr_head (SanitizeText (i_text it))) as [[name rest]|] eqn:Ehead.
  - pose proof (attr_loop_known (length (strip rest)) (strip rest)) as Hknown.
    destruct (attr_loop (length (strip rest)) (strip rest)) as [more text'].
    simpl in Hknown. simpl s_annots.
    destruct (str_eqb name (u "translation")) eqn:Ename.
    + split; [|split].
      * intros a [<-|H]; [now left|right; now apply Hknown].
      * intros a H. now apply Hknown.
      * intros _. unfold str_eqb in Ename. apply bool_decide_eq_true in Ename. subst name.
        rewrite (match_attr_head_shape _ _ _ Ehead). reflexivity.
    + split; [|split].
      * intros a H. right. now apply Hknown.
      * intros a H. apply Hknown. destruct more; [destruct H|now right].
      * intros H. exfalso. destruct more as [|m more]; [discriminate H|].
        simpl in H. subst m.
        assert (Hin : In [35379; 35486]%N [u "c"; u "u"; u "vi"; u "vt"])
          by (apply Hknown; now left).
        simpl in Hin. repeat destruct Hin as [Hin|Hin]; try discriminate Hin. exact Hin.
  - pose proof (attr_loop_known (length (SanitizeText (i_text it)))
                  (SanitizeText (i_text it))) as Hknown.
    destruct (attr_loop (length (SanitizeText (i_text it))) (SanitizeText (i_text it)))
      as [more text'].
    simpl in Hknown. simpl s_annots.
    split; [|split].
    + intros a H. right. now apply Hknown.
    + intros a H. apply Hknown. destruct more; [destruct H|now right].
    + intros H. exfalso. destruct more as [|m more]; [discriminate H|].
      simpl in H. subst m.
      assert (Hin : In [35379; 35486]%N [u "c"; u "u"; u "vi"; u "vt"])
        by (apply Hknown; now left).
      simpl in Hin. repeat destruct Hin as [Hin|Hin]; try discriminate Hin. exact Hin.
Qed.

(** X7: the loop of [MakeMainEntryItem] that reads leading bracketed
    attributes ends: every turn removes at least three characters, so
    it makes at most a third of the length of the text turns, and it
    gives the same result under any bound of at least that length. *)
Theorem attr_loop_terminates (text : str) (fuel : nat) :
  length text <= fuel ->
  attr_loop fuel text = attr_loop (length text) text /\
  3 * length (fst (attr_loop fuel text)) + length (snd (attr_loop fuel text))
  <= length text.
Proof.
  intros Hfuel. split; [apply attr_loop_fuel; lia|apply attr_loop_turns].
Qed.

End ShownItemFacts.

Lemma attr_loop_terminates_witness :
  length (u "(transitive) (countable) to take") <= 40 /\
  attr_loop (U := ascii_tables) 40 (u "(transitive) (countable) to take")
  = ([u "vt"; u "c"], u "to take").
Proof.
  split; [vm_compute; lia|].
  rewrite (proj1 (attr_loop_terminates (U := ascii_tables) (u "(transitive) (countable) to take") 40
                    ltac:(vm_compute; lia))).
  vm_compute. reflexivity.
Defined.

(** ** The word list: [ListUpWords] *)

Section WordListFacts.
Context {U : Unicode}.
Variable cfg : config.

Lemma py_max_bounds (a b : Q) :
  (a <= py_max a b)%Q /\ (b <= py_max a b)%Q /\ (py_max a b = a \/ py_max a b = b).
Proof.
  unfold py_max. destruct (Qltb a b) eqn:E.
  - apply Qltb_lt in E. split; [now apply Qlt_le_weak|]. split; [apply Qle_refl|now right].
  - apply Qltb_ge in E. split; [apply Qle_refl|]. split; [exact E|now left].
Qed.

Lemma fold_left_records {A B C} (f : A -> B -> A) (records : list (C * list B)) :
  forall init,
    fold_left (fun acc rec => fold_left f (snd rec) acc) records init =
    fold_left f (flat_map snd records) init.
Proof.
  induction records as [|rec records IH]; intros init; simpl; [reflexivity|].
  rewrite fold_left_app. apply IH.
Qed.

(** What the dictionary [words] holds after the entries [l]. *)
Lemma list_up_entries_lookup (input_dbm : dbm) (keywords : list str) (l : list entry)
    (w : str) :
  match fold_left (list_up_entry cfg input_dbm keywords) l ∅ !! w with
  | Some p =>
      (0 <= p)%Q /\
      (forall e, In e l -> truthy (IsGoodEntry cfg e input_dbm keywords) = true ->
                 e_word e = w -> (prob_of e <= p)%Q) /\
      (exists e, In e l /\ truthy (IsGoodEntry cfg e input_dbm keywords) = true /\
                 e_word e = w /\ (p = 0%Q \/ p = prob_of e))
  | None =>
      forall e, In e l -> e_word e = w ->
                truthy (IsGoodEntry cfg e input_dbm keywords) = false
  end.
Proof.
  induction l as [|e l IH] using rev_ind.
  - simpl. rewrite lookup_empty. intros e [].
  - rewrite fold_left_app. cbn [fold_left]. unfold list_up_entry at 1.
    set (words := fold_left (list_up_entry cfg input_dbm keywords) l ∅) in *.
    destruct (truthy (IsGoodEntry cfg e input_dbm keywords)) eqn:Egood; cbn [negb].
    + destruct (decide (e_word e = w)) as [Hw|Hw].
      * subst w. rewrite lookup_insert_eq.
        destruct (py_max_bounds (default 0%Q (words !! e_word e)) (prob_of e))
          as (Hold & Hnew & Hval).
        destruct (words !! e_word e) as [p|] eqn:Ep; cbn [default] in *.
        -- destruct IH as (Hpos & Hmax & e0 & He0 & Hgood0 & Hw0 & Hp0).
           split; [now apply Qle_trans with p|]. split.
           ++ intros e' He' Hgood' Hw'. apply in_app_or in He' as [He'|[<-|[]]].
              ** apply Qle_trans with p; [now apply Hmax|assumption].
              ** assumption.
           ++ destruct Hval as [Hval|Hval]; rewrite Hval.
              ** exists e0. split; [apply in_or_app; now left|]. now repeat split.
              ** exists e. split; [apply in_or_app; right; now left|].
                 split; [assumption|]. split; [reflexivity|now right].
        -- split; [exact Hold|]. split.
           ++ intros e' He' Hgood' Hw'. apply in_app_or in He' as [He'|[<-|[]]].
              ** rewrite (IH e' He' Hw') in Hgood'. discriminate.
              ** assumption.
           ++ exists e. split; [apply in_or_app; right; now left|].
              split; [assumption|]. split; [reflexivity|].
              destruct Hval as [-> | ->]; [now left|now right].
      * rewrite lookup_insert_ne by assumption.
        destruct (words !! w) as [p|].
        -- destruct IH as (Hpos & Hmax & e0 & He0 & Hrest).
           split; [assumption|]. split.
           ++ intros e' He' Hgood' Hw'. apply in_app_or in He' as [He'|[<-|[]]];
                [now apply Hmax|congruence].
           ++ exists e0. split; [apply in_or_app; now left|assumption].
        -- intros e' He' Hw'. apply in_app_or in He' as [He'|[<-|[]]];
             [now apply IH|congruence].
    + destruct (words !! w) as [p|].
      * destruct IH as (Hpos & Hmax & e0 & He0 & Hrest).
        split; [assumption|]. split.
        -- intros e' He' Hgood' Hw'. apply in_app_or in He' as [He'|[<-|[]]];
             [now apply Hmax|congruence].
        -- exists e0. split; [apply in_or_app; now left|assumption].
      * intros e' He' Hw'. apply in_app_or in He' as [He'|[<-|[]]];
          [now apply IH|assumption].
Qed.

Lemma phrasal_verb_mono (word : str) (poses keywords keywords' : list str) :
  (forall k, In k keywords -> In k keywords') ->
  phrasal_verb word poses keywords = true ->
  phrasal_verb word poses keywords' = true.
Proof.
  intros Hsub. unfold phrasal_verb.
  destruct (inb (u "verb") poses && fullmatch_az_space word); [|discriminate].
  destruct (split_on 32%N word) as [|head [|token tokens]]; try discriminate.
  intros H. apply andb_true_iff in H as [Hhead Hrest].
  apply andb_true_iff. split; [|exact Hrest].
  apply inb_In. apply Hsub. now apply inb_In.
Qed.

Lemma IsGoodEntry_keywords_mono (e : entry) (input_dbm : dbm)
    (keywords keywords' : list str) :
  (forall k, In k keywords -> In k keywords') ->
  truthy (IsGoodEntry cfg e input_dbm keywords) = true ->
  truthy (IsGoodEntry cfg e input_dbm keywords') = true.
Proof.
  intros Hsub. unfold IsGoodEntry, first_rules.
  destruct (search_outside_latin (e_word e)); [trivial|].
  destruct (fullmatch_ordinal (e_word e)); [trivial|].
  destruct (inb (e_word e) keywords) eqn:Ekw.
  - apply inb_In in Ekw. apply Hsub in Ekw. apply inb_In in Ekw. now rewrite Ekw.
  - destruct (inb (e_word e) keywords'); [reflexivity|].
    repeat match goal with
           | |- context [if ?b then Some _ else _] => destruct b; [trivial|]
           end.
    destruct (phrasal_verb (e_word e) (entry_poses e) keywords) eqn:Ep.
    + now rewrite (phrasal_verb_mono _ _ _ _ Hsub Ep).
    + destruct (phrasal_verb (e_word e) (entry_poses e) keywords'); [reflexivity|trivial].
Qed.

(** X8: [ListUpWords] records a word exactly when some entry of some
    record with that word passes [IsGoodEntry]; the value recorded is
    not negative, is at least the probability of every such entry, and
    is 0 or the probability of one of them. *)
Theorem ListUpWords_lookup (input_dbm : dbm) (records : list (str * list entry))
    (keywords : list str) (w : str) :
  match ListUpWords cfg input_dbm records keywords !! w with
  | Some p =>
      (0 <= p)%Q /\
      (forall e, In e (flat_map snd records) ->
                 truthy (IsGoodEntry cfg e input_dbm keywords) = true ->
                 e_word e = w -> (prob_of e <= p)%Q) /\
      (exists e, In e (flat_map snd records) /\
                 truthy (IsGoodEntry cfg e input_dbm keywords) = true /\
                 e_word e = w /\ (p = 0%Q \/ p = prob_of e))
  | None =>
      forall e, In e (flat_map snd records) -> e_word e = w ->
                truthy (IsGoodEntry cfg e input_dbm keywords) = false
  end.
Proof.
  unfold ListUpWords. rewrite fold_left_records. apply list_up_entries_lookup.
Qed.

(** X9: a longer keyword list never loses a word: every word listed
    with the keywords [keywords] is listed with any list that contains
    them, with a value that is at least as large. *)
Theorem ListUpWords_keywords_mono (input_dbm : dbm) (records : list (str * list entry))
    (keywords keywords' : list str) (w : str) (p : Q) :
  (forall k, In k keywords -> In k keywords') ->
  ListUpWords cfg input_dbm records keywords !! w = Some p ->
  exists p', ListUpWords cfg input_dbm records keywords' !! w = Some p' /\ (p <= p')%Q.
Proof.
  intros Hsub Hp. unfold ListUpWords in *. rewrite fold_left_records in *.
  pose proof (list_up_entries_lookup input_dbm keywords (flat_map snd records) w) as H1.
  pose proof (list_up_entries_lookup input_dbm keywords' (flat_map snd records) w) as H2.
  rewrite Hp in H1. destruct H1 as (_ & _ & e & He & Hgood & Hw & Hval).
  apply (IsGoodEntry_keywords_mono _ _ _ _ Hsub) in Hgood.
  destruct (fold_left (list_up_entry cfg input_dbm keywords') (flat_map snd records) ∅ !! w)
    as [p'|].
  - exists p'. split; [reflexivity|].
    destruct H2 as (Hpos & Hmax & _).
    destruct Hval as [-> | ->]; [assumption|now apply Hmax].
  - rewrite (H2 e He Hw) in Hgood. discriminate.
Qed.

Lemma parents_rule_none (input_dbm : dbm) (word : str) (parents : list str) :
  parents_rule input_dbm word parents = Some PyNone ->
  exists before parent after,
    parents = before ++ parent :: after /\
    input_dbm !! parent = None /\
    forall q, In q before ->
      exists entries, input_dbm !! q = Some entries /\ parent_admits word entries = false.
Proof.
  induction parents as [|parent parents IH]; [discriminate|]. simpl.
  destruct (input_dbm !! parent) as [entries|] eqn:E.
  - destruct (parent_admits word entries) eqn:Ea; [discriminate|].
    intros H. destruct (IH H) as (before & q & after & -> & Hq & Hbefore).
    exists (parent :: before), q, after. split; [reflexivity|]. split; [assumption|].
    intros q' [<-|Hq']; [now exists entries|now apply Hbefore].
  - intros _. exists [], parent, parents. split; [reflexivity|]. split; [assumption|].
    intros q [].
Qed.

(** X10: the bare [return] is the only way [IsGoodEntry] answers
    neither [True] nor [False]: it happens only when no rule before the
    parent loop decides and the loop comes to a parent key without a
    record, every parent before it having a record that admits
    nothing. *)
Theorem IsGoodEntry_none (e : entry) (input_dbm : dbm) (keywords : list str) :
  IsGoodEntry cfg e input_dbm keywords = PyNone ->
  first_rules cfg e keywords = None /\
  phrasal_verb (e_word e) (entry_poses e) keywords = false /\
  translated_rule e = false /\
  exists before parent after,
    e_parent e = before ++ parent :: after /\
    input_dbm !! parent = None /\
    forall q, In q before ->
      exists entries,
        input_dbm !! q = Some entries /\ parent_admits (e_word e) entries = false.
Proof.
  unfold IsGoodEntry.
  destruct (first_rules cfg e keywords) as [r|] eqn:Efirst.
  - intros ->. exfalso. revert Efirst. unfold first_rules.
    repeat match goal with
           | |- context [if ?b then _ else _] => destruct b
           end; discriminate.
  - destruct (phrasal_verb (e_word e) (entry_poses e) keywords); [discriminate|].
    destruct (translated_rule e); [discriminate|].
    destruct (parents_rule input_dbm (e_word e) (e_parent e)) as [r|] eqn:Ep.
    + intros ->. repeat split. now apply parents_rule_none.
    + intros H. exfalso. now apply (final_rules_decides _ _ H).
Qed.

End WordListFacts.

Lemma ListUpWords_keywords_mono_witness :
  exists p',
    ListUpWords (U := ascii_tables) (default_config false) ∅
      [(u "look up", [look_up_verb])] [u "look"; u "see"] !! u "look up" = Some p' /\
    (5 # 1000000 <= p')%Q.
Proof.
  apply (ListUpWords_keywords_mono (U := ascii_tables) (default_config false) ∅
           [(u "look up", [look_up_verb])] [u "look"]).
  - intros k [<-|[]]. now left.
  - vm_compute. reflexivity.
Defined.

Lemma IsGoodEntry_none_witness :
  first_rules (U := ascii_tables) (default_config false) orphan_entry [] = None /\
  exists before parent after,
    e_parent orphan_entry = before ++ parent :: after /\
    (∅ : dbm) !! parent = None.
Proof.
  destruct (IsGoodEntry_none (U := ascii_tables) (default_config false) orphan_entry ∅ [])
    as (H1 & _ & _ & before & parent & after & H2 & H3 & _).
  - vm_compute. reflexivity.
  - split; [exact H1|]. now exists before, parent, after.
Defined.

(** ** The inflection map and the errors of the main pass *)

Section MainPassErrors.
Context {U : Unicode} {RT : Runtime}.
Variable cfg : config.

Lemma split_on_no_sep (c : char) (s piece : str) :
  In piece (split_on c s) -> ~ In c piece.
Proof.
  revert piece. induction s as [|x s IH]; intros piece; simpl.
  - intros [<-|[]] [].
  - destruct (x =? c)%N eqn:E.
    + intros [<-|H]; [intros []|now apply IH].
    + apply N.eqb_neq in E.
      destruct (split_on c s) as [|p ps].
      * intros [<-|[]] [Hx|[]]. congruence.
      * intros [<-|H].
        -- intros [Hx|Hp]; [congruence|]. now apply (IH p (or_introl eq_refl)).
        -- apply IH. now right.
Qed.

Lemma entry_infls_shape (e : entry) (infl : str) :
  In infl (entry_infls e) ->
  infl <> [] /\ ~ In 44%N infl /\
  match infl with
  | c :: _ => uni_space c = false /\ uni_space (List.last infl c) = false
  | [] => True
  end.
Proof.
  unfold entry_infls. rewrite in_flat_map. intros (name & _ & H).
  destruct (e_infl e name) as [value|]; [|destruct H].
  unfold infl_values in H. apply filter_In in H as [H Hne].
  apply in_map_iff in H as (piece & <- & Hpiece).
  split; [now destruct (strip piece)|]. split.
  - intros Hin. apply In_strip in Hin. now apply (split_on_no_sep _ _ _ Hpiece).
  - apply strip_trimmed.
Qed.


Lemma gloss_text_raise (e : entry) (x : exn) :
  gloss_text e = Raise x <-> x = IndexError /\ e_translation e = [] /\ e_item e = [].
Proof.
  unfold gloss_text. destruct (e_translation e) as [|t ts]; simpl.
  - destruct (e_item e) as [|it its]; split.
    + intros H. inversion H. auto.
    + intros (-> & _). reflexivity.
    + discriminate.
    + intros (_ & _ & H). discriminate.
  - split; [discriminate|]. intros (_ & H & _). discriminate.
Qed.

Lemma parent_glosses_raise (entries : list entry) : forall x,
  parent_glosses entries = Raise x <-> x = IndexError /\ gloss_fails entries.
Proof.
  induction entries as [|e entries IH]; intros x; simpl.
  - split; [discriminate|]. intros (_ & before & pe & after & H & _).
    now destruct before.
  - destruct (share_below e (parent_min_share (e_word e))) eqn:Ecut.
    + split; [discriminate|]. intros (_ & before & pe & after & H & Hbefore & Hpe & _).
      destruct before as [|b before]; inversion H; subst.
      * congruence.
      * rewrite (Hbefore b (or_introl eq_refl)) in Ecut. discriminate.
    + destruct (gloss_text e) as [text|y] eqn:Etext; simpl.
      * destruct (parent_glosses entries) as [glosses|y] eqn:Erest; simpl.
        -- split; [discriminate|]. intros (Hx & before & pe & after & H & Hbefore & Hpe & Ht & Hi).
           destruct before as [|b before]; inversion H; subst.
           ++ assert (Hr : gloss_text pe = Raise IndexError)
                by (apply gloss_text_raise; auto).
              congruence.
           ++ assert (Hr : Ok glosses = Raise IndexError :> outcome (list (str * str))).
              { apply IH. split; [reflexivity|]. exists before, pe, after.
                split; [reflexivity|]. split; [|auto].
                intros b' Hb'. apply Hbefore. now right. }
              discriminate.
        -- destruct (proj1 (IH y) eq_refl)
             as (-> & before & pe & after & -> & Hbefore & Hrest).
           split.
           ++ intros H. inversion H; subst.
              split; [reflexivity|]. exists (e :: before), pe, after.
              split; [reflexivity|]. split; [|exact Hrest].
              intros b [<-|Hb]; [assumption|now apply Hbefore].
           ++ intros (-> & _). reflexivity.
      * apply gloss_text_raise in Etext as (-> & Ht & Hi). split.
        -- intros H. inversion H; subst. split; [reflexivity|].
           exists [], e, entries. split; [reflexivity|]. split; [intros b []|auto].
        -- intros (-> & _). reflexivity.
Qed.

Lemma all_parent_glosses_raise (input_dbm : dbm) (parents : list str) : forall x,
  all_parent_glosses input_dbm parents = Raise x <->
  x = IndexError /\
  exists parent entries,
    In parent parents /\ input_dbm !! parent = Some entries /\ gloss_fails entries.
Proof.
  induction parents as [|parent parents IH]; intros x; simpl.
  - split; [discriminate|]. now intros (_ & p & es & [] & _).
  - unfold MakeMainEntryParentItem.
    destruct (input_dbm !! parent) as [entries|] eqn:Ep.
    + destruct (parent_glosses entries) as [glosses|y] eqn:Eg; simpl.
      * destruct (all_parent_glosses input_dbm parents) as [more|y] eqn:Emore; simpl.
        -- split; [discriminate|]. intros (Hx & p & es & [<-|Hp] & Hes & Hfail).
           ++ assert (Hr : parent_glosses es = Raise IndexError)
                by (apply parent_glosses_raise; auto).
              congruence.
           ++ assert (Hr : Ok more = Raise IndexError :> outcome (list (str * str))).
              { apply IH. split; [reflexivity|]. now exists p, es. }
              discriminate.
        -- destruct (proj1 (IH y) eq_refl) as (-> & p & es & Hp & Hrest).
           split.
           ++ intros H. inversion H; subst.
              split; [reflexivity|]. exists p, es. split; [now right|exact Hrest].
           ++ intros (-> & _). reflexivity.
      * apply parent_glosses_raise in Eg as (-> & Hfail). split.
        -- intros H. inversion H; subst. split; [reflexivity|].
           exists parent, entries. split; [now left|]. now split.
        -- intros (-> & _). reflexivity.
    + simpl.
      destruct (all_parent_glosses input_dbm parents) as [more|y] eqn:Emore; simpl.
      * split; [discriminate|]. intros (Hx & p & es & [<-|Hp] & Hes & Hfail).
        -- congruence.
        -- assert (Hr : Ok more = Raise IndexError :> outcome (list (str * str))).
           { apply IH. split; [reflexivity|]. now exists p, es. }
           discriminate.
      * destruct (proj1 (IH y) eq_refl) as (-> & p & es & Hp & Hrest).
        split.
        -- intros H. inversion H; subst.
           split; [reflexivity|]. exists p, es. split; [now right|exact Hrest].
        -- intros (-> & _). reflexivity.
Qed.

(** X11: every inflection the map of [MakeMain] knows is a trimmed,
    non-empty piece of a comma-separated attribute value: it is not
    empty, holds no comma, and neither starts nor ends with white
    space. *)
Theorem make_inflections_keys (input_dbm : dbm) (keys : list str)
    (inflections : gmap str str) (infl word : str) :
  make_inflections input_dbm keys = Ok inflections ->
  inflections !! infl = Some word ->
  infl <> [] /\ ~ In 44%N infl /\
  match infl with
  | c :: _ => uni_space c = false /\ uni_space (List.last infl c) = false
  | [] => True
  end.
Proof.
  intros Hmap Hinfl.
  pose proof (make_inflections_spec _ _ _ Hmap infl) as H. rewrite Hinfl in H.
  destruct H as (e & prob & _ & _ & _ & Hin & _).
  now apply (entry_infls_shape e).
Qed.


(** X13: [MakeMainEntry] raises nothing but [IndexError], and it raises
    it in exactly two cases: the entry has no items (line 549), or the
    entry is rendered and one of its parents has a record in which the
    loop of [MakeMainEntryParentItem] reaches an entry with neither
    translations nor items (line 679). *)
Theorem MakeMainEntry_raises (st : counters) (e : entry) (input_dbm : dbm)
    (keys : list str) (inflections : gmap str str) (x : exn) :
  MakeMainEntry cfg st e input_dbm keys inflections = Raise x <->
  x = IndexError /\
  (e_item e = [] \/
   exists best_label parent entries,
     choose_best_label cfg e = Ok best_label /\
     chosen_items cfg e best_label <> [] /\
     In parent (e_parent e) /\ input_dbm !! parent = Some entries /\
     gloss_fails entries).
Proof.
  destruct (e_item e) as [|it its] eqn:Eitems.
  - unfold MakeMainEntry. rewrite (choose_best_label_no_item cfg e Eitems). simpl.
    split.
    + intros H. inversion H. split; [reflexivity|now left].
    + intros (-> & _). reflexivity.
  - destruct (choose_best_label_total cfg e) as (best_label & Hlabel); [congruence|].
    rewrite (MakeMainEntry_chosen _ st e input_dbm keys inflections _ Hlabel).
    destruct (nonempty (chosen_items cfg e best_label)) eqn:Ene.
    + destruct (all_parent_glosses input_dbm (e_parent e)) as [glosses|y] eqn:Eg; simpl.
      * split; [discriminate|].
        intros (-> & [H|(l & parent & entries & _ & _ & Hp & Hentries & Hfail)]);
          [discriminate|].
        assert (Hr : all_parent_glosses input_dbm (e_parent e) = Raise IndexError).
        { apply all_parent_glosses_raise. split; [reflexivity|]. now exists parent, entries. }
        congruence.
      * apply all_parent_glosses_raise in Eg as (-> & parent & entries & Hp & He & Hfail).
        split.
        -- intros H. inversion H; subst. split; [reflexivity|]. right.
           exists best_label, parent, entries.
           split; [exact Hlabel|]. split; [now apply nonempty_true|auto].
        -- intros (-> & _). reflexivity.
    + split; [discriminate|].
      intros (_ & [H|(l & parent & entries & Hl & Hne & _)]); [discriminate|].
      rewrite Hlabel in Hl. inversion Hl; subst.
      apply nonempty_true in Hne. congruence.
Qed.

End MainPassErrors.

Lemma make_inflections_keys_witness :
  u "ran2ed" <> [] /\ ~ In 44%N (u "ran2ed").
Proof.
  destruct (make_inflections (U := ascii_tables) ran_store [u "ran2"; u "run"])
    as [inflections|x] eqn:E; [|vm_compute in E; discriminate].
  destruct (make_inflections_keys (U := ascii_tables) ran_store [u "ran2"; u "run"]
              inflections (u "ran2ed") (u "ran2") E) as (H1 & H2 & _).
  - vm_compute in E. inversion E. vm_compute. reflexivity.
  - now split.
Defined.


(** ** The counters and the groups of the main pass *)

Section CounterFacts.
Context {U : Unicode} {RT : Runtime}.
Variable cfg : config.

Lemma label_total_count (best_label : option str) (m : gmap (option str) nat) :
  label_total (<[best_label := S (default 0 (m !! best_label))]> m) = S (label_total m).
Proof.
  unfold label_total.
  destruct (m !! best_label) as [n|] eqn:E; simpl.
  - rewrite <- (insert_delete_eq m).
    rewrite map_fold_insert_L; [|intros; lia|apply lookup_delete_eq].
    rewrite (map_fold_delete_L _ _ best_label n m); [lia|intros; lia|exact E].
  - rewrite map_fold_insert_L; [lia|intros; lia|exact E].
Qed.

Lemma counted_refl (st : counters) : counted st st [] 0.
Proof. unfold counted. simpl. repeat split; lia. Qed.

Lemma counted_trans (st st1 st2 : counters) (rs1 rs2 : list rendered) (n1 n2 : nat) :
  counted st st1 rs1 n1 -> counted st1 st2 rs2 n2 ->
  counted st st2 (rs1 ++ rs2) (n1 + n2).
Proof.
  unfold counted. intros (A1 & A2 & A3 & A4 & A5) (B1 & B2 & B3 & B4 & B5).
  rewrite !map_app, !list_sum_app, List.filter_app, !length_app.
  repeat split; lia.
Qed.

Lemma MakeMainEntry_counted st e input_dbm keys inflections r st' :
  MakeMainEntry cfg st e input_dbm keys inflections = Ok (r, st') ->
  counted st st' (option_list r) 1.
Proof.
  unfold MakeMainEntry, bind.
  destruct (choose_best_label cfg e) as [best_label|]; [|discriminate].
  destruct (negb (nonempty (chosen_items cfg e best_label))).
  - intros H. inversion H; subst. unfold counted. simpl.
    rewrite label_total_count. repeat split; lia.
  - destruct (all_parent_glosses input_dbm (e_parent e)); [|discriminate].
    intros H. inversion H; subst. unfold counted. simpl.
    rewrite label_total_count.
    destruct (nonempty (firstn 6 (e_translation e))); simpl; repeat split; lia.
Qed.

Lemma make_entries_counted entries : forall st input_dbm keys inflections rs st',
  make_entries cfg st entries input_dbm keys inflections = Ok (rs, st') ->
  counted st st' rs (length entries).
Proof.
  induction entries as [|e entries IH]; intros st input_dbm keys inflections rs st'; simpl.
  - intros H. inversion H; subst. apply counted_refl.
  - unfold bind.
    destruct (MakeMainEntry cfg st e input_dbm keys inflections) as [[r st1]|] eqn:E;
      [|discriminate].
    simpl.
    destruct (make_entries cfg st1 entries input_dbm keys inflections)
      as [[rs1 st2]|] eqn:E1; [|discriminate].
    intros H. inversion H; subst. simpl.
    apply MakeMainEntry_counted in E. apply IH in E1.
    pose proof (counted_trans _ _ _ _ _ _ _ E E1) as Hc.
    destruct r; exact Hc.
Qed.

Lemma make_entries_items entries : forall st input_dbm keys inflections rs st' r,
  make_entries cfg st entries input_dbm keys inflections = Ok (rs, st') ->
  In r rs -> 1 <= length (r_items r) <= max_shown_items cfg.
Proof.
  induction entries as [|e entries IH]; intros st input_dbm keys inflections rs st' r; simpl.
  - intros H. inversion H; subst. intros [].
  - unfold bind.
    destruct (MakeMainEntry cfg st e input_dbm keys inflections) as [[o st1]|] eqn:E;
      [|discriminate].
    simpl.
    destruct (make_entries cfg st1 entries input_dbm keys inflections)
      as [[rs1 st2]|] eqn:E1; [|discriminate].
    intros H. inversion H; subst. simpl.
    destruct o as [r0|]; [intros [<-|Hr]|intros Hr]; try (now apply (IH _ _ _ _ _ _ _ E1)).
    destruct (MakeMainEntry_items _ _ _ _ _ _ _ _ E) as (best_label & _ & Hne & ->).
    now apply MergeShownItems_bounds.
Qed.

Lemma make_keys_counted todo : forall st input_dbm keys inflections out st',
  make_keys cfg st todo input_dbm keys inflections = Ok (out, st') ->
  counted st st' (flat_map snd out)
    (length (flat_map (fun key => shown_entries (stored input_dbm key)) todo)) /\
  (forall r, In r (flat_map snd out) -> 1 <= length (r_items r) <= max_shown_items cfg) /\
  Forall2
    (fun key group =>
       exists c rest,
         key = c :: rest /\
         fst group = (if is_az c then [c] else u "_") /\
         sublist (map r_word (snd group))
                 (map e_word (shown_entries (stored input_dbm key))))
    todo out.
Proof.
  induction todo as [|key todo IH]; intros st input_dbm keys inflections out st'; simpl.
  - intros H. inversion H; subst. simpl.
    split; [apply counted_refl|]. split; [intros r []|constructor].
  - unfold bind.
    destruct (GetKeyPrefix key) as [key_prefix|] eqn:Eprefix; [|discriminate].
    destruct (make_entries cfg st (shown_entries (stored input_dbm key))
                input_dbm keys inflections) as [[rs st1]|] eqn:E; [|discriminate].
    simpl.
    destruct (make_keys cfg st1 todo input_dbm keys inflections)
      as [[more st2]|] eqn:E1; [|discriminate].
    intros H. inversion H; subst. simpl.
    destruct (IH _ _ _ _ _ _ E1) as (Hc & Hitems & Hgroups).
    split; [|split].
    + rewrite length_app.
      exact (counted_trans _ _ _ _ _ _ _ (make_entries_counted _ _ _ _ _ _ _ E) Hc).
    + intros r Hr. apply in_app_or in Hr as [Hr|Hr]; [|now apply Hitems].
      exact (make_entries_items _ _ _ _ _ _ _ _ E Hr).
    + constructor; [|exact Hgroups].
      destruct key as [|c rest]; [discriminate|].
      exists c, rest. simpl in Eprefix. inversion Eprefix; subst.
      split; [reflexivity|]. split; [reflexivity|].
      exact (make_entries_words _ _ _ _ _ _ _ _ E).
Qed.

Lemma list_sum_bounds {A} (f : A -> nat) (lo hi : nat) (l : list A) :
  (forall x, In x l -> lo <= f x <= hi) ->
  lo * length l <= list_sum (map f l) <= hi * length l.
Proof.
  induction l as [|x l IH]; intros H; simpl; [lia|].
  pose proof (H x (or_introl eq_refl)).
  assert (lo * length l <= list_sum (map f l) <= hi * length l)
    by (apply IH; intros y Hy; apply H; now right).
  lia.
Qed.

Lemma length_filter_le {A} (p : A -> bool) (l : list A) :
  length (List.filter p l) <= length l.
Proof.
  induction l as [|x l IH]; simpl; [lia|]. destruct (p x); simpl; lia.
Qed.

(** X14: the statistics of a run that ends.  After [MakeMain],
    [num_words] has grown by the number of rendered entries,
    [num_trans] by the number of those with translations, [num_items]
    by the number of their shown items and [num_aux_items] by the
    number of those flagged as auxiliary; hence every rendered word
    accounts for between one and ten (eight with [--shrink]) items, and
    neither the translated words nor the auxiliary items outnumber the
    words and the items. *)
Theorem MakeMain_counters (st : counters) (input_dbm : dbm) (keys : list str)
    (out : list (str * list rendered)) (st' : counters) :
  MakeMain cfg st input_dbm keys = Ok (out, st') ->
  let rs := flat_map snd out in
  num_words st' = num_words st + length rs /\
  num_trans st' =
    num_trans st + length (List.filter (fun r => nonempty (r_translations r)) rs) /\
  num_items st' = num_items st + list_sum (map (fun r => length (r_items r)) rs) /\
  num_aux_items st' =
    num_aux_items st +
    list_sum (map (fun r => length (List.filter i_is_aux (r_items r))) rs) /\
  num_trans st' - num_trans st <= num_words st' - num_words st /\
  num_words st' - num_words st <= num_items st' - num_items st /\
  num_items st' - num_items st
    <= (if shrink cfg then 8 else 10) * (num_words st' - num_words st) /\
  num_aux_items st' - num_aux_items st <= num_items st' - num_items st.
Proof.
  unfold MakeMain, bind.
  destruct (make_inflections input_dbm keys) as [inflections|]; [|discriminate].
  intros H. cbv zeta.
  apply make_keys_counted in H as ((H1 & H2 & H3 & H4 & _) & Hitems & _).
  set (rs := flat_map snd out) in *.
  pose proof (bands_ordered cfg) as (_ & _ & _ & Hmax). rewrite Hmax in Hitems.
  pose proof (list_sum_bounds (fun r => length (r_items r)) 1 _ rs Hitems) as Hsum.
  pose proof (length_filter_le (fun r => nonempty (r_translations r)) rs) as Htrans.
  assert (Haux : list_sum (map (fun r => length (List.filter i_is_aux (r_items r))) rs)
                 <= list_sum (map (fun r => length (r_items r)) rs)).
  { clear. induction rs as [|r rs IH]; simpl; [lia|].
    pose proof (length_filter_le i_is_aux (r_items r)). lia. }
  repeat split; try assumption; try lia.
  replace (num_words st' - num_words st) with (length rs) by lia.
  destruct (shrink cfg); lia.
Qed.

(** X15: the adoption counters count calls, not rendered entries: after
    [MakeMain] their sum has grown by the number of entries handed to
    [MakeMainEntry] (for every key, the stored entries before the first
    one with a low share), which is at least the number of rendered
    entries counted by [num_words]. *)
Theorem MakeMain_label_counters (st : counters) (input_dbm : dbm) (keys : list str)
    (out : list (str * list rendered)) (st' : counters) :
  MakeMain cfg st input_dbm keys = Ok (out, st') ->
  label_total (label_counters st') =
    label_total (label_counters st) +
    length (flat_map (fun key => shown_entries (stored input_dbm key)) keys) /\
  num_words st' - num_words st <= label_total (label_counters st') -
                                  label_total (label_counters st).
Proof.
  unfold MakeMain, bind.
  destruct (make_inflections input_dbm keys) as [inflections|]; [|discriminate].
  intros H. apply make_keys_counted in H as ((H1 & _ & _ & _ & H5) & _ & Hgroups).
  split; [exact H5|]. rewrite H1, H5.
  assert (Hlen : length (flat_map snd out)
                 <= length (flat_map (fun key => shown_entries (stored input_dbm key)) keys)).
  { clear -Hgroups. induction Hgroups as [|key group keys out Hg _ IH]; simpl; [lia|].
    destruct Hg as (c & rest & _ & _ & Hsub). apply sublist_length in Hsub.
    rewrite !length_map in Hsub. rewrite !length_app.
    apply Nat.add_le_mono; assumption. }
  lia.
Qed.

(** X16: [MakeMain] writes one group per key, in the order of the keys;
    the file prefix of a group is the first character of its key when
    that is a letter a-z and ["_"] otherwise, and the words rendered in
    the group are words of the entries stored under the key, before the
    first one with a low share, in stored order. *)
Theorem MakeMain_groups (st : counters) (input_dbm : dbm) (keys : list str)
    (out : list (str * list rendered)) (st' : counters) :
  MakeMain cfg st input_dbm keys = Ok (out, st') ->
  Forall2
    (fun key group =>
       exists c rest,
         key = c :: rest /\
         fst group = (if is_az c then [c] else u "_") /\
         sublist (map r_word (snd group))
                 (map e_word (shown_entries (stored input_dbm key))))
    keys out.
Proof.
  unfold MakeMain, bind.
  destruct (make_inflections input_dbm keys) as [inflections|]; [|discriminate].
  intros H. now apply make_keys_counted in H as (_ & _ & Hgroups).
Qed.

End CounterFacts.

Lemma MakeMain_counters_witness :
  exists out st',
    MakeMain (U := ascii_tables) (RT := first_seen_runtime) (default_config false)
      no_counters ran_store [u "ran2"; u "run"] = Ok (out, st') /\
    num_words st' = length (flat_map snd out) /\
    num_words st' <= num_items st'.
Proof.
  destruct (MakeMain (U := ascii_tables) (RT := first_seen_runtime) (default_config false)
              no_counters ran_store [u "ran2"; u "run"]) as [[out st']|x] eqn:E;
    [|vm_compute in E; discriminate].
  exists out, st'. split; [reflexivity|].
  destruct (MakeMain_counters (U := ascii_tables) (RT := first_seen_runtime)
              (default_config false) no_counters ran_store [u "ran2"; u "run"] out st' E)
    as (H1 & _ & _ & _ & _ & H6 & _).
  simpl in H1, H6. split; [exact H1|]. rewrite !Nat.sub_0_r in H6. exact H6.
Defined.

Lemma MakeMain_label_counters_witness :
  exists out st',
    MakeMain (U := ascii_tables) (RT := first_seen_runtime) (default_config false)
      no_counters ran_store [u "ran2"; u "run"] = Ok (out, st') /\
    label_total (label_counters st') = 2.
Proof.
  destruct (MakeMain (U := ascii_tables) (RT := first_seen_runtime) (default_config false)
              no_counters ran_store [u "ran2"; u "run"]) as [[out st']|x] eqn:E;
    [|vm_compute in E; discriminate].
  exists out, st'. split; [reflexivity|].
  rewrite (proj1 (MakeMain_label_counters (U := ascii_tables) (RT := first_seen_runtime)
                    (default_config false) no_counters ran_store [u "ran2"; u "run"]
                    out st' E)).
  vm_compute. reflexivity.
Defined.

Lemma MakeMain_groups_witness :
  exists out st',
    MakeMain (U := ascii_tables) (RT := first_seen_runtime) (default_config false)
      no_counters ran_store [u "ran2"; u "run"] = Ok (out, st') /\
    length out = 2.
Proof.
  destruct (MakeMain (U := ascii_tables) (RT := first_seen_runtime) (default_config false)
              no_counters ran_store [u "ran2"; u "run"]) as [[out st']|x] eqn:E;
    [|vm_compute in E; discriminate].
  exists out, st'. split; [reflexivity|].
  pose proof (MakeMain_groups (U := ascii_tables) (RT := first_seen_runtime)
                (default_config false) no_counters ran_store [u "ran2"; u "run"]
                out st' E) as H.
  apply Forall2_length in H. simpl in H. now symmetry.
Defined.

(** ** The supplementary pass of [MergeShownItems] *)

Section SupplementFacts.
Context {U : Unicode} {RT : Runtime}.
Variable cfg : config.

Lemma merge_sub_spec references sub_items : forall merged_items marked,
  exists appended,
    merge_sub cfg references sub_items merged_items marked =
      (merged_items ++ appended, rev (map fst appended) ++ marked) /\
    sublist appended sub_items /\
    (appended <> [] -> length (merged_items ++ appended) <= mid_shown_items cfg).
Proof.
  induction sub_items as [|o sub_items IH]; intros merged_items marked; simpl.
  - exists []. rewrite app_nil_r. split; [reflexivity|]. split; [constructor|congruence].
  - destruct (mid_shown_items cfg <=? length merged_items) eqn:Emid.
    + exists []. rewrite app_nil_r. split; [reflexivity|].
      split; [apply sublist_nil_l|congruence].
    + apply Nat.leb_gt in Emid.
      destruct (skip_sub_item references o).
      * destruct (IH merged_items marked) as (appended & Heq & Hsub & Hlen).
        exists appended. split; [exact Heq|]. split; [now constructor|exact Hlen].
      * destruct (IH (merged_items ++ [o]) (fst o :: marked)) as (appended & Heq & Hsub & Hlen).
        exists (o :: appended). rewrite Heq. simpl. rewrite <- !app_assoc. simpl.
        split; [reflexivity|]. split; [now constructor|].
        intros _. destruct appended as [|o' appended].
        -- rewrite length_app. simpl. lia.
        -- specialize (Hlen ltac:(discriminate)). rewrite <- app_assoc in Hlen. exact Hlen.
Qed.

Lemma merge_objects_spec (items sub_items : list obj) :
  exists appended,
    merge_objects cfg items sub_items =
      (firstn (max_shown_items cfg) items ++ appended, rev (map fst appended)) /\
    sublist appended sub_items /\
    (min_shown_items cfg <= length items -> appended = []) /\
    (appended <> [] ->
     length (firstn (max_shown_items cfg) items ++ appended) <= mid_shown_items cfg).
Proof.
  unfold merge_objects. rewrite merge_primary_take. simpl. rewrite Nat.sub_0_r.
  pose proof (bands_ordered cfg) as (Hmin & Hmid & Hmax & _).
  destruct ((length (firstn (max_shown_items cfg) items) <? min_shown_items cfg)
            && nonempty sub_items) eqn:E.
  - apply andb_true_iff in E as [E _]. apply Nat.ltb_lt in E.
    destruct (merge_sub_spec (make_references (firstn (max_shown_items cfg) items))
                sub_items (firstn (max_shown_items cfg) items) [])
      as (appended & Heq & Hsub & Hlen).
    exists appended. rewrite Heq, app_nil_r. split; [reflexivity|].
    split; [exact Hsub|]. split; [|exact Hlen].
    intros Hitems. rewrite length_firstn in E. lia.
  - exists []. rewrite app_nil_r. split; [reflexivity|].
    split; [apply sublist_nil_l|]. split; [reflexivity|congruence].
Qed.

Lemma sublist_In {A} (l1 l2 : list A) (x : A) : sublist l1 l2 -> In x l1 -> In x l2.
Proof.
  intros Hsub. induction Hsub as [|y l1 l2 _ IH|y l1 l2 _ IH]; simpl; tauto.
Qed.

(** X17: the supplementary pass of [MergeShownItems] only fills short
    lists: the result is the first items of the primary list (at most
    ten, eight with [--shrink]) followed by supplementary items in
    their own order; with five (three) primary items or more nothing is
    appended, and a result that holds an appended item is no longer
    than six (five) items. *)
Theorem MergeShownItems_bands (items sub_items : list obj) :
  exists appended,
    fst (merge_objects cfg items sub_items) =
      firstn (if shrink cfg then 8 else 10) items ++ appended /\
    sublist appended sub_items /\
    ((if shrink cfg then 3 else 5) <= length items -> appended = []) /\
    (appended <> [] ->
     length (MergeShownItems cfg items sub_items) <= (if shrink cfg then 5 else 6)).
Proof.
  destruct (merge_objects_spec items sub_items) as (appended & Heq & Hsub & Hmin & Hmid).
  exists appended. rewrite MergeShownItems_length, Heq. simpl.
  unfold min_shown_items, mid_shown_items, max_shown_items in *.
  destruct (shrink cfg); auto.
Qed.

Lemma merged_items_flags (items sub_items : list obj) :
  exists appended,
    sublist appended sub_items /\
    MergeShownItems cfg items sub_items =
      map (fun o =>
             {| i_pos := i_pos (snd o);
                i_label := i_label (snd o);
                i_text := i_text (snd o);
                i_is_aux := i_is_aux (snd o) || bool_decide (fst o ∈ map fst appended) |})
          (firstn (max_shown_items cfg) items ++ appended).
Proof.
  destruct (merge_objects_spec items sub_items) as (appended & Heq & Hsub & _).
  exists appended. split; [exact Hsub|].
  unfold MergeShownItems. rewrite Heq. apply map_ext. intros o.
  unfold read_item. f_equal. f_equal. apply bool_decide_ext.
  rewrite !list_elem_of_In. symmetry. apply in_rev.
Qed.

(** X18: the [is_aux] marks are set on the objects, so they show
    wherever the object stands: an item of the result is flagged
    exactly when it was flagged before or its object is one of the
    appended ones; every appended item is flagged, and the other fields
    of the items are unchanged. *)
Theorem MergeShownItems_flags (items sub_items : list obj) :
  exists appended,
    sublist appended sub_items /\
    MergeShownItems cfg items sub_items =
      map (fun o =>
             {| i_pos := i_pos (snd o);
                i_label := i_label (snd o);
                i_text := i_text (snd o);
                i_is_aux := i_is_aux (snd o) || bool_decide (fst o ∈ map fst appended) |})
          (firstn (max_shown_items cfg) items ++ appended) /\
    Forall (fun it => i_is_aux it = true)
           (skipn (length (firstn (max_shown_items cfg) items))
                  (MergeShownItems cfg items sub_items)).
Proof.
  destruct (merged_items_flags items sub_items) as (appended & Hsub & Hres).
  exists appended. split; [exact Hsub|]. split; [exact Hres|].
  rewrite Hres, map_app.
  erewrite <- (length_map _ (firstn (max_shown_items cfg) items)).
  rewrite skipn_app, Nat.sub_diag, skipn_all. simpl.
  apply Forall_forall. intros it Hit. apply list_elem_of_In in Hit.
  apply in_map_iff in Hit as (o & <- & Ho). simpl.
  apply orb_true_iff. right. apply bool_decide_eq_true.
  apply list_elem_of_In, in_map_iff. now exists o.
Qed.

Lemma objects_lookup (e : entry) (o : obj) :
  In o (objects e) <-> e_item e !! fst o = Some (snd o).
Proof.
  unfold objects. rewrite <- list_elem_of_In, elem_of_lookup_imap. split.
  - intros (i & it & -> & H). exact H.
  - intros H. exists (fst o), (snd o). split; [now destruct o|exact H].
Qed.

Lemma primary_not_appended (e : entry) (best_label : option str)
    (appended : list obj) (o : obj) :
  sublist appended (sub_items cfg e best_label) ->
  In o (primary_items e best_label) ->
  ~ In (fst o) (map fst appended).
Proof.
  intros Hsub Ho Hin. apply in_map_iff in Hin as (o' & Hfst & Ho').
  apply (sublist_In _ _ _ Hsub) in Ho'.
  unfold primary_items in Ho. unfold sub_items in Ho'.
  apply filter_In in Ho as [Ho Hp]. apply filter_In in Ho' as [Ho' Hs].
  apply objects_lookup in Ho, Ho'. rewrite Hfst in Ho'.
  assert (Hsame : snd o' = snd o) by congruence. rewrite Hsame in Hs.
  apply andb_true_iff in Hp as [_ Hp].
  apply andb_true_iff in Hs as [Hs _]. apply andb_true_iff in Hs as [_ Hs].
  rewrite Hp in Hs. discriminate.
Qed.

(** X19: in a rendered entry whose chosen label has items, these come
    first, unchanged and with the flag they were stored with, at most
    ten (eight with [--shrink]) of them; what follows are supplementary
    items in their stored order, each flagged as auxiliary and
    otherwise unchanged. *)
Theorem MakeMainEntry_primary_first (st : counters) (e : entry) (input_dbm : dbm)
    (keys : list str) (inflections : gmap str str) (best_label : option str)
    (r : rendered) (st' : counters) :
  MakeMainEntry cfg st e input_dbm keys inflections = Ok (Some r, st') ->
  choose_best_label cfg e = Ok best_label ->
  primary_items e best_label <> [] ->
  exists appended,
    sublist appended (sub_items cfg e best_label) /\
    r_items r =
      map snd (firstn (if shrink cfg then 8 else 10) (primary_items e best_label)) ++
      map (fun o => {| i_pos := i_pos (snd o);
                       i_label := i_label (snd o);
                       i_text := i_text (snd o);
                       i_is_aux := true |}) appended.
Proof.
  intros Hr Hlabel Hprimary.
  destruct (MakeMainEntry_items _ _ _ _ _ _ _ _ Hr) as (best_label' & Hl & _ & Hitems).
  rewrite Hlabel in Hl. inversion Hl; subst best_label'. clear Hl.
  assert (Hchosen : chosen_items cfg e best_label = primary_items e best_label).
  { unfold chosen_items. apply nonempty_true in Hprimary. now rewrite Hprimary, Hprimary. }
  rewrite Hchosen in Hitems.
  destruct (merged_items_flags (primary_items e best_label)
              (sub_items cfg e best_label)) as (appended & Hsub & Hres).
  exists appended. split; [exact Hsub|].
  rewrite Hitems, Hres, map_app.
  pose proof (bands_ordered cfg) as (_ & _ & _ & Hmax). rewrite <- Hmax.
  f_equal.
  - apply map_ext_in. intros o Ho.
    assert (Hnot : ~ In (fst o) (map fst appended)).
    { apply (primary_not_appended e best_label); [exact Hsub|].
      revert Ho. generalize (max_shown_items cfg). generalize (primary_items e best_label).
      clear. intros l n. revert n. induction l as [|x l IH]; intros [|n]; simpl; try tauto.
      intros [->|H]; [now left|right; now apply (IH n)]. }
    rewrite <- list_elem_of_In in Hnot.
    rewrite (bool_decide_eq_false_2 _ Hnot), orb_false_r.
    now destruct (snd o).
  - apply map_ext_in. intros o Ho.
    assert (Hin : fst o ∈ map fst appended)
      by (apply list_elem_of_In, in_map_iff; now exists o).
    now rewrite (bool_decide_eq_true_2 _ Hin), orb_true_r.
Qed.

End SupplementFacts.

Lemma MakeMainEntry_primary_first_witness :
  exists r st' (appended : list obj),
    MakeMainEntry (U := ascii_tables) (RT := first_seen_runtime) (default_config false)
      no_counters run_entry ran_store [u "ran2"; u "run"] ∅ = Ok (Some r, st') /\
    r_items r =
      map snd (firstn 10 (primary_items run_entry (Some (u "wn")))) ++
      map (fun o => {| i_pos := i_pos (snd o);
                       i_label := i_label (snd o);
                       i_text := i_text (snd o);
                       i_is_aux := true |}) appended.
Proof.
  destruct (MakeMainEntry (U := ascii_tables) (RT := first_seen_runtime)
              (default_config false) no_counters run_entry ran_store
              [u "ran2"; u "run"] ∅) as [[[r|] st']|x] eqn:E;
    [|vm_compute in E; discriminate|vm_compute in E; discriminate].
  destruct (MakeMainEntry_primary_first (U := ascii_tables) (RT := first_seen_runtime)
              (default_config false) no_counters run_entry ran_store
              [u "ran2"; u "run"] ∅ (Some (u "wn")) r st' E)
    as (appended & _ & Hitems).
  - vm_compute. reflexivity.
  - vm_compute. discriminate.
  - exists r, st', appended. split; [reflexivity|exact Hitems].
Defined.

(** ** Inflection groups and duplicate-check tokens *)

Section GroupFacts.
Context {U : Unicode} {RT : Runtime}.
Variable cfg : config.

Lemma group_add_inv {V} (P : str -> list V -> Prop) key (v : V) groups :
  List.NoDup (map fst groups) ->
  (forall k vs, In (k, vs) groups -> P k vs) ->
  P key [v] ->
  (forall vs, P key vs -> P key (vs ++ [v])) ->
  List.NoDup (map fst (group_add key v groups)) /\
  (forall k, In k (map fst (group_add key v groups)) -> k = key \/ In k (map fst groups)) /\
  (forall k vs, In (k, vs) (group_add key v groups) -> P k vs).
Proof.
  intros Hnodup Hall Hnew Hext.
  induction groups as [|[k0 vs0] groups IH]; simpl.
  - split; [repeat constructor; intros []|]. split.
    + intros k [<-|[]]. now left.
    + intros k vs [Heq|[]]. inversion Heq; subst. exact Hnew.
  - simpl in Hnodup. apply List.NoDup_cons_iff in Hnodup as [Hnotin Hnodup].
    unfold str_eqb. destruct (bool_decide (k0 = key)) eqn:E.
    + apply bool_decide_eq_true in E. subst k0. simpl.
      split; [apply List.NoDup_cons_iff; now split|]. split.
      * intros k Hk. now right.
      * intros k vs [Heq|Hin].
        -- inversion Heq; subst. apply Hext. apply Hall. now left.
        -- apply Hall. now right.
    + apply bool_decide_eq_false in E.
      destruct IH as (IH1 & IH2 & IH3); [assumption| |].
      { intros k vs Hin. apply Hall. now right. }
      simpl. split; [|split].
      * apply List.NoDup_cons_iff. split; [|assumption].
        intros Hin. apply IH2 in Hin as [Hin|Hin]; [congruence|contradiction].
      * intros k [<-|Hk]; [right; now left|].
        apply IH2 in Hk as [Hk|Hk]; [now left|right; now right].
      * intros k vs [Heq|Hin].
        -- inversion Heq; subst. apply Hall. now left.
        -- now apply IH3.
Qed.

(** What a group of [infl_groups] may hold. *)
Lemma infl_groups_inv (e : entry) (names : list infl_name) :
  forall groups,
    let P := fun (pos : str) (values : list (str * str * str)) =>
      In pos (shown_poses cfg e) /\ values <> [] /\
      forall kind value label,
        In (kind, value, label) values ->
        exists name,
          pos = infl_pos name /\ kind = infl_kind name /\ label = infl_label name /\
          e_infl e name = Some value /\ value <> [] in
    List.NoDup (map fst groups) ->
    (forall k vs, In (k, vs) groups -> P k vs) ->
    List.NoDup (map fst (fold_left (add_infl_group cfg e) names groups)) /\
    (forall k vs, In (k, vs) (fold_left (add_infl_group cfg e) names groups) -> P k vs).
Proof.
  induction names as [|name names IH]; intros groups P Hnodup Hall; simpl; [now split|].
  apply IH; unfold add_infl_group.
  - destruct (negb (inb (infl_pos name) (shown_poses cfg e))); [assumption|].
    destruct (e_infl e name) as [value|]; [|assumption].
    destruct (nonempty value); [|assumption].
    apply (group_add_inv (fun _ _ => True)); auto.
  - destruct (negb (inb (infl_pos name) (shown_poses cfg e))) eqn:Epos; [assumption|].
    destruct (e_infl e name) as [value|] eqn:Evalue; [|assumption].
    destruct (nonempty value) eqn:Ene; [|assumption].
    apply negb_false_iff, inb_In in Epos. apply nonempty_true in Ene.
    apply (group_add_inv P); try assumption.
    + split; [assumption|]. split; [discriminate|].
      intros kind v label [Heq|[]]. inversion Heq; subst. now exists name.
    + intros vs (H1 & H2 & H3). split; [assumption|]. split; [now destruct vs|].
      intros kind v label Hin. apply in_app_or in Hin as [Hin|[Heq|[]]]; [now apply H3|].
      inversion Heq; subst. now exists name.
Qed.

(** X20: the inflection groups of an entry.  A word with two capital
    letters gets none; otherwise there is one group per part of speech,
    each for a part of speech of one of the first ten items of the
    entry (those of a supplement label only when there is no other),
    never empty, and every line of a group is a non-empty attribute
    value of the entry under the kind and label of its attribute.  The
    groups attached to the rendered word are groups of these parts of
    speech as well. *)
Theorem infl_groups_sound (e : entry) (inflections : gmap str str) :
  (search_two_AZ (e_word e) = true ->
   infl_groups cfg e = [] /\ attached_infl cfg inflections e = []) /\
  List.NoDup (map fst (infl_groups cfg e)) /\
  (forall pos values,
     In (pos, values) (infl_groups cfg e) ->
     In pos (map i_pos (firstn 10 (e_item e))) /\ values <> [] /\
     forall kind value label,
       In (kind, value, label) values ->
       exists name,
         pos = infl_pos name /\ kind = infl_kind name /\ label = infl_label name /\
         e_infl e name = Some value /\ value <> []) /\
  (forall pos group,
     In (pos, group) (attached_infl cfg inflections e) ->
     In pos (map i_pos (firstn 10 (e_item e))) /\ group <> []).
Proof.
  assert (Hposes : forall pos, In pos (shown_poses cfg e) ->
                     In pos (map i_pos (firstn 10 (e_item e)))).
  { intros pos. unfold shown_poses.
    destruct (nonempty _); intros H; apply in_map_iff in H as (it & <- & Hit);
      apply filter_In in Hit as [Hit _]; apply in_map_iff; now exists it. }
  assert (Hinv : List.NoDup (map fst (infl_groups cfg e)) /\
                 forall pos values,
                   In (pos, values) (infl_groups cfg e) ->
                   In pos (shown_poses cfg e) /\ values <> [] /\
                   forall kind value label,
                     In (kind, value, label) values ->
                     exists name,
                       pos = infl_pos name /\ kind = infl_kind name /\
                       label = infl_label name /\
                       e_infl e name = Some value /\ value <> []).
  { unfold infl_groups. destruct (search_two_AZ (e_word e)).
    - split; [constructor|intros pos values []].
    - apply (infl_groups_inv e (concat INFLECTIONS) []); [constructor|intros k vs []]. }
  destruct Hinv as (Hnodup & Hgroups).
  split; [|split; [exact Hnodup|split]].
  - intros Hcaps. unfold attached_infl, infl_groups. rewrite Hcaps. split; reflexivity.
  - intros pos values Hin. destruct (Hgroups pos values Hin) as (H1 & H2 & H3).
    split; [now apply Hposes|]. split; assumption.
  - intros pos group Hin. unfold attached_infl in Hin.
    apply filter_In in Hin as [Hin Hne]. simpl in Hne.
    apply in_map_iff in Hin as ([p values] & Heq & Hin). simpl in Heq.
    inversion Heq; subst. destruct (Hgroups pos values Hin) as (H1 & _).
    split; [now apply Hposes|]. now apply nonempty_true.
Qed.

Lemma In_sub_nontoken_from (in_run : bool) (s : str) (c : char) :
  In c (sub_nontoken_from [] in_run s) -> is_token_char c = true.
Proof.
  revert in_run. induction s as [|x s IH]; intros in_run; simpl; [intros []|].
  destruct (is_token_char x) eqn:Ex.
  - intros [<-|H]; [exact Ex|now apply (IH false)].
  - destruct in_run; simpl; apply IH.
Qed.

(** X21: the tokens compared for duplication are never empty, are no
    articles, hold nothing but letters of the Latin script, digits,
    hyphens, underscores and apostrophes, and neither start nor end
    with white space, whatever the tokenizer returns. *)
Theorem TokenizeForDupCheck_tokens (text token : str) :
  In token (TokenizeForDupCheck text) ->
  token <> [] /\ ~ In token ARTICLES /\
  (forall c, In c token -> is_token_char c = true) /\
  match token with
  | c :: _ => uni_space c = false /\ uni_space (List.last token c) = false
  | [] => True
  end.
Proof.
  unfold TokenizeForDupCheck. intros H. apply filter_In in H as [H Hkeep].
  apply andb_true_iff in Hkeep as [Hne Hart].
  apply in_map_iff in H as (raw & <- & _).
  split; [now apply nonempty_true|]. split.
  - intros Hin. apply inb_In in Hin. rewrite Hin in Hart. discriminate.
  - split; [|apply strip_trimmed].
    intros c Hc. apply In_strip in Hc. now apply (In_sub_nontoken_from false raw).
Qed.

(** X22: a word that is not major (its probability is below 0.00001 or
    it has a capital letter) is never given supplementary items: when
    it is rendered, its items are the first ten (eight with [--shrink])
    of the list selected for it, unchanged. *)
Theorem MakeMainEntry_minor_word (st : counters) (e : entry) (input_dbm : dbm)
    (keys : list str) (inflections : gmap str str) (best_label : option str)
    (r : rendered) (st' : counters) :
  is_major_word e = false ->
  choose_best_label cfg e = Ok best_label ->
  MakeMainEntry cfg st e input_dbm keys inflections = Ok (Some r, st') ->
  sub_items cfg e best_label = [] /\
  r_items r =
    map snd (firstn (if shrink cfg then 8 else 10)
               (if nonempty (primary_items e best_label)
                then primary_items e best_label else tran_items e)).
Proof.
  intros Hminor Hlabel Hr.
  assert (Hsub : sub_items cfg e best_label = []).
  { unfold sub_items. rewrite Hminor.
    induction (objects e) as [|o l IH]; [reflexivity|]. simpl.
    rewrite andb_false_r, andb_false_r. exact IH. }
  split; [exact Hsub|].
  destruct (MakeMainEntry_items _ _ _ _ _ _ _ _ Hr) as (best_label' & Hl & _ & Hitems).
  rewrite Hlabel in Hl. inversion Hl; subst best_label'. clear Hl.
  rewrite Hitems. unfold chosen_items. rewrite Hsub.
  destruct (merged_items_flags cfg
              (if nonempty (if nonempty (primary_items e best_label)
                            then primary_items e best_label else [])
               then if nonempty (primary_items e best_label)
                    then primary_items e best_label else []
               else tran_items e) []) as (appended & Happ & Hres).
  apply sublist_nil_r in Happ. subst appended.
  rewrite Hres, app_nil_r.
  pose proof (bands_ordered cfg) as (_ & _ & _ & Hmax). rewrite <- Hmax.
  destruct (nonempty (primary_items e best_label)) eqn:Ep.
  - rewrite Ep. apply map_ext. intros o. simpl. rewrite orb_false_r. now destruct (snd o).
  - simpl. apply map_ext. intros o. simpl. rewrite orb_false_r. now destruct (snd o).
Qed.

End GroupFacts.

Lemma TokenizeForDupCheck_tokens_witness :
  u "big" <> [] /\ ~ In (u "big") ARTICLES.
Proof.
  destruct (TokenizeForDupCheck_tokens (U := ascii_tables) (RT := first_seen_runtime)
              (u "the big dog") (u "big")) as (H1 & H2 & _).
  - vm_compute. left. reflexivity.
  - now split.
Defined.

Lemma MakeMainEntry_minor_word_witness :
  exists r st',
    MakeMainEntry (U := ascii_tables) (RT := first_seen_runtime) (default_config false)
      no_counters (mk_entry "Run" (1 # 100) [mk_item "noun" "wn" "a river in Ohio"])
      ∅ [] ∅ = Ok (Some r, st') /\
    r_items r = [mk_item "noun" "wn" "a river in Ohio"].
Proof.
  destruct (MakeMainEntry (U := ascii_tables) (RT := first_seen_runtime)
              (default_config false) no_counters
              (mk_entry "Run" (1 # 100) [mk_item "noun" "wn" "a river in Ohio"])
              ∅ [] ∅) as [[[r|] st']|x] eqn:E;
    [|vm_compute in E; discriminate|vm_compute in E; discriminate].
  exists r, st'. split; [reflexivity|].
  rewrite (proj2 (MakeMainEntry_minor_word (U := ascii_tables) (RT := first_seen_runtime)
                    (default_config false) no_counters
                    (mk_entry "Run" (1 # 100) [mk_item "noun" "wn" "a river in Ohio"])
                    ∅ [] ∅ (Some (u "wn")) r st'
                    ltac:(vm_compute; reflexivity) ltac:(vm_compute; reflexivity) E)).
  vm_compute. reflexivity.
Defined.

(** ** Runs that end *)

Section Termination.
Context {U : Unicode} {RT : Runtime}.
Variable cfg : config.

Lemma shown_entries_In (entries : list entry) (e : entry) :
  In e (shown_entries entries) -> In e entries.
Proof.
  induction entries as [|x entries IH]; simpl; [intros []|].
  destruct (share_below x (main_min_share (e_word x))); [intros []|].
  intros [<-|H]; [now left|right; now apply IH].
Qed.

Lemma MakeMainEntry_total (st : counters) (e : entry) (input_dbm : dbm)
    (keys : list str) (inflections : gmap str str) :
  e_item e <> [] ->
  (forall parent entries pe,
     In parent (e_parent e) -> input_dbm !! parent = Some entries -> In pe entries ->
     e_translation pe <> [] \/ e_item pe <> []) ->
  exists r st', MakeMainEntry cfg st e input_dbm keys inflections = Ok (r, st').
Proof.
  intros Hitems Hparents.
  destruct (choose_best_label_total cfg e Hitems) as (best_label & Hlabel).
  rewrite (MakeMainEntry_chosen _ st e input_dbm keys inflections _ Hlabel).
  destruct (nonempty (chosen_items cfg e best_label)); [|now eexists _, _].
  destruct (all_parent_glosses input_dbm (e_parent e)) as [glosses|x] eqn:Eg;
    [simpl; now eexists _, _|].
  exfalso. apply all_parent_glosses_raise in Eg
    as (_ & parent & entries & Hp & He & before & pe & after & -> & _ & _ & Ht & Hi).
  destruct (Hparents parent _ pe Hp He) as [H|H]; [|congruence|congruence].
  apply in_or_app. right. now left.
Qed.

Lemma make_entries_total (entries : list entry) : forall st input_dbm keys inflections,
  (forall e, In e entries ->
     e_item e <> [] /\
     forall parent records pe,
       In parent (e_parent e) -> input_dbm !! parent = Some records -> In pe records ->
       e_translation pe <> [] \/ e_item pe <> []) ->
  exists rs st', make_entries cfg st entries input_dbm keys inflections = Ok (rs, st').
Proof.
  induction entries as [|e entries IH]; intros st input_dbm keys inflections Hall; simpl.
  - now eexists _, _.
  - destruct (Hall e (or_introl eq_refl)) as (Hitems & Hparents).
    destruct (MakeMainEntry_total st e input_dbm keys inflections Hitems Hparents)
      as (r & st1 & ->).
    simpl.
    destruct (IH st1 input_dbm keys inflections) as (rs & st2 & ->).
    { intros e' He'. apply Hall. now right. }
    simpl. now eexists _, _.
Qed.

(** X23: a run of [MakeMain] ends without an exception when no key is
    empty, every entry stored under a key has a probability and at
    least one item, and every entry recorded for a parent of such an
    entry has a translation or an item. *)
Theorem MakeMain_total (st : counters) (input_dbm : dbm) (keys : list str) :
  (forall key, In key keys -> key <> []) ->
  (forall key e,
     In key keys -> In e (stored input_dbm key) ->
     e_probability e <> None /\ e_item e <> [] /\
     forall parent records pe,
       In parent (e_parent e) -> input_dbm !! parent = Some records -> In pe records ->
       e_translation pe <> [] \/ e_item pe <> []) ->
  exists out st', MakeMain cfg st input_dbm keys = Ok (out, st').
Proof.
  intros Hkeys Hstored. unfold MakeMain.
  destruct (make_inflections_total input_dbm keys) as (inflections & ->).
  { intros e He. unfold prepass_entries in He. apply in_flat_map in He as (key & Hk & He).
    now apply (Hstored key e Hk He). }
  simpl.
  assert (Hgen : forall todo st0,
            (forall key, In key todo -> In key keys) ->
            exists out st', make_keys cfg st0 todo input_dbm keys inflections = Ok (out, st')).
  { induction todo as [|key todo IH]; intros st0 Hsub; simpl; [now eexists _, _|].
    assert (Hkey : In key keys) by (apply Hsub; now left).
    destruct key as [|c rest] eqn:Ekey; [now apply Hkeys in Hkey|]. simpl.
    destruct (make_entries_total (shown_entries (stored input_dbm (c :: rest)))
                st0 input_dbm keys inflections) as (rs & st1 & ->).
    { intros e He. apply shown_entries_In in He.
      destruct (Hstored _ e Hkey He) as (_ & H1 & H2). now split. }
    simpl.
    destruct (IH st1) as (more & st2 & ->); [intros k Hk; apply Hsub; now right|].
    simpl. now eexists _, _. }
  apply Hgen. auto.
Qed.

End Termination.

Lemma MakeMain_total_witness :
  exists out st',
    MakeMain (U := ascii_tables) (RT := first_seen_runtime) (default_config false)
      no_counters ran_store [u "ran2"; u "run"] = Ok (out, st').
Proof.
  apply (MakeMain_total (U := ascii_tables) (RT := first_seen_runtime)).
  - intros key [<-|[<-|[]]]; discriminate.
  - intros key e [<-|[<-|[]]] He; vm_compute in He; destruct He as [<-|[]];
      (split; [discriminate|]; split; [discriminate|]; intros parent records pe []).
Defined.

(** ** The thresholds read by [main] *)

Section MainFacts.
Context {U : Unicode}.
Variable GetCommandFlag : str -> option str.
Variable GetCommandSwitch : str -> bool.
Variable float : str -> Q.


End MainFacts.


(** ** Words that are always or never listed *)

Section ListedWords.
Context {U : Unicode}.
Variable cfg : config.

(** X25: a word with a character outside printable ASCII and the Latin
    script, and a word made of digits with an optional "th", is never
    listed by [ListUpWords], whatever the keyword list, the labels and
    the probabilities say. *)
Theorem ListUpWords_never (input_dbm : dbm) (records : list (str * list entry))
    (keywords : list str) (w : str) :
  search_outside_latin w = true \/ fullmatch_ordinal w = true ->
  ListUpWords cfg input_dbm records keywords !! w = None.
Proof.
  intros Hw. unfold ListUpWords. rewrite fold_left_records.
  pose proof (list_up_entries_lookup cfg input_dbm keywords (flat_map snd records) w) as H.
  destruct (fold_left (list_up_entry cfg input_dbm keywords) (flat_map snd records) ∅ !! w)
    as [p|]; [|reflexivity].
  destruct H as (_ & _ & e & _ & Hgood & <- & _). exfalso.
  unfold IsGoodEntry, first_rules in Hgood.
  destruct (search_outside_latin (e_word e)); [discriminate|].
  destruct Hw as [Hw|Hw]; [discriminate|]. rewrite Hw in Hgood. discriminate.
Qed.

(** X26: every other word of the store that is a keyword, or that has
    an item with a trustable label that is no translation marker, is
    listed, with a value that is at least its probability. *)
Theorem ListUpWords_always (input_dbm : dbm) (records : list (str * list entry))
    (keywords : list str) (e : entry) :
  In e (flat_map snd records) ->
  search_outside_latin (e_word e) = false ->
  fullmatch_ordinal (e_word e) = false ->
  In (e_word e) keywords \/
  (exists it, In it (e_item e) /\ is_translation (i_text it) = false /\
              In (i_label it) (trustable_labels cfg)) ->
  exists p,
    ListUpWords cfg input_dbm records keywords !! e_word e = Some p /\
    (prob_of e <= p)%Q.
Proof.
  intros He Hlatin Hordinal Hwhy.
  assert (Hgood : truthy (IsGoodEntry cfg e input_dbm keywords) = true).
  { unfold IsGoodEntry, first_rules. rewrite Hlatin, Hordinal.
    destruct (inb (e_word e) keywords) eqn:Ekw; [reflexivity|].
    destruct Hwhy as [Hkw|(it & Hit & Htr & Hlabel)].
    - apply inb_In in Hkw. congruence.
    - assert (Hex : existsb (fun label => inb label (trustable_labels cfg))
                      (entry_labels e) = true).
      { apply existsb_exists. exists (i_label it). split; [|now apply inb_In].
        unfold entry_labels. apply in_map. apply filter_In. split; [assumption|].
        now rewrite Htr. }
      now rewrite Hex. }
  unfold ListUpWords. rewrite fold_left_records.
  pose proof (list_up_entries_lookup cfg input_dbm keywords (flat_map snd records)
                (e_word e)) as H.
  destruct (fold_left (list_up_entry cfg input_dbm keywords) (flat_map snd records) ∅
              !! e_word e) as [p|].
  - exists p. split; [reflexivity|]. destruct H as (_ & Hmax & _). now apply Hmax.
  - rewrite (H e He eq_refl) in Hgood. discriminate.
Qed.

End ListedWords.

Lemma ListUpWords_never_witness :
  ListUpWords (U := ascii_tables) (default_config false) ∅
    [(u "12th", [mk_entry "12th" 1 [mk_item "adjective" "xa" "coming after the eleventh"]])]
    [u "12th"] !! u "12th" = None.
Proof.
  apply (ListUpWords_never (U := ascii_tables)). right. vm_compute. reflexivity.
Defined.

Lemma ListUpWords_always_witness :
  exists p,
    ListUpWords (U := ascii_tables) (default_config false) ∅
      [(u "look up", [look_up_noun])] [u "look up"] !! u "look up" = Some p /\
    (5 # 1000000 <= p)%Q.
Proof.
  apply (ListUpWords_always (U := ascii_tables) (default_config false) ∅
           [(u "look up", [look_up_noun])] [u "look up"] look_up_noun).
  - left. reflexivity.
  - vm_compute. reflexivity.
  - vm_compute. reflexivity.
  - left. left. reflexivity.
Defined.
